(** * A sliding-token puzzle with refractors: board assembly and path search

    Shallow embedding of the JavaScript sources
    ([Constants], [Rotator], [Prism], [Target], [Cell], [SmallBoard],
    [Board], [PathFinder], [Encoder], [Robot], [Game]) and the properties
    established about them.

    Conventions of the embedding
    - JavaScript numbers that hold coordinates, angles and counters are [Z].
    - Strings that the code only compares with a closed set of literals
      (wall sides, slide directions, refractor diagonals, quadrant names)
      are enumerations; color tags, shapes and ids stay [string].
    - A two-dimensional array [cells[y][x]] is a finite map keyed by [(x, y)].
    - A JavaScript exception is the [None] of an [option] result (or the
      [Throw] completion in the search engine). *)

From stdpp Require Import gmap strings list fin_maps sorting.
From Stdlib Require Import ZArith Lia DecimalString.
Open Scope Z_scope.

(** ** Shared vocabulary *)

Inductive Side := side_top | side_right | side_bottom | side_left.

Inductive Direction := dir_up | dir_down | dir_left | dir_right.

Inductive Diagonal := Backslash | Slash.

Inductive Quadrant := topLeft | topRight | bottomLeft | bottomRight.

#[global] Instance Side_eq_dec : EqDecision Side.
Proof. solve_decision. Defined.

#[global] Instance Direction_eq_dec : EqDecision Direction.
Proof. solve_decision. Defined.

#[global] Instance Diagonal_eq_dec : EqDecision Diagonal.
Proof. solve_decision. Defined.

(** Sequential iteration of a loop body that may throw. *)
Fixpoint forEachM {A S : Type} (f : A → S → option S) (l : list A) (s : S)
  : option S :=
  match l with
  | [] => Some s
  | a :: l' => match f a s with
               | Some s' => forEachM f l' s'
               | None => None
               end
  end.

(** [for (y = 0; y < n; y++) for (x = 0; x < n; x++)]: the visited
    coordinates [(x, y)], in order. *)
Definition coords (n : Z) : list (Z * Z) :=
  y ← seqZ 0 n; x ← seqZ 0 n; [(x, y)].

(** [0 <= v && v < n] *)
Definition inRange (n v : Z) : bool := (0 <=? v) && (v <? n).

(** [arr[i]] for a JavaScript array and a numeric index. *)
Definition jsIndex {A : Type} (l : list A) (i : Z) : option A :=
  if 0 <=? i then l !! Z.to_nat i else None.

(** ** Constants.js *)

Module CONSTANTS.

Definition SMALL_BOARD_SIZE : Z := 8.
Definition LARGE_BOARD_SIZE : Z := 16.
Definition CENTRAL_GAP_SIZE : Z := 2.

(** [Object.values(COLORS)] *)
Definition COLORS : list string :=
  ["red"; "yellow"; "blue"; "green"; "rainbow"]%string.

Definition RAINBOW : string := "rainbow"%string.

Definition COLOR_ORDER : list string :=
  ["red"; "yellow"; "blue"; "green"]%string.

(** [Object.values(TARGET_SHAPES)] *)
Definition TARGET_SHAPES : list string :=
  ["circle"; "triangle"; "square"; "hexagon"]%string.

Definition ROTATIONS : list Z := [0; 90; 180; 270].

Definition TARGET_GAPS (position : Quadrant) : Z * Z :=
  match position with
  | topLeft => (7, 7)
  | topRight => (0, 7)
  | bottomLeft => (7, 0)
  | bottomRight => (0, 0)
  end.

(** [CENTRAL_BLOCKED.x] and [CENTRAL_BLOCKED.y] *)
Definition CENTRAL_BLOCKED_x : list Z := [7; 8].
Definition CENTRAL_BLOCKED_y : list Z := [7; 8].

End CONSTANTS.

(** ** Rotator.js *)

Module Rotator.

(** [rotatePoint(x, y, angle, size)]; an angle outside the four cases throws. *)
Definition rotatePoint (x y angle size : Z) : option (Z * Z) :=
  let maxIndex := size - 1 in
  if decide (angle = 0) then Some (x, y)
  else if decide (angle = 90) then Some (maxIndex - y, x)
  else if decide (angle = 180) then Some (maxIndex - x, maxIndex - y)
  else if decide (angle = 270) then Some (y, maxIndex - x)
  else None.

(** [Math.floor((angle / 90) % 4)] on an integer angle: the remainder
    [%] takes the sign of the dividend, so [(angle / 90) % 4] is
    [(angle rem 360) / 90], which is then rounded down. *)
Definition rotations (angle : Z) : Z := (Z.rem angle 360) `div` 90.

Definition rotatePrismDirection (direction : Diagonal) (angle : Z) : Diagonal :=
  if decide (rotations angle = 0 ∨ rotations angle = 2) then direction
  else match direction with Backslash => Slash | Slash => Backslash end.

Definition directions : list Direction := [dir_up; dir_right; dir_down; dir_left].

Definition directionIndex (d : Direction) : Z :=
  match d with dir_up => 0 | dir_right => 1 | dir_down => 2 | dir_left => 3 end.

(** The result is [undefined] ([None]) when the index is negative. *)
Definition rotateDirection (direction : Direction) (angle : Z) : option Direction :=
  let newIndex := Z.rem (directionIndex direction + rotations angle) 4 in
  jsIndex directions newIndex.

Definition sides : list Side := [side_top; side_right; side_bottom; side_left].

Definition sideIndex (s : Side) : Z :=
  match s with side_top => 0 | side_right => 1 | side_bottom => 2 | side_left => 3 end.

Definition rotateWallSide (side : Side) (angle : Z) : option Side :=
  let newIndex := Z.rem (sideIndex side + rotations angle) 4 in
  jsIndex sides newIndex.

Definition getCorner (pos : Z * Z) : option Z :=
  let maxIndex := CONSTANTS.SMALL_BOARD_SIZE - 1 in
  if decide (pos.1 = 0 ∧ pos.2 = 0) then Some 0
  else if decide (pos.1 = maxIndex ∧ pos.2 = 0) then Some 1
  else if decide (pos.1 = maxIndex ∧ pos.2 = maxIndex) then Some 2
  else if decide (pos.1 = 0 ∧ pos.2 = maxIndex) then Some 3
  else None.

Definition calculateRotationAngle (originalGap targetGap : Z * Z) : option Z :=
  originalCorner ← getCorner originalGap;
  targetCorner ← getCorner targetGap;
  Some (Z.rem (targetCorner - originalCorner + 4) 4 * 90).

End Rotator.

(** ** Prism.js *)

Module Prism.

Record t := mk {
  x : Z;
  y : Z;
  direction : Diagonal;
  color : string
}.

#[global] Instance eq_dec : EqDecision t.
Proof. solve_decision. Defined.

(** The constructor: the color must be one of the first four of [COLORS]
    (the diagonal is valid by its type). *)
Definition new (x y : Z) (direction : Diagonal) (color : string) : option t :=
  if decide (color ∈ take 4 CONSTANTS.COLORS) then Some (mk x y direction color)
  else None.

Definition calculateRefraction (p : t) (inDirection : Direction) : Direction :=
  match direction p with
  | Backslash =>
      match inDirection with
      | dir_right => dir_down
      | dir_down => dir_right
      | dir_left => dir_up
      | dir_up => dir_left
      end
  | Slash =>
      match inDirection with
      | dir_right => dir_up
      | dir_up => dir_right
      | dir_left => dir_down
      | dir_down => dir_left
      end
  end.

Definition refract (p : t) (inDirection : Direction) (robotColor : string)
  : Direction :=
  if decide (robotColor = color p) then inDirection
  else calculateRefraction p inDirection.

Definition canPassThrough (p : t) (robotColor : string) : bool :=
  bool_decide (robotColor = color p).

Definition rotate (p : t) (angle size : Z) : option t :=
  newPos ← Rotator.rotatePoint (x p) (y p) angle size;
  new newPos.1 newPos.2 (Rotator.rotatePrismDirection (direction p) angle) (color p).

Definition clone (p : t) : option t := new (x p) (y p) (direction p) (color p).

Definition fromJSON (json : t) : option t :=
  new (x json) (y json) (direction json) (color json).

End Prism.

(** ** Target.js *)

Module Target.

Record t := mk {
  x : Z;
  y : Z;
  shape : string;
  color : string;
  id : string
}.

#[global] Instance eq_dec : EqDecision t.
Proof. solve_decision. Defined.

Definition new (x y : Z) (shape color id : string) : option t :=
  if decide (shape ∈ CONSTANTS.TARGET_SHAPES) then
    if decide (color ∈ CONSTANTS.COLORS) then Some (mk x y shape color id)
    else None
  else None.

Definition canAccept (g : t) (robotColor : string) : bool :=
  if decide (color g = CONSTANTS.RAINBOW) then true
  else bool_decide (color g = robotColor).

Definition rotate (g : t) (angle size : Z) : option t :=
  newPos ← Rotator.rotatePoint (x g) (y g) angle size;
  new newPos.1 newPos.2 (shape g) (color g) (id g).

Definition clone (g : t) : option t :=
  new (x g) (y g) (shape g) (color g) (id g).

Definition fromJSON (json : t) : option t :=
  new (x json) (y json) (shape json) (color json) (id json).

End Target.

(** ** Cell.js *)

Module Cell.

(** The [walls] object [{top, right, bottom, left}]. *)
Record Walls := mkWalls {
  w_top : bool;
  w_right : bool;
  w_bottom : bool;
  w_left : bool
}.

Record t := mk {
  x : Z;
  y : Z;
  walls : Walls;
  prism : option Prism.t;
  target : option Target.t
}.

#[global] Instance Walls_eq_dec : EqDecision Walls.
Proof. solve_decision. Defined.

#[global] Instance eq_dec : EqDecision t.
Proof. solve_decision. Defined.

Definition new (x y : Z) : t :=
  mk x y (mkWalls false false false false) None None.

Definition getWall (w : Walls) (s : Side) : bool :=
  match s with
  | side_top => w_top w
  | side_right => w_right w
  | side_bottom => w_bottom w
  | side_left => w_left w
  end.

Definition putWall (w : Walls) (s : Side) (value : bool) : Walls :=
  match s with
  | side_top => mkWalls value (w_right w) (w_bottom w) (w_left w)
  | side_right => mkWalls (w_top w) value (w_bottom w) (w_left w)
  | side_bottom => mkWalls (w_top w) (w_right w) value (w_left w)
  | side_left => mkWalls (w_top w) (w_right w) (w_bottom w) value
  end.

Definition hasWall (c : t) (direction : Side) : bool := getWall (walls c) direction.

Definition setWall (direction : Side) (value : bool) (c : t) : t :=
  mk (x c) (y c) (putWall (walls c) direction value) (prism c) (target c).

Definition setPrism (p : Prism.t) (c : t) : t :=
  mk (x c) (y c) (walls c) (Some p) (target c).

Definition setTarget (g : Target.t) (c : t) : t :=
  mk (x c) (y c) (walls c) (prism c) (Some g).

Definition hasPrism (c : t) : bool := bool_decide (prism c ≠ None).

Definition hasTarget (c : t) : bool := bool_decide (target c ≠ None).

Definition clear (c : t) : t := mk (x c) (y c) (walls c) None None.

End Cell.

(** A grid of cells: [cells[y][x]] is the entry at key [(x, y)]. *)
Abbreviation Grid := (gmap (Z * Z) Cell.t).

(** [cells[y][x].setWall(side, true)], and likewise for the other setters:
    an update in place of the cell stored at [(x, y)]. *)
Definition updateCell (f : Cell.t → Cell.t) (x y : Z) (cells : Grid) : Grid :=
  alter f (x, y) cells.

(** The doubly nested loop that fills a [n]-by-[n] array with [new Cell(x, y)]. *)
Definition emptyCells (n : Z) : Grid :=
  foldr (λ p cells, <[p := Cell.new p.1 p.2]> cells) ∅ (coords n).

(** The neighbour across a side, and the side that faces back
    (the [opposites] tables of [SmallBoard] and [Board]). *)
Definition oppositeSide (s : Side) : Side :=
  match s with
  | side_top => side_bottom
  | side_bottom => side_top
  | side_left => side_right
  | side_right => side_left
  end.

Definition sideDx (s : Side) : Z :=
  match s with side_left => -1 | side_right => 1 | _ => 0 end.

Definition sideDy (s : Side) : Z :=
  match s with side_top => -1 | side_bottom => 1 | _ => 0 end.

(** ** SmallBoard.js *)

Module SmallBoard.

(** One entry of a face's [walls] list. *)
Record WallData := mkWallData {
  wx : Z;
  wy : Z;
  wsides : list Side
}.

Record Face := mkFace {
  fid : Z;
  fwalls : list WallData;
  fprisms : list Prism.t;
  ftargets : list Target.t
}.

Record t := mk {
  id : Z;
  color : string;
  originalGap : Z * Z;
  faces : list Face
}.

Definition size : Z := CONSTANTS.SMALL_BOARD_SIZE.

(** [this.faces.find(f => f.id === faceId)], throwing when there is none. *)
Definition getFace (sb : t) (faceId : Z) : option Face :=
  List.find (λ f, bool_decide (fid f = faceId)) (faces sb).

Definition syncAdjacentWall (cells : Grid) (x y : Z) (side : Side) : Grid :=
  let adjX := x + sideDx side in
  let adjY := y + sideDy side in
  if inRange size adjX && inRange size adjY
  then updateCell (Cell.setWall (oppositeSide side) true) adjX adjY cells
  else cells.

(** The body of [face.walls.forEach]: [cells[wallData.y]] must be a row,
    and the cell must exist as soon as one side is set on it. *)
Definition placeWallData (wallData : WallData) (cells : Grid) : option Grid :=
  if inRange size (wy wallData) then
    forEachM (λ side cells,
      match cells !! (wx wallData, wy wallData) with
      | Some _ =>
          Some (syncAdjacentWall
                  (updateCell (Cell.setWall side true) (wx wallData) (wy wallData) cells)
                  (wx wallData) (wy wallData) side)
      | None => None
      end) (wsides wallData) cells
  else None.

Definition placePrism (prismData : Prism.t) (cells : Grid) : option Grid :=
  prism ← Prism.fromJSON prismData;
  _ ← cells !! (Prism.x prism, Prism.y prism);
  Some (updateCell (Cell.setPrism prism) (Prism.x prism) (Prism.y prism) cells).

Definition placeTarget (targetData : Target.t) (cells : Grid) : option Grid :=
  target ← Target.fromJSON targetData;
  _ ← cells !! (Target.x target, Target.y target);
  Some (updateCell (Cell.setTarget target) (Target.x target) (Target.y target) cells).

Definition createCells (sb : t) (faceId : Z) : option Grid :=
  face ← getFace sb faceId;
  cells ← forEachM placeWallData (fwalls face) (emptyCells size);
  cells ← forEachM placePrism (fprisms face) cells;
  forEachM placeTarget (ftargets face) cells.

(** The body of [Object.keys(oldCell.walls).forEach] in [rotateCells]. *)
Definition rotateWall (oldCell : Cell.t) (angle : Z) (side : Side) (newCell : Cell.t)
  : option Cell.t :=
  if Cell.hasWall oldCell side then
    newSide ← Rotator.rotateWallSide side angle;
    Some (Cell.setWall newSide true newCell)
  else Some newCell.

Definition rotatePrismInto (oldCell : Cell.t) (angle : Z) (newCell : Cell.t)
  : option Cell.t :=
  match Cell.prism oldCell with
  | Some p => rotatedPrism ← Prism.rotate p angle size;
              Some (Cell.setPrism rotatedPrism newCell)
  | None => Some newCell
  end.

Definition rotateTargetInto (oldCell : Cell.t) (angle : Z) (newCell : Cell.t)
  : option Cell.t :=
  match Cell.target oldCell with
  | Some g => rotatedTarget ← Target.rotate g angle size;
              Some (Cell.setTarget rotatedTarget newCell)
  | None => Some newCell
  end.

(** What one iteration of the double loop of [rotateCells] does to the
    cell [newCell] at the rotated position. *)
Definition rotateCellInto (oldCell : Cell.t) (angle : Z) (newCell : Cell.t)
  : option Cell.t :=
  newCell ← forEachM (rotateWall oldCell angle) Rotator.sides newCell;
  newCell ← rotatePrismInto oldCell angle newCell;
  rotateTargetInto oldCell angle newCell.

Definition rotateStep (originalCells : Grid) (angle : Z) (p : Z * Z)
  (rotatedCells : Grid) : option Grid :=
  oldCell ← originalCells !! p;
  newPos ← Rotator.rotatePoint p.1 p.2 angle size;
  newCell ← rotatedCells !! newPos;
  newCell' ← rotateCellInto oldCell angle newCell;
  Some (<[newPos := newCell']> rotatedCells).

(** The part of [rotateCells] after the face has been materialized: a
    fresh grid, filled cell by cell with the rotated content. *)
Definition rotateGrid (originalCells : Grid) (angle : Z) : option Grid :=
  forEachM (rotateStep originalCells angle) (coords size) (emptyCells size).

Definition rotateCells (sb : t) (faceId : Z) (angle : Z) : option Grid :=
  if decide (angle = 0) then createCells sb faceId
  else
    originalCells ← createCells sb faceId;
    rotateGrid originalCells angle.

Definition calculateRotationForPosition (sb : t) (targetPosition : Quadrant)
  : option Z :=
  Rotator.calculateRotationAngle (originalGap sb) (CONSTANTS.TARGET_GAPS targetPosition).

End SmallBoard.

(** ** Board.js *)

Module Board.

Record BoardConfig := mkConfig {
  boardId : Z;
  faceId : Z
}.

(** The fields of a board that the assembly and the search use; the
    textual [code] of the configuration belongs to the encoder. *)
Record t := mk {
  size : Z;
  cells : Grid;
  config : list BoardConfig;
  targets : list Target.t
}.

Definition boardSize : Z := CONSTANTS.LARGE_BOARD_SIZE.

(** One iteration of the loop that walls the outer boundary. *)
Definition boundaryStep (i : Z) (cells : Grid) : Grid :=
  let cells := updateCell (Cell.setWall side_top true) i 0 cells in
  let cells := updateCell (Cell.setWall side_bottom true) i (boardSize - 1) cells in
  let cells := updateCell (Cell.setWall side_left true) 0 i cells in
  updateCell (Cell.setWall side_right true) (boardSize - 1) i cells.

Definition createEmptyCells : Grid :=
  fold_left (λ cells i, boundaryStep i cells) (seqZ 0 boardSize) (emptyCells boardSize).

(** [validateConfig]: every quadrant names an existing module, no color
    occurs twice, and four colors are collected. *)
Definition validateStep (smallBoards : list SmallBoard.t) (boardConfig : BoardConfig)
  (colors : list string) : option (list string) :=
  smallBoard ← jsIndex smallBoards (boardId boardConfig);
  if decide (SmallBoard.color smallBoard ∈ colors) then None
  else Some (colors ++ [SmallBoard.color smallBoard]).

Definition validateConfig (config : list BoardConfig) (smallBoards : list SmallBoard.t)
  : option unit :=
  colors ← forEachM (validateStep smallBoards) config [];
  if decide (length colors = 4%nat) then Some tt else None.

Definition positions : list Quadrant := [topLeft; topRight; bottomLeft; bottomRight].

Definition offsets (position : Quadrant) : Z * Z :=
  match position with
  | topLeft => (0, 0)
  | topRight => (8, 0)
  | bottomLeft => (0, 8)
  | bottomRight => (8, 8)
  end.

Definition positionIndex (position : Quadrant) : Z :=
  match position with
  | topLeft => 0
  | topRight => 1
  | bottomLeft => 2
  | bottomRight => 3
  end.

Definition isRealOuterBoundary (side : Side) (targetX targetY : Z) : bool :=
  match side with
  | side_top => bool_decide (targetY = 0)
  | side_bottom => bool_decide (targetY = boardSize - 1)
  | side_left => bool_decide (targetX = 0)
  | side_right => bool_decide (targetX = boardSize - 1)
  end.

(** The body of [Object.keys(sourceCell.walls).forEach] in
    [placeSmallBoards]: merge one wall of the module and mirror it. *)
Definition copyWall (sourceCell : Cell.t) (targetX targetY : Z) (side : Side)
  (cells : Grid) : Grid :=
  if Cell.hasWall sourceCell side then
    if isRealOuterBoundary side targetX targetY then cells
    else
      let cells := updateCell (Cell.setWall side true) targetX targetY cells in
      let adjX := targetX + sideDx side in
      let adjY := targetY + sideDy side in
      if inRange boardSize adjX && inRange boardSize adjY
      then updateCell (Cell.setWall (oppositeSide side) true) adjX adjY cells
      else cells
  else cells.

Definition copyPrism (sourceCell : Cell.t) (targetX targetY : Z) (cells : Grid)
  : option Grid :=
  match Cell.prism sourceCell with
  | Some p =>
      prism ← Prism.clone p;
      Some (updateCell
              (Cell.setPrism (Prism.mk targetX targetY (Prism.direction prism) (Prism.color prism)))
              targetX targetY cells)
  | None => Some cells
  end.

Definition copyTarget (sourceCell : Cell.t) (targetX targetY : Z) (cells : Grid)
  : option Grid :=
  match Cell.target sourceCell with
  | Some g =>
      target ← Target.clone g;
      Some (updateCell
              (Cell.setTarget (Target.mk targetX targetY (Target.shape target)
                                 (Target.color target) (Target.id target)))
              targetX targetY cells)
  | None => Some cells
  end.

(** One iteration of the copy loop: module cell [(x, y)] into the
    board cell at the quadrant's offset. *)
Definition copyCell (rotatedCells : Grid) (offset : Z * Z) (p : Z * Z) (cells : Grid)
  : option Grid :=
  sourceCell ← rotatedCells !! p;
  _ ← cells !! (offset.1 + p.1, offset.2 + p.2);
  let targetX := offset.1 + p.1 in
  let targetY := offset.2 + p.2 in
  let cells := fold_left (λ cells side, copyWall sourceCell targetX targetY side cells)
                 Rotator.sides cells in
  cells ← copyPrism sourceCell targetX targetY cells;
  copyTarget sourceCell targetX targetY cells.

(** The body of [positions.forEach((position, index) => ...)]. *)
Definition placeSmallBoard (config : list BoardConfig) (smallBoards : list SmallBoard.t)
  (position : Quadrant) (cells : Grid) : option Grid :=
  boardConfig ← jsIndex config (positionIndex position);
  smallBoard ← jsIndex smallBoards (boardId boardConfig);
  angle ← SmallBoard.calculateRotationForPosition smallBoard position;
  rotatedCells ← SmallBoard.rotateCells smallBoard (faceId boardConfig) angle;
  forEachM (copyCell rotatedCells (offsets position))
    (coords CONSTANTS.SMALL_BOARD_SIZE) cells.

Definition placeSmallBoards (config : list BoardConfig) (smallBoards : list SmallBoard.t)
  (cells : Grid) : option Grid :=
  forEachM (placeSmallBoard config smallBoards) positions cells.

(** The first pair of loops of [setCentralBlockedArea]: wall and empty
    one cell of the dead zone. *)
Definition blockCell (x y : Z) (cells : Grid) : Grid :=
  let cells := updateCell (Cell.setWall side_top true) x y cells in
  let cells := updateCell (Cell.setWall side_right true) x y cells in
  let cells := updateCell (Cell.setWall side_bottom true) x y cells in
  let cells := updateCell (Cell.setWall side_left true) x y cells in
  updateCell Cell.clear x y cells.

Definition blockedX0 : Z := 7.
Definition blockedX1 : Z := 8.
Definition blockedY0 : Z := 7.
Definition blockedY1 : Z := 8.

Definition setCentralBlockedArea (cells : Grid) : Grid :=
  let ys := seqZ blockedY0 (blockedY1 - blockedY0 + 1) in
  let xs := seqZ blockedX0 (blockedX1 - blockedX0 + 1) in
  let cells := fold_left (λ cells y,
                 fold_left (λ cells x, blockCell x y cells) xs cells) ys cells in
  let cells := fold_left (λ cells y,
                 if 0 <? blockedX0
                 then updateCell (Cell.setWall side_right true) (blockedX0 - 1) y cells
                 else cells) ys cells in
  let cells := fold_left (λ cells y,
                 if blockedX1 <? boardSize - 1
                 then updateCell (Cell.setWall side_left true) (blockedX1 + 1) y cells
                 else cells) ys cells in
  let cells := fold_left (λ cells x,
                 if 0 <? blockedY0
                 then updateCell (Cell.setWall side_bottom true) x (blockedY0 - 1) cells
                 else cells) xs cells in
  fold_left (λ cells x,
    if blockedY1 <? boardSize - 1
    then updateCell (Cell.setWall side_top true) x (blockedY1 + 1) cells
    else cells) xs cells.

Definition collectTargets (cells : Grid) : list Target.t :=
  p ← coords boardSize;
  match cells !! p with
  | Some cell => match Cell.target cell with Some g => [g] | None => [] end
  | None => []
  end.

(** [init], the whole of the constructor for a configuration given as an
    array. *)
Definition init (config : list BoardConfig) (smallBoards : list SmallBoard.t)
  : option t :=
  let cells := createEmptyCells in
  _ ← validateConfig config smallBoards;
  cells ← placeSmallBoards config smallBoards cells;
  let cells := setCentralBlockedArea cells in
  Some (mk boardSize cells config (collectTargets cells)).

Definition getCell (b : t) (x y : Z) : option Cell.t :=
  if (x <? 0) || (size b <=? x) || (y <? 0) || (size b <=? y) then None
  else cells b !! (x, y).

Definition isInCentralArea (x y : Z) : bool :=
  bool_decide (x ∈ CONSTANTS.CENTRAL_BLOCKED_x) && bool_decide (y ∈ CONSTANTS.CENTRAL_BLOCKED_y).

Definition isValidPosition (b : t) (x y : Z) : bool :=
  if (x <? 0) || (size b <=? x) || (y <? 0) || (size b <=? y) then false
  else negb (isInCentralArea x y).

End Board.

(** ** PathFinder.js *)

Module PathFinder.

(** A token as the search sees it: [{color, x, y}]. *)
Record RobotState := mkRobot {
  color : string;
  x : Z;
  y : Z
}.

Record t := mk {
  board : Board.t;
  robots : list RobotState;
  maxIterations : Z
}.

Definition new (board : Board.t) (robots : list RobotState) : t :=
  mk board robots 1000000.

(** The result of [moveInDirection]: [{moved, x, y}]. *)
Record MoveResult := mkMove {
  mv_moved : bool;
  mv_x : Z;
  mv_y : Z
}.

(** One straight part of a slide:
    [{from: {x, y, direction}, to: {x, y}, direction}]. *)
Record Segment := mkSegment {
  seg_from : Z * Z * Direction;
  seg_to : Z * Z;
  seg_direction : Direction
}.

(** The result of [simulateMove]: [{moved, finalX, finalY, segments}]. *)
Record SimResult := mkSim {
  moved : bool;
  finalX : Z;
  finalY : Z;
  segments : list Segment
}.

(** An entry of a solution path. *)
Record Action := mkAction {
  act_robotColor : string;
  act_direction : Direction;
  act_from : Z * Z;
  act_to : Z * Z;
  act_segments : list Segment
}.

(** A queued search node: [{robots, path, steps}]. *)
Record SearchState := mkState {
  st_robots : list RobotState;
  st_path : list Action;
  st_steps : Z
}.

(** The object returned by [findPath]; a field that the returned object
    literal does not have is [None]. *)
Record SearchResult := mkResult {
  success : bool;
  steps : option Z;
  path : option (list Action);
  message : option string;
  statesExplored : option Z;
  time : option Z
}.

(** How a call ends: with a returned object, or with an exception that
    escapes to the caller. *)
Inductive Completion := Normal (r : SearchResult) | Throw.

Definition dx (d : Direction) : Z :=
  match d with dir_left => -1 | dir_right => 1 | _ => 0 end.

Definition dy (d : Direction) : Z :=
  match d with dir_up => -1 | dir_down => 1 | _ => 0 end.

Definition wallMap (d : Direction) : Side :=
  match d with
  | dir_up => side_top
  | dir_down => side_bottom
  | dir_left => side_left
  | dir_right => side_right
  end.

Definition hasWallInDirection (cell : option Cell.t) (direction : Direction) : bool :=
  match cell with
  | None => true
  | Some c => Cell.hasWall c (wallMap direction)
  end.

(** [allRobots.some(r => r.x === nextX && r.y === nextY &&
                         !(r.x === startX && r.y === startY))] *)
Definition hasOtherRobot (allRobots : list RobotState) (startX startY nextX nextY : Z)
  : bool :=
  existsb (λ r, (x r =? nextX) && (y r =? nextY)
                && negb ((x r =? startX) && (y r =? startY))) allRobots.

(** [cell && cell.hasPrism()] *)
Definition cellHasPrism (cell : option Cell.t) : bool :=
  match cell with
  | Some c => Cell.hasPrism c
  | None => false
  end.

(** The [while (true)] loop of [moveInDirection]; [fuel] bounds the number
    of iterations, and [None] means that it was too small. *)
Fixpoint moveLoop (fuel : nat) (b : Board.t) (startX startY : Z) (direction : Direction)
  (allRobots : list RobotState) (x y : Z) (movedAtLeastOnce : bool)
  : option MoveResult :=
  match fuel with
  | O => None
  | S fuel' =>
      let nextX := x + dx direction in
      let nextY := y + dy direction in
      if (nextX <? 0) || (Board.size b <=? nextX) || (nextY <? 0) || (Board.size b <=? nextY)
      then Some (mkMove movedAtLeastOnce x y)
      else if Board.isInCentralArea nextX nextY
      then Some (mkMove movedAtLeastOnce x y)
      else if hasWallInDirection (Board.getCell b x y) direction
      then Some (mkMove movedAtLeastOnce x y)
      else if hasOtherRobot allRobots startX startY nextX nextY
      then Some (mkMove movedAtLeastOnce x y)
      else if cellHasPrism (Board.getCell b nextX nextY)
      then Some (mkMove true nextX nextY)
      else moveLoop fuel' b startX startY direction allRobots nextX nextY true
  end.

(** Every iteration but the last advances by one cell inside the board,
    so [size + 1] iterations are enough (lemma [moveInDirection_total]). *)
Definition moveFuel (b : Board.t) : nat := S (Z.to_nat (Board.size b)).

Definition moveInDirection (b : Board.t) (startX startY : Z) (direction : Direction)
  (allRobots : list RobotState) : option MoveResult :=
  moveLoop (moveFuel b) b startX startY direction allRobots startX startY false.

Definition maxSteps : nat := 100.

(** The [while (stepCount < maxSteps)] loop of [simulateMove], by
    recursion on [maxSteps - stepCount]: [stepCount] grows by one exactly
    when the loop goes round again.  [visited] holds the keys
    [`${x},${y},${newDir}`] as triples.  The flag [firstMove] of the source
    selects between two branches that both leave the loop, so it is not
    carried. *)
Fixpoint simulateLoop (remaining : nat) (b : Board.t) (robot : RobotState)
  (allRobots : list RobotState) (x y : Z) (currentDir : Direction)
  (segments : list Segment) (visited : list (Z * Z * Direction))
  : option (Z * Z * list Segment) :=
  match remaining with
  | O => Some (x, y, segments)
  | S remaining' =>
      moveResult ← moveInDirection b x y currentDir allRobots;
      if negb (mv_moved moveResult) then Some (x, y, segments)
      else
        let segmentStart := (x, y, currentDir) in
        let x := mv_x moveResult in
        let y := mv_y moveResult in
        let segments := segments ++ [mkSegment segmentStart (x, y) currentDir] in
        match Board.getCell b x y with
        | Some cell =>
            match Cell.prism cell with
            | Some prism =>
                let newDir := Prism.refract prism currentDir (color robot) in
                if decide (newDir = currentDir) then Some (x, y, segments)
                else if decide ((x, y, newDir) ∈ visited) then Some (x, y, segments)
                else simulateLoop remaining' b robot allRobots x y newDir segments
                       ((x, y, newDir) :: visited)
            | None => Some (x, y, segments)
            end
        | None => Some (x, y, segments)
        end
  end.

Definition simulateMove (b : Board.t) (robot : RobotState) (direction : Direction)
  (allRobots : list RobotState) : option SimResult :=
  '(finalX, finalY, segments) ←
     simulateLoop maxSteps b robot allRobots (x robot) (y robot) direction [] [];
  let moved := negb ((finalX =? x robot) && (finalY =? y robot)) in
  Some (mkSim moved finalX finalY segments).

(** Decimal rendering of a number inside a template string. *)
Definition showZ (z : Z) : string := NilZero.string_of_int (Z.to_int z).

(** [Array.prototype.sort()] without a comparator orders strings by their
    code units; any sorting algorithm returns the same array. *)
Fixpoint insertSorted (s : string) (l : list string) : list string :=
  match l with
  | [] => [s]
  | h :: t => if String.leb s h then s :: l else h :: insertSorted s t
  end.

Definition sortStrings (l : list string) : list string := foldr insertSorted [] l.

Definition robotKey (r : RobotState) : string :=
  (color r +:+ ":" +:+ showZ (x r) +:+ "," +:+ showZ (y r))%string.

Definition stateToString (robots : list RobotState) : string :=
  String.concat "|" (sortStrings (map robotKey robots)).

Definition directions : list Direction := [dir_up; dir_down; dir_left; dir_right].

(** What the body of the two nested [for] loops of [bfsSearch] does with
    one (token, direction) pair: return from the search, throw, or go on
    with the queue and the visited set. *)
Inductive Step :=
  | Found (r : SearchResult)
  | Raise
  | Continue (queue : list SearchState) (visited : gset string).

Definition moveRobot (robots : list RobotState) (i : nat) (toX toY : Z)
  : list RobotState :=
  imap (λ idx r, if decide (idx = i) then mkRobot (color r) toX toY else r) robots.

Definition tryMove (b : Board.t) (targetColor : string) (targetPos : Z * Z)
  (startTime now statesExplored : Z) (current : SearchState)
  (i : nat) (robot : RobotState) (direction : Direction)
  (queue : list SearchState) (visited : gset string) : option Step :=
  moveResult ← simulateMove b robot direction (st_robots current);
  if negb (moved moveResult) then Some (Continue queue visited)
  else
    let newRobots := moveRobot (st_robots current) i (finalX moveResult) (finalY moveResult) in
    let action := mkAction (color robot) direction (x robot, y robot)
                    (finalX moveResult, finalY moveResult) (segments moveResult) in
    match List.find (λ r, bool_decide (color r = targetColor)) newRobots with
    | None => Some Raise
    | Some movedRobot =>
        if (x movedRobot =? targetPos.1) && (y movedRobot =? targetPos.2) then
          let newSteps := st_steps current + 1 in
          if newSteps <? 2 then Some (Continue queue visited)
          else Some (Found (mkResult true (Some newSteps)
                              (Some (st_path current ++ [action])) None
                              (Some statesExplored) (Some (now - startTime))))
        else
          let stateStr := stateToString newRobots in
          if decide (stateStr ∈ visited) then Some (Continue queue visited)
          else Some (Continue
                       (queue ++ [mkState newRobots (st_path current ++ [action])
                                    (st_steps current + 1)])
                       ({[stateStr]} ∪ visited))
    end.

(** The (index, token, direction) triples in the order in which the
    nested loops visit them. *)
Definition movesOf (current : SearchState) : list (nat * RobotState * Direction) :=
  ir ← imap (λ i r, (i, r)) (st_robots current);
  d ← directions;
  [(ir.1, ir.2, d)].

Fixpoint expandMoves (b : Board.t) (targetColor : string) (targetPos : Z * Z)
  (startTime now statesExplored : Z) (current : SearchState)
  (moves : list (nat * RobotState * Direction))
  (queue : list SearchState) (visited : gset string) : option Step :=
  match moves with
  | [] => Some (Continue queue visited)
  | (i, robot, direction) :: moves' =>
      st ← tryMove b targetColor targetPos startTime now statesExplored current
             i robot direction queue visited;
      match st with
      | Continue queue' visited' =>
          expandMoves b targetColor targetPos startTime now statesExplored current
            moves' queue' visited'
      | _ => Some st
      end
  end.

Definition noPathFound (startTime now statesExplored : Z) : SearchResult :=
  mkResult false None None (Some "No path found"%string)
    (Some statesExplored) (Some (now - startTime)).

Definition searchSpaceTooLarge (startTime now statesExplored : Z) : SearchResult :=
  mkResult false None None (Some "Search space too large (exceeded 1M states)"%string)
    (Some statesExplored) (Some (now - startTime)).

(** The [while (queue.length > 0)] loop of [bfsSearch]. *)
Fixpoint bfsLoop (fuel : nat) (pf : t) (targetColor : string) (targetPos : Z * Z)
  (startTime now : Z) (queue : list SearchState) (visited : gset string)
  (statesExplored : Z) : option Completion :=
  match fuel with
  | O => None
  | S fuel' =>
      match queue with
      | [] => Some (Normal (noPathFound startTime now statesExplored))
      | current :: queue =>
          if maxIterations pf <? statesExplored
          then Some (Normal (searchSpaceTooLarge startTime now statesExplored))
          else
            let statesExplored := statesExplored + 1 in
            st ← expandMoves (board pf) targetColor targetPos startTime now
                   statesExplored current (movesOf current) queue visited;
            match st with
            | Found r => Some (Normal r)
            | Raise => Some Throw
            | Continue queue' visited' =>
                bfsLoop fuel' pf targetColor targetPos startTime now
                  queue' visited' statesExplored
            end
      end
  end.

(** The loop gives up once more than [maxIterations] states have been
    taken from the queue, so it goes round at most [maxIterations + 2]
    times (lemma [bfsSearch_total]). *)
Definition bfsFuel (pf : t) : nat := S (S (Z.to_nat (maxIterations pf))).

(** [startTime] and [now] are the two readings of [performance.now()]:
    on entry of [findPath] and when the result object is built. *)
Definition bfsSearch (pf : t) (targetRobot : RobotState) (targetPos : Z * Z)
  (startTime now : Z) : option Completion :=
  let initialState := mkState (map (λ r, mkRobot (color r) (x r) (y r)) (robots pf)) [] 0 in
  bfsLoop (bfsFuel pf) pf (color targetRobot) targetPos startTime now
    [initialState] {[stateToString (st_robots initialState)]} 0.

Definition robotNotFound (robotColor : string) : SearchResult :=
  mkResult false None None (Some ("Robot " +:+ robotColor +:+ " not found")%string)
    None None.

Definition targetInvalid : SearchResult :=
  mkResult false None None (Some "Target position is invalid"%string) None None.

Definition alreadyThere (startTime now : Z) : SearchResult :=
  mkResult true (Some 0) (Some []) None (Some 0) (Some (now - startTime)).

Definition findPath (pf : t) (robotColor : string) (targetPos : Z * Z)
  (startTime now : Z) : option Completion :=
  match List.find (λ r, bool_decide (color r = robotColor)) (robots pf) with
  | None => Some (Normal (robotNotFound robotColor))
  | Some targetRobot =>
      if negb (Board.isValidPosition (board pf) targetPos.1 targetPos.2)
      then Some (Normal targetInvalid)
      else if (x targetRobot =? targetPos.1) && (y targetRobot =? targetPos.2)
      then Some (Normal (alreadyThere startTime now))
      else bfsSearch pf targetRobot targetPos startTime now
  end.

End PathFinder.

(** ** Encoder.js *)

Module Encoder.

Definition hexDigits : list Ascii.ascii := String.list_ascii_of_string "0123456789ABCDEF".

(** The digit of [value.toString(16).toUpperCase()] for a value from 0 to 15. *)
Definition hexDigit (value : Z) : Ascii.ascii := nth (Z.to_nat value) hexDigits (Ascii.ascii_of_N 48).

(** [value.toString(16).toUpperCase()] for a value from 0 to 255, the
    range that the checks of the callers leave. *)
Definition toHexUpper (value : Z) : string :=
  if value <? 16 then String (hexDigit value) EmptyString
  else String (hexDigit (value `div` 16)) (String (hexDigit (value `mod` 16)) EmptyString).

(** The value of a hexadecimal digit, of either case. *)
Definition hexValue (c : Ascii.ascii) : option Z :=
  let n := Z.of_N (Ascii.N_of_ascii c) in
  if (48 <=? n) && (n <=? 57) then Some (n - 48)
  else if (65 <=? n) && (n <=? 70) then Some (n - 55)
  else if (97 <=? n) && (n <=? 102) then Some (n - 87)
  else None.

(** [/^[0-9A-Fa-f]{n}$/.test(code)] *)
Definition isHexCode (n : nat) (code : string) : bool :=
  bool_decide (String.length code = n)
  && forallb (λ c, bool_decide (is_Some (hexValue c))) (String.list_ascii_of_string code).

(** [parseInt(code, 16)] on a string of hexadecimal digits. *)
Definition parseHex (code : string) : option Z :=
  foldl (λ acc c, a ← acc; v ← hexValue c; Some (16 * a + v)) (Some 0)
    (String.list_ascii_of_string code).

Definition encodeSmallBoard (boardId faceId : Z) : option string :=
  if (boardId <? 0) || (7 <? boardId) then None
  else if negb (faceId =? 0) && negb (faceId =? 1) then None
  else Some (toHexUpper (Z.lor (Z.shiftl boardId 1) faceId)).

(** The argument is a string of one character (the only call passes the
    characters of a checked code); [parseInt] of such a string is the
    value of the digit, or [NaN] when the character is not a digit. *)
Definition decodeSmallBoard (hexChar : Ascii.ascii) : option (Z * Z) :=
  match hexValue hexChar with
  | None => None
  | Some value =>
      if (value <? 0) || (15 <? value) then None
      else Some (Z.land (Z.shiftr value 1) 7, Z.land value 1)
  end.

(** [boards] holds the pairs [(boardId, faceId)]. *)
Definition encodeBoardConfig (boards : list (Z * Z)) : option string :=
  if decide (length boards = 4%nat) then
    chars ← mapM (λ board, encodeSmallBoard board.1 board.2) boards;
    Some (String.concat "" chars)
  else None.

(** An entry of a decoded configuration: [{boardId, faceId, position}]. *)
Record Decoded := mkDecoded {
  boardId : Z;
  faceId : Z;
  position : option Quadrant
}.

Definition decodeBoardConfig (code : string) : option (list Decoded) :=
  if isHexCode 4 code then
    mapM (λ ic, '(boardId, faceId) ← decodeSmallBoard ic.2;
                Some (mkDecoded boardId faceId (Board.positions !! ic.1)))
      (imap (λ i c, (i, c)) (String.list_ascii_of_string code))
  else None.

Definition encodePosition (x y : Z) : option string :=
  if (x <? 0) || (15 <? x) || (y <? 0) || (15 <? y) then None
  else
    let value := Z.lor (Z.shiftl x 4) y in
    let digits := toHexUpper value in
    Some (if (String.length digits <? 2)%nat then String (hexDigit 0) digits else digits).

Definition decodePosition (code : string) : option (Z * Z) :=
  if isHexCode 2 code then
    value ← parseHex code;
    Some (Z.land (Z.shiftr value 4) 15, Z.land value 15)
  else None.

(** [positions] is the object [{red: {x, y}, yellow: ..., ...}]. *)
Definition encodeRobotPositions (positions : gmap string (Z * Z)) : option string :=
  codes ← mapM (λ color, pos ← positions !! color; encodePosition pos.1 pos.2)
             CONSTANTS.COLOR_ORDER;
  Some (String.concat "" codes).

Definition decodeRobotPositions (code : string) : option (gmap string (Z * Z)) :=
  if isHexCode 8 code then
    foldl (λ acc ic,
             positions ← acc;
             pos ← decodePosition (String.substring (ic.1 * 2) 2 code);
             Some (<[ic.2 := pos]> positions))
      (Some ∅) (imap (λ i c, (i, c)) CONSTANTS.COLOR_ORDER)
  else None.

Definition encodeGame (boardCode : string) (positions : gmap string (Z * Z))
  : option string :=
  posCode ← encodeRobotPositions positions;
  Some (boardCode +:+ posCode).

Definition decodeGame (code : string)
  : option (list Decoded * gmap string (Z * Z)) :=
  if isHexCode 12 code then
    boardConfig ← decodeBoardConfig (String.substring 0 4 code);
    robotPositions ← decodeRobotPositions (String.substring 4 8 code);
    Some (boardConfig, robotPositions)
  else None.

Definition isInCentralGap (x y : Z) : bool :=
  bool_decide (x ∈ CONSTANTS.CENTRAL_BLOCKED_x) && bool_decide (y ∈ CONSTANTS.CENTRAL_BLOCKED_y).

(** The messages that [validateGameCode] collects: the message of the
    format check, the message about a token of a color, the message about
    a position, and the message of a caught exception. *)
Inductive ValidationError :=
  | InvalidFormat
  | InCentralArea (color : string)
  | DuplicatePosition (x y : Z)
  | Thrown.

(** The result of [validateGameCode]: [{valid, errors}]. *)
Record Validation := mkValidation {
  valid : bool;
  errors : list ValidationError
}.

(** The key [`${pos.x},${pos.y}`] under which a position enters a [Set]. *)
Definition positionKey (x y : Z) : string :=
  (PathFinder.showZ x +:+ "," +:+ PathFinder.showZ y)%string.

(** [Object.entries] of the object that [decodeRobotPositions] fills: its
    keys are the colors of [COLOR_ORDER], in the order of their insertion. *)
Definition entries (robotPositions : gmap string (Z * Z)) : list (string * (Z * Z)) :=
  omap (λ color, pos ← robotPositions !! color; Some (color, pos)) CONSTANTS.COLOR_ORDER.

(** The body of the first [forEach] of [validateGameCode]. *)
Definition centralStep (errors : list ValidationError) (e : string * (Z * Z))
  : list ValidationError :=
  if isInCentralGap e.2.1 e.2.2 then errors ++ [InCentralArea e.1] else errors.

(** The body of the second [forEach], on the errors and on [posSet]. *)
Definition duplicateStep (acc : list ValidationError * gset string)
  (e : string * (Z * Z)) : list ValidationError * gset string :=
  let key := positionKey e.2.1 e.2.2 in
  (if decide (key ∈ acc.2) then acc.1 ++ [DuplicatePosition e.2.1 e.2.2] else acc.1,
   {[key]} ∪ acc.2).

Definition validateGameCode (code : string) : Validation :=
  if negb (isHexCode 12 code) then mkValidation false [InvalidFormat]
  else
    let errors :=
      match decodeGame code with
      | Some (_, robotPositions) =>
          let errors := foldl centralStep [] (entries robotPositions) in
          (foldl duplicateStep (errors, ∅) (entries robotPositions)).1
      | None => [Thrown]
      end in
    mkValidation (bool_decide (length errors = 0%nat)) errors.

End Encoder.

(** ** Robot.js *)

Module Robot.

Record t := mk {
  color : string;
  x : Z;
  y : Z;
  initialX : Z;
  initialY : Z
}.

(** The constructor: the color must be one of [COLOR_ORDER]. *)
Definition new (color : string) (x y : Z) : option t :=
  if decide (color ∈ CONSTANTS.COLOR_ORDER) then Some (mk color x y x y) else None.

Definition moveTo (x y : Z) (r : t) : t := mk (color r) x y (initialX r) (initialY r).

Definition getPosition (r : t) : Z * Z := (x r, y r).

Definition reset (r : t) : t :=
  mk (color r) (initialX r) (initialY r) (initialX r) (initialY r).

Definition isAt (r : t) (x' y' : Z) : bool :=
  bool_decide (x r = x') && bool_decide (y r = y').

Definition manhattanDistance (r : t) (targetX targetY : Z) : Z :=
  Z.abs (x r - targetX) + Z.abs (y r - targetY).

(** [createRobots(positions)]: one token per color of [COLOR_ORDER]; a
    color without a position throws. *)
Definition createRobots (positions : gmap string (Z * Z)) : option (list t) :=
  mapM (λ color, pos ← positions !! color; new color pos.1 pos.2) CONSTANTS.COLOR_ORDER.

End Robot.

(** ** Game.js *)

Module Game.

(** The record of a played round. *)
Record Round := mkRound {
  roundNumber : Z;
  targetId : string;
  targetInfo : Target.t;
  robotColor : string;
  startPosition : Z * Z;
  endPosition : Z * Z;
  path : list PathFinder.Action;
  steps : Z
}.

(** The fields of a game that its methods read and write after the
    constructor has run. *)
Record t := mk {
  board : Board.t;
  robots : list Robot.t;
  rounds : list Round;
  currentRound : Z;
  totalSteps : Z;
  isStarted : bool;
  isFinished : bool
}.

(** [new Board(boardConfig, smallBoards)] on the array that
    [decodeBoardConfig] returns: the code of the configuration is
    generated, which throws on an entry that cannot be encoded, and the
    board is assembled. *)
Definition newBoard (boardConfig : list Encoder.Decoded) (smallBoards : list SmallBoard.t)
  : option Board.t :=
  _ ← Encoder.encodeBoardConfig
        ((λ c, (Encoder.boardId c, Encoder.faceId c)) <$> boardConfig);
  Board.init ((λ c, Board.mkConfig (Encoder.boardId c) (Encoder.faceId c)) <$> boardConfig)
    smallBoards.

(** The constructor, for a game code given as a string. *)
Definition new (gameCode : string) (smallBoards : list SmallBoard.t) : option t :=
  decoded ← Encoder.decodeGame gameCode;
  board ← newBoard decoded.1 smallBoards;
  robots ← Robot.createRobots decoded.2;
  Some (mk board robots [] 0 0 false false).

(** The body of the first [forEach] of [validateInitialPositions]. *)
Definition validatePosition (b : Board.t) (robot : Robot.t) (u : unit) : option unit :=
  if negb (Board.isValidPosition b (Robot.x robot) (Robot.y robot)) then None
  else
    match Board.getCell b (Robot.x robot) (Robot.y robot) with
    | Some cell => if Cell.hasPrism cell then None else Some u
    | None => Some u
    end.

(** The body of the second [forEach], on the [Set] of position keys. *)
Definition recordPosition (robot : Robot.t) (positions : gset string)
  : option (gset string) :=
  let key := Encoder.positionKey (Robot.x robot) (Robot.y robot) in
  if decide (key ∈ positions) then None else Some ({[key]} ∪ positions).

Definition validateInitialPositions (g : t) : option unit :=
  _ ← forEachM (validatePosition (board g)) (robots g) tt;
  _ ← forEachM recordPosition (robots g) ∅;
  Some tt.

Definition start (g : t) : option t :=
  if isStarted g then None
  else
    _ ← validateInitialPositions g;
    Some (mk (board g) (robots g) (rounds g) 1 (totalSteps g) true (isFinished g)).

(** [board.getTargetById(targetId)] *)
Definition getTargetById (b : Board.t) (targetId : string) : option Target.t :=
  List.find (λ g, bool_decide (Target.id g = targetId)) (Board.targets b).

(** An entry of [getAvailableTargets], without its display name:
    [{target, eligibleColors, position}]. *)
Record Available := mkAvailable {
  target : Target.t;
  eligibleColors : list string;
  position : Z * Z
}.

(** [colorOrder[color] ?? 999] and [shapeOrder[shape] ?? 999], for the
    tags that the constructor of a goal accepts. *)
Definition colorRank (color : string) : Z :=
  if decide (color = "rainbow"%string) then 0
  else if decide (color = "red"%string) then 1
  else if decide (color = "yellow"%string) then 2
  else if decide (color = "blue"%string) then 3
  else if decide (color = "green"%string) then 4
  else 999.

Definition shapeRank (shape : string) : Z :=
  if decide (shape = "circle"%string) then 0
  else if decide (shape = "triangle"%string) then 1
  else if decide (shape = "square"%string) then 2
  else if decide (shape = "hexagon"%string) then 3
  else 999.

(** The comparator given to [sort]. *)
Definition compareAvailable (a b : Available) : Z :=
  let colorA := colorRank (Target.color (target a)) in
  let colorB := colorRank (Target.color (target b)) in
  if negb (colorA =? colorB) then colorA - colorB
  else shapeRank (Target.shape (target a)) - shapeRank (Target.shape (target b)).

(** [Array.prototype.sort(compare)] is stable: an entry stays before the
    later entries that the comparator does not put before it. *)
Fixpoint insertAvailable (a : Available) (l : list Available) : list Available :=
  match l with
  | [] => [a]
  | b :: l' => if compareAvailable a b <=? 0 then a :: l
               else b :: insertAvailable a l'
  end.

Definition sortAvailable (l : list Available) : list Available :=
  foldr insertAvailable [] l.

Definition getAvailableTargets (g : t) : list Available :=
  let usedTargetIds : gset string :=
    list_to_set ((λ round, Target.id (targetInfo round)) <$> rounds g) in
  let occupiedPositions : gset string :=
    list_to_set ((λ robot, Encoder.positionKey (Robot.x robot) (Robot.y robot))
                   <$> robots g) in
  let availableTargets :=
    List.filter (λ target,
        if decide (Encoder.positionKey (Target.x target) (Target.y target)
                   ∈ occupiedPositions) then false
        else if decide (Target.id target ∈ usedTargetIds) then false
        else true)
      (Board.targets (board g)) in
  sortAvailable
    ((λ target,
        mkAvailable target
          (Robot.color <$> List.filter (λ robot, Target.canAccept target (Robot.color robot))
                             (robots g))
          (Target.x target, Target.y target)) <$> availableTargets).

(** [robot.moveTo(x, y)] on the token that [find] returned: the first one
    of the color. *)
Fixpoint moveFirst (robotColor : string) (x y : Z) (robots : list Robot.t)
  : list Robot.t :=
  match robots with
  | [] => []
  | r :: rest =>
      if bool_decide (Robot.color r = robotColor) then Robot.moveTo x y r :: rest
      else r :: moveFirst robotColor x y rest
  end.

(** [executeRound]: the new state of the game and the returned record. *)
Definition executeRound (targetId robotColor : string) (path : list PathFinder.Action)
  (steps : Z) (g : t) : option (t * Round) :=
  target ← getTargetById (board g) targetId;
  robot ← List.find (λ r, bool_decide (Robot.color r = robotColor)) (robots g);
  let roundData :=
    mkRound (currentRound g) targetId target robotColor (Robot.getPosition robot)
      (Target.x target, Target.y target) path steps in
  Some (mk (board g)
          (moveFirst robotColor (Target.x target) (Target.y target) (robots g))
          (rounds g ++ [roundData])
          (currentRound g + 1)
          (totalSteps g + steps)
          (isStarted g) (isFinished g),
        roundData).

Definition finish (g : t) : t :=
  mk (board g) (robots g) (rounds g) (currentRound g) (totalSteps g) (isStarted g) true.

Definition reset (g : t) : t :=
  mk (board g) (Robot.reset <$> robots g) [] 0 0 false false.

(** [getCurrentPositions]: the object from colors to positions. *)
Definition getCurrentPositions (g : t) : gmap string (Z * Z) :=
  foldl (λ positions robot, <[Robot.color robot := Robot.getPosition robot]> positions)
    ∅ (robots g).

End Game.
(** ** Notions used in the statements *)

(** The wall flag on side [s] of the cell stored at [(x, y)]. *)
Definition wallAt (cells : Grid) (x y : Z) (s : Side) : bool :=
  match cells !! (x, y) with
  | Some c => Cell.hasWall c s
  | None => false
  end.

(** Every position of the [n]-by-[n] square holds a cell. *)
Definition fullGrid (n : Z) (cells : Grid) : Prop :=
  ∀ x y, 0 ≤ x < n → 0 ≤ y < n → is_Some (cells !! (x, y)).

(** A wall flag that faces a neighbour inside the square equals the
    neighbour's flag that faces back. *)
Definition wallSymmetric (n : Z) (cells : Grid) : Prop :=
  ∀ x y s,
    0 ≤ x < n → 0 ≤ y < n →
    0 ≤ x + sideDx s < n → 0 ≤ y + sideDy s < n →
    wallAt cells x y s = wallAt cells (x + sideDx s) (y + sideDy s) (oppositeSide s).

(** ** Concrete boards used in the examples *)

Definition emptyFace : SmallBoard.Face := SmallBoard.mkFace 0 [] [] [].

(** The four quadrants take modules 0 to 3, each on its face 0. *)
Definition plainConfig : list Board.BoardConfig :=
  [Board.mkConfig 0 0; Board.mkConfig 1 0; Board.mkConfig 2 0; Board.mkConfig 3 0].

(** Four modules of four colors; each is authored with its gap on the
    corner of the quadrant it is placed in, so none is rotated.  The
    top-left and the top-right module take the given face. *)
Definition modulesWith (faceTopLeft faceTopRight : SmallBoard.Face) : list SmallBoard.t :=
  [SmallBoard.mk 0 "red" (7, 7) [faceTopLeft];
   SmallBoard.mk 1 "yellow" (0, 7) [faceTopRight];
   SmallBoard.mk 2 "blue" (7, 0) [emptyFace];
   SmallBoard.mk 3 "green" (0, 0) [emptyFace]].

(** A board with no walls but those of its boundary and of the dead zone. *)
Definition openModules : list SmallBoard.t := modulesWith emptyFace emptyFace.

(** What the constructor returns, or a board without cells when it throws. *)
Definition boardOf (config : list Board.BoardConfig) (smallBoards : list SmallBoard.t)
  : Board.t :=
  default (Board.mk 0 ∅ [] []) (Board.init config smallBoards).

Definition plainBoard : Board.t := boardOf plainConfig openModules.

(** ** Well-formed module grids *)

(** A cell stored at [(x, y)] records these coordinates, and so do the
    refractor and the goal that it holds, whose tags passed the checks of
    their constructors. *)
Definition wfCell (x y : Z) (c : Cell.t) : Prop :=
  Cell.x c = x ∧ Cell.y c = y
  ∧ (∀ p, Cell.prism c = Some p →
       Prism.x p = x ∧ Prism.y p = y ∧ Prism.color p ∈ take 4 CONSTANTS.COLORS)
  ∧ (∀ g, Cell.target c = Some g →
       Target.x g = x ∧ Target.y g = y
       ∧ Target.shape g ∈ CONSTANTS.TARGET_SHAPES ∧ Target.color g ∈ CONSTANTS.COLORS).

(** An [n]-by-[n] array of well-formed cells, and nothing else. *)
Definition wfGrid (n : Z) (cells : Grid) : Prop :=
  (∀ x y, 0 ≤ x < n → 0 ≤ y < n → ∃ c, cells !! (x, y) = Some c ∧ wfCell x y c)
  ∧ (∀ x y, ¬ (0 ≤ x < n ∧ 0 ≤ y < n) → cells !! (x, y) = None).

(** The three proper rotation angles. *)
Definition properAngle (a : Z) : Prop := a = 90 ∨ a = 180 ∨ a = 270.

(** The content of a cell after a rotation by a proper angle, in closed
    form (lemma [rotateCellInto_new] relates it to [rotateCellInto]). *)
Definition rotatedWalls (a : Z) (w : Cell.Walls) : Cell.Walls :=
  if decide (a = 90)
  then Cell.mkWalls (Cell.w_left w) (Cell.w_top w) (Cell.w_right w) (Cell.w_bottom w)
  else if decide (a = 180)
  then Cell.mkWalls (Cell.w_bottom w) (Cell.w_left w) (Cell.w_top w) (Cell.w_right w)
  else if decide (a = 270)
  then Cell.mkWalls (Cell.w_right w) (Cell.w_bottom w) (Cell.w_left w) (Cell.w_top w)
  else w.

Definition rotatedCell (a x' y' : Z) (c : Cell.t) : Cell.t :=
  Cell.mk x' y' (rotatedWalls a (Cell.walls c))
    ((λ p, Prism.mk x' y' (Rotator.rotatePrismDirection (Prism.direction p) a)
             (Prism.color p)) <$> Cell.prism c)
    ((λ g, Target.mk x' y' (Target.shape g) (Target.color g) (Target.id g))
       <$> Cell.target c).

(** ** Notions about slides *)

(** A position on the board. *)
Definition insideBoard (b : Board.t) (x y : Z) : Prop :=
  0 ≤ x < Board.size b ∧ 0 ≤ y < Board.size b.

(** A straight segment that ends [n >= 1] cells further along its
    direction than it starts, on a position of the board. *)
Definition advancingSegment (b : Board.t) (s : PathFinder.Segment) : Prop :=
  ∃ n : Z,
    1 ≤ n
    ∧ PathFinder.seg_to s
      = ((PathFinder.seg_from s).1.1 + n * PathFinder.dx (PathFinder.seg_direction s),
         (PathFinder.seg_from s).1.2 + n * PathFinder.dy (PathFinder.seg_direction s))
    ∧ (PathFinder.seg_from s).2 = PathFinder.seg_direction s
    ∧ insideBoard b (PathFinder.seg_to s).1 (PathFinder.seg_to s).2.

(** The number of cells between a position of the board and the edge
    that the direction points to. *)
Definition cellsAhead (b : Board.t) (direction : Direction) (x y : Z) : Z :=
  match direction with
  | dir_right => Board.size b - 1 - x
  | dir_left => x
  | dir_down => Board.size b - 1 - y
  | dir_up => y
  end.

(** The tests under which the loop of [moveInDirection] refuses the step
    from [(x, y)]: the next cell is off the board or in the dead zone, the
    cell has a wall on the side of the direction, or the test on the
    listed tokens holds. *)
Definition stepBlocked (b : Board.t) (allRobots : list PathFinder.RobotState)
  (startX startY : Z) (direction : Direction) (x y : Z) : bool :=
  let nextX := x + PathFinder.dx direction in
  let nextY := y + PathFinder.dy direction in
  (nextX <? 0) || (Board.size b <=? nextX) || (nextY <? 0) || (Board.size b <=? nextY)
  || Board.isInCentralArea nextX nextY
  || PathFinder.hasWallInDirection (Board.getCell b x y) direction
  || PathFinder.hasOtherRobot allRobots startX startY nextX nextY.

(** The position of a token. *)
Definition positionOf (r : PathFinder.RobotState) : Z * Z :=
  (PathFinder.x r, PathFinder.y r).




(** A successful search result with at least two actions. *)
Definition searchSuccess (startTime now : Z) (r : PathFinder.SearchResult) : Prop :=
  PathFinder.success r = true
  ∧ (∃ k, PathFinder.steps r = Some k ∧ 2 ≤ k)
  ∧ is_Some (PathFinder.path r)
  ∧ PathFinder.message r = None
  ∧ is_Some (PathFinder.statesExplored r)
  ∧ PathFinder.time r = Some (now - startTime).

(** One action of a path, replayed on a configuration of the tokens: some
    token of the configuration, moved by [simulateMove] in the action's
    direction, is displaced; the action records its color, its position
    before and after and its segments, and the new configuration has that
    token on its new position. *)
Definition validAction (b : Board.t) (robots : list PathFinder.RobotState)
  (a : PathFinder.Action) (robots' : list PathFinder.RobotState) : Prop :=
  ∃ i robot r,
    robots !! i = Some robot
    ∧ PathFinder.simulateMove b robot (PathFinder.act_direction a) robots = Some r
    ∧ PathFinder.moved r = true
    ∧ PathFinder.act_robotColor a = PathFinder.color robot
    ∧ PathFinder.act_from a = (PathFinder.x robot, PathFinder.y robot)
    ∧ PathFinder.act_to a = (PathFinder.finalX r, PathFinder.finalY r)
    ∧ PathFinder.act_segments a = PathFinder.segments r
    ∧ robots' = PathFinder.moveRobot robots i (PathFinder.finalX r) (PathFinder.finalY r).

(** A path replayed action by action from a configuration. *)
Inductive validPath (b : Board.t) (robots : list PathFinder.RobotState)
  : list PathFinder.Action → list PathFinder.RobotState → Prop :=
  | validPath_nil : validPath b robots [] robots
  | validPath_snoc path mid a robots' :
      validPath b robots path mid →
      validAction b mid a robots' →
      validPath b robots (path ++ [a]) robots'.

(** A queued search node whose path leads from the initial configuration
    to its configuration and whose step count is the length of its path. *)
Definition stateOk (b : Board.t) (initial : list PathFinder.RobotState)
  (s : PathFinder.SearchState) : Prop :=
  validPath b initial (PathFinder.st_path s) (PathFinder.st_robots s)
  ∧ PathFinder.st_steps s = Z.of_nat (length (PathFinder.st_path s)).

(** A result whose path, replayed from the initial configuration, leaves
    the first token of the target color on the goal, and whose step count
    is the length of that path. *)
Definition pathReaches (b : Board.t) (initial : list PathFinder.RobotState)
  (targetColor : string) (targetPos : Z * Z) (r : PathFinder.SearchResult) : Prop :=
  ∃ path final target,
    PathFinder.path r = Some path
    ∧ PathFinder.steps r = Some (Z.of_nat (length path))
    ∧ validPath b initial path final
    ∧ List.find (λ q, bool_decide (PathFinder.color q = targetColor)) final = Some target
    ∧ (PathFinder.x target, PathFinder.y target) = targetPos.

(** The three kinds of result that the breadth-first loop returns. *)
Definition searchOutcome (startTime now : Z) (r : PathFinder.SearchResult) : Prop :=
  searchSuccess startTime now r
  ∨ (∃ e, r = PathFinder.searchSpaceTooLarge startTime now e)
  ∨ (∃ e, r = PathFinder.noPathFound startTime now e).

(** The returned object of a call that returns one, or an object with no
    field set otherwise. *)
Definition resultOf (c : option PathFinder.Completion) : PathFinder.SearchResult :=
  match c with
  | Some (PathFinder.Normal r) => r
  | _ => PathFinder.mkResult false None None None None None
  end.

(** ** Boards of the examples *)

(** A yellow backslash refractor at (3, 3). *)
Definition prismBoard : Board.t :=
  boardOf plainConfig
    (modulesWith (SmallBoard.mkFace 0 [] [Prism.mk 3 3 Backslash "yellow"] []) emptyFace).

(** Four yellow refractors on the corners of the rectangle
    (0, 2) - (4, 2) - (4, 4) - (0, 4), which send a token of another color
    round the rectangle. *)
Definition loopBoard : Board.t :=
  boardOf plainConfig
    (modulesWith
       (SmallBoard.mkFace 0 []
          [Prism.mk 4 2 Backslash "yellow"; Prism.mk 4 4 Slash "yellow";
           Prism.mk 0 4 Backslash "yellow"; Prism.mk 0 2 Slash "yellow"] [])
       emptyFace).

(** A wall between (6, 5) and (7, 5) and a wall between (15, 4) and
    (15, 5). *)
Definition detourBoard : Board.t :=
  boardOf plainConfig
    (modulesWith
       (SmallBoard.mkFace 0 [SmallBoard.mkWallData 6 5 [side_right]] [] [])
       (SmallBoard.mkFace 0 [SmallBoard.mkWallData 7 5 [side_top]] [] [])).

(** A module with a wall record, a refractor and a goal. *)
Definition sampleFace : SmallBoard.Face :=
  SmallBoard.mkFace 0
    [SmallBoard.mkWallData 2 3 [side_top; side_right]]
    [Prism.mk 5 1 Backslash "blue"]
    [Target.mk 0 6 "circle" "red" "t1"].

Definition sampleModule : SmallBoard.t := SmallBoard.mk 0 "red" (7, 7) [sampleFace].

(** The materialized face, or the empty map when materializing throws. *)
Definition cellsOf (sb : SmallBoard.t) (faceId : Z) : Grid :=
  default ∅ (SmallBoard.createCells sb faceId).

(** ** Notions about goals *)

(** The position that a goal records. *)
Definition targetPosition (g : Target.t) : Z * Z := (Target.x g, Target.y g).

(** A board whose top-left module holds a wall record, a refractor and a
    goal. *)
Definition sampleBoard : Board.t :=
  boardOf plainConfig (modulesWith sampleFace emptyFace).

(** ** Notions about game codes and games *)

(** The object that [decodeRobotPositions] fills with four positions. *)
Definition fourPositions (red yellow blue green : Z * Z) : gmap string (Z * Z) :=
  <["green"%string := green]>
    (<["blue"%string := blue]> (<["yellow"%string := yellow]> (<["red"%string := red]> ∅))).

(** The calls that change a game.  A call that throws leaves the game as
    it was: [start] and [executeRound] throw before they write. *)
Inductive Call :=
  | CallStart
  | CallExecuteRound (targetId robotColor : string) (path : list PathFinder.Action)
      (steps : Z)
  | CallFinish
  | CallReset.

Definition afterCall (g : Game.t) (c : Call) : Game.t :=
  match c with
  | CallStart => default g (Game.start g)
  | CallExecuteRound targetId robotColor path steps =>
      default g (fst <$> Game.executeRound targetId robotColor path steps g)
  | CallFinish => Game.finish g
  | CallReset => Game.reset g
  end.

Definition afterCalls (g : Game.t) (calls : list Call) : Game.t :=
  foldl afterCall g calls.

(** [rounds.reduce((sum, round) => sum + round.steps, 0)] *)
Definition roundSteps (rounds : list Game.Round) : Z :=
  foldl (λ sum round, sum + Game.steps round) 0 rounds.

(** What the constructor of a game returns, or a game without board and
    tokens when it throws. *)
Definition gameOf (gameCode : string) (smallBoards : list SmallBoard.t) : Game.t :=
  default (Game.mk (Board.mk 0 ∅ [] []) [] [] 0 0 false false)
    (Game.new gameCode smallBoards).

(** The game on [sampleBoard] with the tokens on (0, 0), (15, 0), (9, 9)
    and (0, 15). *)
Definition sampleGame : Game.t :=
  gameOf "024600F0990F" (modulesWith sampleFace emptyFace).

(** A position with both coordinates from 0 to 15. *)
Definition onGrid (p : Z * Z) : Prop := 0 ≤ p.1 ≤ 15 ∧ 0 ≤ p.2 ≤ 15.

(** The record of a round names a goal of the board, by its id, and a
    color of a token, and ends on the position of the goal. *)
Definition roundOk (b : Board.t) (round : Game.Round) : Prop :=
  Game.targetInfo round ∈ Board.targets b
  ∧ Game.targetId round = Target.id (Game.targetInfo round)
  ∧ Game.endPosition round = targetPosition (Game.targetInfo round)
  ∧ Game.robotColor round ∈ CONSTANTS.COLOR_ORDER.

(** The state of a game that its constructor establishes and its calls
    keep: the board has side 16 and its goals lie on the grid, there is
    one token per color, in the order of [COLOR_ORDER], each on the grid
    and with its initial position on the grid, and the total of steps and
    the records of the rounds agree. *)
Definition gameOk (g : Game.t) : Prop :=
  Board.size (Game.board g) = Board.boardSize
  ∧ Forall (λ t, onGrid (targetPosition t)) (Board.targets (Game.board g))
  ∧ Robot.color <$> Game.robots g = CONSTANTS.COLOR_ORDER
  ∧ Forall (λ r, onGrid (Robot.getPosition r)
                 ∧ onGrid (Robot.initialX r, Robot.initialY r)) (Game.robots g)
  ∧ Game.totalSteps g = roundSteps (Game.rounds g)
  ∧ Forall (roundOk (Game.board g)) (Game.rounds g).



(** * Properties *)

(** ** Loops *)

Section ForEachM.
Context {A S : Type} (f : A → S → option S).

(** An invariant that every successful iteration preserves holds after
    the loop. *)
Lemma forEachM_preserves (P : S → Prop) (l : list A) (s s' : S) :
  (∀ a t t', a ∈ l → f a t = Some t' → P t → P t') →
  forEachM f l s = Some s' → P s → P s'.
Proof.
  revert s. induction l as [|a l IH]; intros s Hstep Hrun Hs; simpl in Hrun.
  - by simplify_eq.
  - destruct (f a s) as [t|] eqn:Hf; [|done].
    apply (IH t); [| done |].
    + intros b u u' Hb. apply Hstep. by right.
    + eapply Hstep; [left | done | done].
Qed.

(** An invariant indexed by the elements already processed; every
    iteration succeeds and extends it. *)
Lemma forEachM_progress (P : list A → S → Prop) (l : list A) (s : S) :
  P [] s →
  (∀ pre a post t, l = pre ++ a :: post → P pre t →
     ∃ t', f a t = Some t' ∧ P (pre ++ [a]) t') →
  ∃ s', forEachM f l s = Some s' ∧ P l s'.
Proof.
  intros H0 Hstep.
  assert (Hgen : ∀ post pre t, l = pre ++ post → P pre t →
            ∃ s', forEachM f post t = Some s' ∧ P l s').
  { induction post as [|a post IH]; intros pre t Hl Hp.
    - rewrite app_nil_r in Hl. subst. by exists t.
    - destruct (Hstep pre a post t Hl Hp) as (t' & Hf & Hp').
      simpl. rewrite Hf. apply (IH (pre ++ [a])); [|done].
      by rewrite <- app_assoc. }
  by apply (Hgen l [] s).
Qed.

End ForEachM.

Lemma elem_of_coords (n x y : Z) :
  (x, y) ∈ coords n ↔ (0 ≤ x < n ∧ 0 ≤ y < n).
Proof.
  unfold coords. rewrite list_elem_of_bind. split.
  - intros (y' & Hin & Hy'). apply list_elem_of_bind in Hin as (x' & Hin & Hx').
    apply list_elem_of_singleton in Hin. simplify_eq.
    apply elem_of_seqZ in Hy', Hx'. lia.
  - intros [Hx Hy]. exists y. split.
    + apply list_elem_of_bind. exists x. split; [by apply list_elem_of_singleton|].
      apply elem_of_seqZ. lia.
    + apply elem_of_seqZ. lia.
Qed.

Lemma inRange_spec (n v : Z) : inRange n v = true ↔ 0 ≤ v < n.
Proof. unfold inRange. rewrite andb_true_iff, Z.leb_le, Z.ltb_lt. done. Qed.

(** ** The refraction table *)

(** C5. For every refractor and every incoming direction, [refract]
    returns the incoming direction unchanged when the token has the
    refractor's color; for another color a backslash refractor
    exchanges right with down and left with up, and a slash
    refractor exchanges right with up and left with down. *)
Theorem refract_table (p : Prism.t) (robotColor : string) :
  (robotColor = Prism.color p →
     ∀ d, Prism.refract p d robotColor = d) ∧
  (robotColor ≠ Prism.color p → Prism.direction p = Backslash →
     Prism.refract p dir_right robotColor = dir_down ∧
     Prism.refract p dir_down robotColor = dir_right ∧
     Prism.refract p dir_left robotColor = dir_up ∧
     Prism.refract p dir_up robotColor = dir_left) ∧
  (robotColor ≠ Prism.color p → Prism.direction p = Slash →
     Prism.refract p dir_right robotColor = dir_up ∧
     Prism.refract p dir_up robotColor = dir_right ∧
     Prism.refract p dir_left robotColor = dir_down ∧
     Prism.refract p dir_down robotColor = dir_left).
Proof.
  unfold Prism.refract, Prism.calculateRefraction.
  split; [|split].
  - intros -> d. by rewrite decide_True.
  - intros Hne ->. by rewrite !decide_False.
  - intros Hne ->. by rewrite !decide_False.
Qed.

Lemma refract_table_witness :
  (∀ d, Prism.refract (Prism.mk 3 3 Backslash "yellow") d "yellow" = d) ∧
  Prism.refract (Prism.mk 3 3 Backslash "yellow") dir_right "red" = dir_down ∧
  Prism.refract (Prism.mk 3 3 Slash "yellow") dir_left "red" = dir_down.
Proof.
  split; [|split].
  - apply (refract_table (Prism.mk 3 3 Backslash "yellow") "yellow"). reflexivity.
  - apply (refract_table (Prism.mk 3 3 Backslash "yellow") "red"); [discriminate | reflexivity].
  - apply (refract_table (Prism.mk 3 3 Slash "yellow") "red"); [discriminate | reflexivity].
Defined.

(** ** Grids and wall flags *)

Lemma lookup_updateCell (f : Cell.t → Cell.t) (a b : Z) (cells : Grid) (k : Z * Z) :
  updateCell f a b cells !! k
  = if decide ((a, b) = k) then f <$> cells !! k else cells !! k.
Proof.
  unfold updateCell. rewrite lookup_alter.
  destruct (decide ((a, b) = k)) as [->|]; done.
Qed.

Lemma hasWall_setWall (c : Cell.t) (s t : Side) :
  Cell.hasWall (Cell.setWall s true c) t = bool_decide (s = t) || Cell.hasWall c t.
Proof. by destruct c as [? ? [] ? ?], s, t. Qed.

Lemma wallAt_setWall (cells : Grid) (a b x y : Z) (s t : Side) :
  is_Some (cells !! (a, b)) →
  wallAt (updateCell (Cell.setWall s true) a b cells) x y t
  = bool_decide ((a, b, s) = (x, y, t)) || wallAt cells x y t.
Proof.
  intros [c Hc]. unfold wallAt. rewrite lookup_updateCell.
  destruct (decide ((a, b) = (x, y))) as [Heq|Hne].
  - simplify_eq. rewrite Hc. simpl. rewrite hasWall_setWall.
    f_equal. apply bool_decide_ext. naive_solver.
  - rewrite bool_decide_eq_false_2; [done|]. naive_solver.
Qed.

Lemma wallAt_same_walls (f : Cell.t → Cell.t) (cells : Grid) (a b x y : Z) (t : Side) :
  (∀ c, Cell.walls (f c) = Cell.walls c) →
  wallAt (updateCell f a b cells) x y t = wallAt cells x y t.
Proof.
  intros Hf. unfold wallAt. rewrite lookup_updateCell.
  case_decide; [|done]. simplify_eq.
  destruct (cells !! (x, y)) as [c|]; [|done].
  simpl. unfold Cell.hasWall. by rewrite Hf.
Qed.

Lemma fullGrid_updateCell (n : Z) (f : Cell.t → Cell.t) (a b : Z) (cells : Grid) :
  fullGrid n cells → fullGrid n (updateCell f a b cells).
Proof.
  intros Hfull x y Hx Hy. rewrite lookup_updateCell.
  destruct (Hfull x y Hx Hy) as [c Hc]. rewrite Hc.
  case_decide; by eexists.
Qed.

Lemma is_Some_updateCell (f : Cell.t → Cell.t) (a b : Z) (cells : Grid) (k : Z * Z) :
  is_Some (updateCell f a b cells !! k) ↔ is_Some (cells !! k).
Proof.
  rewrite lookup_updateCell. case_decide; [|done].
  by rewrite fmap_is_Some.
Qed.

Lemma fold_left_preserves {A S : Type} (f : S → A → S) (P : S → Prop) (l : list A) (s : S) :
  (∀ t a, a ∈ l → P t → P (f t a)) → P s → P (fold_left f l s).
Proof.
  revert s. induction l as [|a l IH]; intros s Hstep Hs; [done|].
  simpl. apply IH.
  - intros t b Hb. apply Hstep. by right.
  - apply Hstep; [left | done].
Qed.

Lemma lookup_emptyCells (n x y : Z) :
  emptyCells n !! (x, y)
  = if decide (0 ≤ x < n ∧ 0 ≤ y < n) then Some (Cell.new x y) else None.
Proof.
  unfold emptyCells.
  assert (Hgen : ∀ l : list (Z * Z),
            foldr (λ p cells, <[p := Cell.new p.1 p.2]> cells) (∅ : Grid) l !! (x, y)
            = if decide ((x, y) ∈ l) then Some (Cell.new x y) else None).
  { induction l as [|p l IH]; cbn [foldr].
    - rewrite lookup_empty. rewrite decide_False; [done|]. apply not_elem_of_nil.
    - destruct (decide (p = (x, y))) as [->|Hne].
      + rewrite lookup_insert_eq. rewrite decide_True; [done | left].
      + rewrite lookup_insert_ne by done. rewrite IH.
        destruct (decide ((x, y) ∈ l)) as [Hin|Hnin].
        * rewrite decide_True; [done | by right].
        * rewrite decide_False; [done|]. rewrite elem_of_cons.
          intros [?|?]; [congruence | done]. }
  rewrite Hgen.
  destruct (decide ((x, y) ∈ coords n)) as [Hin|Hnin];
    rewrite elem_of_coords in Hin || rewrite elem_of_coords in Hnin.
  - by rewrite decide_True.
  - by rewrite decide_False.
Qed.

Lemma fullGrid_emptyCells (n : Z) : fullGrid n (emptyCells n).
Proof.
  intros x y Hx Hy. rewrite lookup_emptyCells. rewrite decide_True by done. by eexists.
Qed.

Lemma wallAt_emptyCells (n x y : Z) (s : Side) : wallAt (emptyCells n) x y s = false.
Proof.
  unfold wallAt. rewrite lookup_emptyCells. case_decide; [|done]. by destruct s.
Qed.

(** Setting a flag that faces outside the square keeps the symmetry. *)
Lemma wallSymmetric_set_outward (n a b : Z) (s : Side) (cells : Grid) :
  ¬ (0 ≤ a + sideDx s < n ∧ 0 ≤ b + sideDy s < n) →
  is_Some (cells !! (a, b)) →
  wallSymmetric n cells →
  wallSymmetric n (updateCell (Cell.setWall s true) a b cells).
Proof.
  intros Hout Hab Hsym x y t Hx Hy Hx' Hy'.
  rewrite !wallAt_setWall by done.
  rewrite (Hsym x y t) by done.
  rewrite !bool_decide_eq_false_2; [done | |].
  - intros Heq. simplify_eq. destruct t; simpl in *; lia.
  - intros Heq. simplify_eq. lia.
Qed.

(** Setting a flag together with the flag of the neighbour that faces
    back keeps the symmetry. *)
Lemma wallSymmetric_set_pair (n a b : Z) (s : Side) (cells : Grid) :
  is_Some (cells !! (a, b)) →
  is_Some (cells !! (a + sideDx s, b + sideDy s)) →
  wallSymmetric n cells →
  wallSymmetric n
    (updateCell (Cell.setWall (oppositeSide s) true) (a + sideDx s) (b + sideDy s)
       (updateCell (Cell.setWall s true) a b cells)).
Proof.
  intros Hab Hadj Hsym x y t Hx Hy Hx' Hy'.
  rewrite !wallAt_setWall by (done || by apply is_Some_updateCell).
  rewrite (Hsym x y t) by done.
  destruct (decide ((a, b, s) = (x, y, t))) as [Heq|Hne].
  - simplify_eq.
    rewrite (bool_decide_eq_true_2 ((x, y, t) = (x, y, t))) by done.
    rewrite (bool_decide_eq_true_2
               ((x + sideDx t, y + sideDy t, oppositeSide t)
                = (x + sideDx t, y + sideDy t, oppositeSide t))) by done.
    by rewrite !orb_true_r.
  - rewrite (bool_decide_eq_false_2 ((a, b, s) = (x, y, t))) by done.
    rewrite (bool_decide_eq_false_2
               ((a + sideDx s, b + sideDy s, oppositeSide s)
                = (x + sideDx t, y + sideDy t, oppositeSide t))).
    2:{ intros Heq. apply Hne. destruct s, t; simpl in *; simplify_eq; f_equal; f_equal; lia. }
    rewrite !orb_false_l.
    f_equal. apply bool_decide_ext. split; intros Heq.
    + destruct s, t; simpl in *; simplify_eq; f_equal; f_equal; lia.
    + destruct s, t; simpl in *; simplify_eq; f_equal; f_equal; lia.
Qed.

(** ** Board assembly *)

Lemma createEmptyCells_full : fullGrid Board.boardSize Board.createEmptyCells.
Proof.
  unfold Board.createEmptyCells. apply fold_left_preserves.
  - intros t i _ Ht. unfold Board.boundaryStep.
    by repeat apply fullGrid_updateCell.
  - apply fullGrid_emptyCells.
Qed.

Lemma createEmptyCells_symmetric :
  wallSymmetric Board.boardSize Board.createEmptyCells.
Proof.
  unfold Board.createEmptyCells.
  apply (fold_left_preserves _
           (λ cells, fullGrid Board.boardSize cells ∧ wallSymmetric Board.boardSize cells)).
  - intros t i Hi [Hfull Hsym]. apply elem_of_seqZ in Hi.
    unfold Board.boundaryStep, Board.boardSize, CONSTANTS.LARGE_BOARD_SIZE in *.
    split; [by repeat apply fullGrid_updateCell|].
    repeat (apply wallSymmetric_set_outward;
            [simpl; lia
            | repeat (apply is_Some_updateCell); apply Hfull; lia
            | ]).
    done.
  - split; [apply fullGrid_emptyCells|].
    intros x y s _ _ _ _. by rewrite !wallAt_emptyCells.
Qed.

Lemma copyWall_invariant (sourceCell : Cell.t) (targetX targetY : Z) (side : Side)
  (cells : Grid) :
  0 ≤ targetX < Board.boardSize → 0 ≤ targetY < Board.boardSize →
  fullGrid Board.boardSize cells ∧ wallSymmetric Board.boardSize cells →
  fullGrid Board.boardSize (Board.copyWall sourceCell targetX targetY side cells)
  ∧ wallSymmetric Board.boardSize (Board.copyWall sourceCell targetX targetY side cells).
Proof.
  intros Hx Hy [Hfull Hsym]. unfold Board.copyWall.
  destruct (Cell.hasWall sourceCell side); [|done].
  destruct (Board.isRealOuterBoundary side targetX targetY); [done|].
  destruct (inRange Board.boardSize (targetX + sideDx side)
            && inRange Board.boardSize (targetY + sideDy side)) eqn:Hadj.
  - apply andb_true_iff in Hadj as [Hax Hay]. apply inRange_spec in Hax, Hay.
    split; [by repeat apply fullGrid_updateCell|].
    apply wallSymmetric_set_pair; [by apply Hfull | by apply Hfull | done].
  - split; [by apply fullGrid_updateCell|].
    apply wallSymmetric_set_outward; [| by apply Hfull | done].
    intros [Hax Hay]. apply inRange_spec in Hax, Hay.
    by rewrite Hax, Hay in Hadj.
Qed.

Lemma copyPrism_invariant (sourceCell : Cell.t) (targetX targetY : Z) (cells cells' : Grid) :
  Board.copyPrism sourceCell targetX targetY cells = Some cells' →
  fullGrid Board.boardSize cells ∧ wallSymmetric Board.boardSize cells →
  fullGrid Board.boardSize cells' ∧ wallSymmetric Board.boardSize cells'.
Proof.
  unfold Board.copyPrism. intros Hcopy [Hfull Hsym].
  destruct (Cell.prism sourceCell) as [p|]; [|by simplify_eq].
  destruct (Prism.clone p) as [q|]; simpl in Hcopy; [|done]. simplify_eq.
  split; [by apply fullGrid_updateCell|].
  intros x y s Hx Hy Hx' Hy'. rewrite !wallAt_same_walls by done. by apply Hsym.
Qed.

Lemma copyTarget_invariant (sourceCell : Cell.t) (targetX targetY : Z) (cells cells' : Grid) :
  Board.copyTarget sourceCell targetX targetY cells = Some cells' →
  fullGrid Board.boardSize cells ∧ wallSymmetric Board.boardSize cells →
  fullGrid Board.boardSize cells' ∧ wallSymmetric Board.boardSize cells'.
Proof.
  unfold Board.copyTarget. intros Hcopy [Hfull Hsym].
  destruct (Cell.target sourceCell) as [g|]; [|by simplify_eq].
  destruct (Target.clone g) as [q|]; simpl in Hcopy; [|done]. simplify_eq.
  split; [by apply fullGrid_updateCell|].
  intros x y s Hx Hy Hx' Hy'. rewrite !wallAt_same_walls by done. by apply Hsym.
Qed.

Lemma copyCell_invariant (rotatedCells : Grid) (position : Quadrant) (p : Z * Z)
  (cells cells' : Grid) :
  p ∈ coords CONSTANTS.SMALL_BOARD_SIZE →
  Board.copyCell rotatedCells (Board.offsets position) p cells = Some cells' →
  fullGrid Board.boardSize cells ∧ wallSymmetric Board.boardSize cells →
  fullGrid Board.boardSize cells' ∧ wallSymmetric Board.boardSize cells'.
Proof.
  destruct p as [x y]. rewrite elem_of_coords.
  unfold CONSTANTS.SMALL_BOARD_SIZE. intros [Hx Hy] Hcopy Hinv.
  unfold Board.copyCell in Hcopy.
  destruct (rotatedCells !! (x, y)) as [sourceCell|]; simpl in Hcopy; [|done].
  destruct (cells !! _) as [targetCell|]; simpl in Hcopy; [|done].
  assert (Htx : 0 ≤ (Board.offsets position).1 + x < Board.boardSize)
    by (unfold Board.boardSize, CONSTANTS.LARGE_BOARD_SIZE; destruct position; simpl; lia).
  assert (Hty : 0 ≤ (Board.offsets position).2 + y < Board.boardSize)
    by (unfold Board.boardSize, CONSTANTS.LARGE_BOARD_SIZE; destruct position; simpl; lia).
  destruct (Board.copyPrism _ _ _ _) as [cells1|] eqn:Hprism; simpl in Hcopy; [|done].
  eapply copyTarget_invariant; [done|].
  eapply copyPrism_invariant; [done|].
  by repeat apply copyWall_invariant.
Qed.

Lemma placeSmallBoards_invariant (config : list Board.BoardConfig)
  (smallBoards : list SmallBoard.t) (cells cells' : Grid) :
  Board.placeSmallBoards config smallBoards cells = Some cells' →
  fullGrid Board.boardSize cells ∧ wallSymmetric Board.boardSize cells →
  fullGrid Board.boardSize cells' ∧ wallSymmetric Board.boardSize cells'.
Proof.
  unfold Board.placeSmallBoards.
  apply (forEachM_preserves _
           (λ g, fullGrid Board.boardSize g ∧ wallSymmetric Board.boardSize g)).
  intros position t t' _ Hplace Ht. unfold Board.placeSmallBoard in Hplace.
  apply bind_Some in Hplace as (boardConfig & _ & Hplace).
  apply bind_Some in Hplace as (smallBoard & _ & Hplace).
  apply bind_Some in Hplace as (angle & _ & Hplace).
  apply bind_Some in Hplace as (rotatedCells & _ & Hplace).
  revert Hplace Ht.
  apply (forEachM_preserves _
           (λ g, fullGrid Board.boardSize g ∧ wallSymmetric Board.boardSize g)).
  intros p u u' Hp. by apply copyCell_invariant.
Qed.

(** ** The central dead zone *)

(** The flags that [setCentralBlockedArea] sets are those of the cells of
    the dead zone and those that face a cell of the dead zone. *)
Lemma wallAt_setCentralBlockedArea (cells : Grid) (x y : Z) (t : Side) :
  fullGrid Board.boardSize cells →
  wallAt (Board.setCentralBlockedArea cells) x y t
  = Board.isInCentralArea x y
    || Board.isInCentralArea (x + sideDx t) (y + sideDy t)
    || wallAt cells x y t.
Proof.
  intros Hfull.
  unfold Board.setCentralBlockedArea, Board.blockCell.
  change (seqZ Board.blockedY0 (Board.blockedY1 - Board.blockedY0 + 1)) with [7; 8].
  change (seqZ Board.blockedX0 (Board.blockedX1 - Board.blockedX0 + 1)) with [7; 8].
  cbn [fold_left].
  change (0 <? Board.blockedX0) with true.
  change (0 <? Board.blockedY0) with true.
  change (Board.blockedX1 <? Board.boardSize - 1) with true.
  change (Board.blockedY1 <? Board.boardSize - 1) with true.
  change (Board.blockedX0 - 1) with 6. change (Board.blockedY0 - 1) with 6.
  change (Board.blockedX1 + 1) with 9. change (Board.blockedY1 + 1) with 9.
  cbv iota.
  repeat first
    [ rewrite wallAt_setWall
        by (repeat (apply is_Some_updateCell); apply Hfull;
            unfold Board.boardSize, CONSTANTS.LARGE_BOARD_SIZE; lia)
    | rewrite (wallAt_same_walls Cell.clear) by done ].
  destruct (wallAt cells x y t); [by rewrite !orb_true_r|].
  rewrite !orb_false_r.
  destruct (decide (6 ≤ x ≤ 9 ∧ 6 ≤ y ≤ 9)) as [[Hx Hy]|Hout].
  - assert (Hxs : x = 6 ∨ x = 7 ∨ x = 8 ∨ x = 9) by lia.
    assert (Hys : y = 6 ∨ y = 7 ∨ y = 8 ∨ y = 9) by lia.
    destruct Hxs as [->|[->|[->| ->]]], Hys as [->|[->|[->| ->]]], t;
      by vm_compute.
  - unfold Board.isInCentralArea,
      CONSTANTS.CENTRAL_BLOCKED_x, CONSTANTS.CENTRAL_BLOCKED_y.
    repeat (rewrite (bool_decide_eq_false_2 (_ = (x, y, t)))
              by (intros ?; simplify_eq; lia)).
    symmetry. apply orb_false_iff. split; apply andb_false_iff.
    + destruct (decide (6 ≤ x ≤ 9)).
      * right. apply bool_decide_eq_false_2. set_unfold. lia.
      * left. apply bool_decide_eq_false_2. set_unfold. lia.
    + destruct (decide (6 ≤ x ≤ 9)).
      * right. apply bool_decide_eq_false_2. set_unfold. destruct t; simpl; lia.
      * left. apply bool_decide_eq_false_2. set_unfold. destruct t; simpl; lia.
Qed.

Lemma setCentralBlockedArea_content (cells : Grid) (x y : Z) :
  fullGrid Board.boardSize cells →
  Board.isInCentralArea x y = true →
  ∃ c, Board.setCentralBlockedArea cells !! (x, y) = Some c
       ∧ Cell.prism c = None ∧ Cell.target c = None.
Proof.
  intros Hfull Hxy.
  assert (Hx : x = 7 ∨ x = 8).
  { apply andb_true_iff in Hxy as [Hx _]. apply bool_decide_eq_true in Hx.
    unfold CONSTANTS.CENTRAL_BLOCKED_x in Hx. set_unfold. lia. }
  assert (Hy : y = 7 ∨ y = 8).
  { apply andb_true_iff in Hxy as [_ Hy]. apply bool_decide_eq_true in Hy.
    unfold CONSTANTS.CENTRAL_BLOCKED_y in Hy. set_unfold. lia. }
  destruct (Hfull x y) as [c Hc];
    [unfold Board.boardSize, CONSTANTS.LARGE_BOARD_SIZE; lia ..|].
  unfold Board.setCentralBlockedArea, Board.blockCell.
  change (seqZ Board.blockedY0 (Board.blockedY1 - Board.blockedY0 + 1)) with [7; 8].
  change (seqZ Board.blockedX0 (Board.blockedX1 - Board.blockedX0 + 1)) with [7; 8].
  cbn [fold_left].
  change (0 <? Board.blockedX0) with true.
  change (0 <? Board.blockedY0) with true.
  change (Board.blockedX1 <? Board.boardSize - 1) with true.
  change (Board.blockedY1 <? Board.boardSize - 1) with true.
  change (Board.blockedX0 - 1) with 6. change (Board.blockedY0 - 1) with 6.
  change (Board.blockedX1 + 1) with 9. change (Board.blockedY1 + 1) with 9.
  cbv iota.
  destruct Hx as [-> | ->], Hy as [-> | ->];
    repeat (rewrite lookup_updateCell; case_decide; [try congruence | try congruence]);
    rewrite Hc; simpl; eexists; (split; [reflexivity|]); done.
Qed.

Lemma setCentralBlockedArea_full (n : Z) (cells : Grid) :
  fullGrid n cells → fullGrid n (Board.setCentralBlockedArea cells).
Proof.
  intros Hfull. unfold Board.setCentralBlockedArea, Board.blockCell.
  repeat (apply (fold_left_preserves _ (fullGrid n)); [intros ? ? _ ?|]);
    repeat case_match; repeat (apply fullGrid_updateCell); done.
Qed.

Lemma init_inv (config : list Board.BoardConfig) (smallBoards : list SmallBoard.t)
  (b : Board.t) :
  Board.init config smallBoards = Some b →
  ∃ cells, Board.placeSmallBoards config smallBoards Board.createEmptyCells = Some cells
           ∧ b = Board.mk Board.boardSize (Board.setCentralBlockedArea cells) config
                   (Board.collectTargets (Board.setCentralBlockedArea cells)).
Proof.
  unfold Board.init. intros Hinit.
  apply bind_Some in Hinit as (_ & _ & Hinit).
  apply bind_Some in Hinit as (cells & Hplace & Hinit).
  exists cells. split; [done|]. by simplify_eq.
Qed.

Lemma getCell_Some (b : Board.t) (x y : Z) (c : Cell.t) :
  Board.getCell b x y = Some c →
  0 ≤ x < Board.size b ∧ 0 ≤ y < Board.size b ∧ Board.cells b !! (x, y) = Some c.
Proof.
  unfold Board.getCell.
  destruct ((x <? 0) || (Board.size b <=? x) || (y <? 0) || (Board.size b <=? y))
    eqn:Hout; [done|].
  intros Hc. repeat (apply orb_false_iff in Hout as [Hout ?]).
  repeat split; [lia .. | done].
Qed.

Lemma getCell_inside (b : Board.t) (x y : Z) :
  0 ≤ x < Board.size b → 0 ≤ y < Board.size b →
  Board.getCell b x y = Board.cells b !! (x, y).
Proof.
  intros Hx Hy. unfold Board.getCell.
  replace (x <? 0) with false by lia.
  replace (Board.size b <=? x) with false by lia.
  replace (y <? 0) with false by lia.
  replace (Board.size b <=? y) with false by lia.
  done.
Qed.

(** C6. On every board that the constructor builds, each cell of the
    central dead zone (x and y in 7..8) exists, has its four wall flags
    set and holds neither a refractor nor a goal; and every cell outside
    the dead zone has the wall flag set on each side that faces a cell of
    the dead zone. *)
Theorem central_dead_zone_sealed (config : list Board.BoardConfig)
  (smallBoards : list SmallBoard.t) (b : Board.t) :
  Board.init config smallBoards = Some b →
  (∀ x y, x ∈ CONSTANTS.CENTRAL_BLOCKED_x → y ∈ CONSTANTS.CENTRAL_BLOCKED_y →
     ∃ c, Board.getCell b x y = Some c
          ∧ (∀ s, Cell.hasWall c s = true)
          ∧ Cell.prism c = None ∧ Cell.target c = None)
  ∧ (∀ x y s,
       Board.isInCentralArea x y = false →
       Board.isInCentralArea (x + sideDx s) (y + sideDy s) = true →
       ∃ c, Board.getCell b x y = Some c ∧ Cell.hasWall c s = true).
Proof.
  intros Hinit. apply init_inv in Hinit as (cells & Hplace & ->).
  destruct (placeSmallBoards_invariant _ _ _ _ Hplace) as [Hfull _];
    [split; [apply createEmptyCells_full | apply createEmptyCells_symmetric]|].
  split.
  - intros x y Hx Hy.
    assert (Hxy : Board.isInCentralArea x y = true).
    { unfold Board.isInCentralArea. by rewrite !bool_decide_eq_true_2. }
    destruct (setCentralBlockedArea_content cells x y Hfull Hxy) as (c & Hc & Hp & Ht).
    exists c.
    assert (Hxr : 0 ≤ x < 16)
      by (unfold CONSTANTS.CENTRAL_BLOCKED_x in Hx; set_unfold in Hx; lia).
    assert (Hyr : 0 ≤ y < 16)
      by (unfold CONSTANTS.CENTRAL_BLOCKED_y in Hy; set_unfold in Hy; lia).
    rewrite getCell_inside by done.
    cbn [Board.cells]. split; [done|]. split; [|done].
    intros s. pose proof (wallAt_setCentralBlockedArea cells x y s Hfull) as Hw.
    unfold wallAt in Hw. rewrite Hc, Hxy in Hw. done.
  - intros x y s Hout Hin.
    assert (Hx : 6 ≤ x ≤ 9 ∧ 6 ≤ y ≤ 9).
    { apply andb_true_iff in Hin as [Hx Hy]. apply bool_decide_eq_true in Hx, Hy.
      unfold CONSTANTS.CENTRAL_BLOCKED_x in Hx. unfold CONSTANTS.CENTRAL_BLOCKED_y in Hy.
      set_unfold in Hx. set_unfold in Hy. clear - Hx Hy.
      destruct s; simpl in *; lia. }
    destruct (Hfull x y) as [c0 Hc0];
      [unfold Board.boardSize, CONSTANTS.LARGE_BOARD_SIZE; lia ..|].
    assert (Hsome : is_Some (Board.setCentralBlockedArea cells !! (x, y))).
    { apply (setCentralBlockedArea_full Board.boardSize); [done | |];
        change Board.boardSize with 16; lia. }
    destruct Hsome as [c Hc]. exists c.
    rewrite getCell_inside by (cbn [Board.size]; change Board.boardSize with 16; lia).
    cbn [Board.cells]. split; [done|].
    pose proof (wallAt_setCentralBlockedArea cells x y s Hfull) as Hw.
    unfold wallAt in Hw. rewrite Hc, Hin, orb_true_r in Hw. done.
Qed.

Lemma boardOf_built (config : list Board.BoardConfig) (smallBoards : list SmallBoard.t) :
  bool_decide (is_Some (Board.init config smallBoards)) = true →
  Board.init config smallBoards = Some (boardOf config smallBoards).
Proof.
  intros Hsome. apply bool_decide_eq_true in Hsome as [b Hb].
  unfold boardOf. by rewrite Hb.
Qed.

Lemma plainBoard_built : Board.init plainConfig openModules = Some plainBoard.
Proof. apply boardOf_built. by vm_compute. Qed.

Lemma central_dead_zone_sealed_witness :
  (∃ c, Board.getCell plainBoard 7 8 = Some c
        ∧ (∀ s, Cell.hasWall c s = true)
        ∧ Cell.prism c = None ∧ Cell.target c = None)
  ∧ (∃ c, Board.getCell plainBoard 6 7 = Some c ∧ Cell.hasWall c side_right = true).
Proof.
  destruct (central_dead_zone_sealed plainConfig openModules plainBoard plainBoard_built)
    as [Hin Hout].
  split.
  - apply Hin; [left | right; left].
  - apply (Hout 6 7 side_right); reflexivity.
Defined.

(** ** Wall symmetry *)

(** C7. On every board that the constructor builds, for every pair of
    side-adjacent cells, the wall flag of one cell on the side that faces
    the other equals the flag of the other on the side that faces back. *)
Theorem wall_adjacency_symmetric (config : list Board.BoardConfig)
  (smallBoards : list SmallBoard.t) (b : Board.t) :
  Board.init config smallBoards = Some b →
  ∀ x y s c c',
    Board.getCell b x y = Some c →
    Board.getCell b (x + sideDx s) (y + sideDy s) = Some c' →
    Cell.hasWall c s = Cell.hasWall c' (oppositeSide s).
Proof.
  intros Hinit x y s c c' Hc Hc'.
  apply init_inv in Hinit as (cells & Hplace & ->).
  destruct (placeSmallBoards_invariant _ _ _ _ Hplace) as [Hfull Hsym];
    [split; [apply createEmptyCells_full | apply createEmptyCells_symmetric]|].
  apply getCell_Some in Hc as (Hx & Hy & Hc), Hc' as (Hx' & Hy' & Hc').
  cbn [Board.cells Board.size] in *.
  pose proof (wallAt_setCentralBlockedArea cells x y s Hfull) as Hw.
  pose proof (wallAt_setCentralBlockedArea cells (x + sideDx s) (y + sideDy s)
                (oppositeSide s) Hfull) as Hw'.
  unfold wallAt in Hw at 1. unfold wallAt in Hw' at 1.
  rewrite Hc in Hw. rewrite Hc' in Hw'. rewrite Hw, Hw'.
  rewrite (Hsym x y s) by done.
  replace (x + sideDx s + sideDx (oppositeSide s)) with x by (destruct s; simpl; lia).
  replace (y + sideDy s + sideDy (oppositeSide s)) with y by (destruct s; simpl; lia).
  destruct (Board.isInCentralArea x y),
    (Board.isInCentralArea (x + sideDx s) (y + sideDy s)); done.
Qed.

Lemma wall_adjacency_symmetric_witness :
  ∃ c c', Board.getCell plainBoard 6 7 = Some c
          ∧ Board.getCell plainBoard 7 7 = Some c'
          ∧ Cell.hasWall c side_right = Cell.hasWall c' side_left.
Proof.
  destruct (Board.getCell plainBoard 6 7) as [c|] eqn:Hc;
    [|vm_compute in Hc; discriminate Hc].
  destruct (Board.getCell plainBoard (6 + sideDx side_right) (7 + sideDy side_right))
    as [c'|] eqn:Hc'; [|vm_compute in Hc'; discriminate Hc'].
  exists c, c'. split; [done|]. split; [done|].
  exact (wall_adjacency_symmetric plainConfig openModules plainBoard plainBoard_built
           6 7 side_right c c' Hc Hc').
Defined.

(** ** Materialized faces are well formed *)

Lemma wfGrid_emptyCells (n : Z) : wfGrid n (emptyCells n).
Proof.
  split.
  - intros x y Hx Hy. rewrite lookup_emptyCells, decide_True by done.
    eexists. split; [done|]. by repeat split.
  - intros x y Hout. by rewrite lookup_emptyCells, decide_False.
Qed.

Lemma wfGrid_updateCell (n : Z) (f : Cell.t → Cell.t) (a b : Z) (cells : Grid) :
  (∀ c, wfCell a b c → wfCell a b (f c)) →
  wfGrid n cells → wfGrid n (updateCell f a b cells).
Proof.
  intros Hf [Hin Hout]. split.
  - intros x y Hx Hy. destruct (Hin x y Hx Hy) as (c & Hc & Hwf).
    rewrite lookup_updateCell, Hc. case_decide; simplify_eq; eauto.
  - intros x y Hxy. rewrite lookup_updateCell, (Hout x y Hxy). by case_decide.
Qed.

Lemma wfCell_setWall (x y : Z) (s : Side) (v : bool) (c : Cell.t) :
  wfCell x y c → wfCell x y (Cell.setWall s v c).
Proof. by destruct c. Qed.

Lemma syncAdjacentWall_wf (cells : Grid) (x y : Z) (side : Side) :
  wfGrid SmallBoard.size cells →
  wfGrid SmallBoard.size (SmallBoard.syncAdjacentWall cells x y side).
Proof.
  intros Hwf. unfold SmallBoard.syncAdjacentWall. case_match; [|done].
  apply wfGrid_updateCell; [|done]. intros c. apply wfCell_setWall.
Qed.

Lemma placeWallData_wf (wallData : SmallBoard.WallData) (cells cells' : Grid) :
  SmallBoard.placeWallData wallData cells = Some cells' →
  wfGrid SmallBoard.size cells → wfGrid SmallBoard.size cells'.
Proof.
  unfold SmallBoard.placeWallData. case_match; [|done].
  apply (forEachM_preserves _ (wfGrid SmallBoard.size)).
  intros side t t' _ Hstep Ht. case_match; [|done]. simplify_eq.
  apply syncAdjacentWall_wf, wfGrid_updateCell; [|done].
  intros c. apply wfCell_setWall.
Qed.

Lemma Prism_new_Some (x y : Z) (d : Diagonal) (color : string) (p : Prism.t) :
  Prism.new x y d color = Some p →
  p = Prism.mk x y d color ∧ color ∈ take 4 CONSTANTS.COLORS.
Proof. unfold Prism.new. case_decide; [|done]. intros. by simplify_eq. Qed.

Lemma Target_new_Some (x y : Z) (shape color id : string) (g : Target.t) :
  Target.new x y shape color id = Some g →
  g = Target.mk x y shape color id
  ∧ shape ∈ CONSTANTS.TARGET_SHAPES ∧ color ∈ CONSTANTS.COLORS.
Proof. unfold Target.new. repeat case_decide; try done. intros. by simplify_eq. Qed.

Lemma placePrism_wf (prismData : Prism.t) (cells cells' : Grid) :
  SmallBoard.placePrism prismData cells = Some cells' →
  wfGrid SmallBoard.size cells → wfGrid SmallBoard.size cells'.
Proof.
  unfold SmallBoard.placePrism. intros Hplace Hwf.
  apply bind_Some in Hplace as (prism & Hprism & Hplace).
  apply bind_Some in Hplace as (c0 & _ & Hplace). simplify_eq.
  apply Prism_new_Some in Hprism as [-> Hcolor]. simpl.
  apply wfGrid_updateCell; [|done].
  intros c (Hx & Hy & Hp & Hg). unfold wfCell. simpl.
  split; [done|]. split; [done|]. split; [|done].
  intros p Hp'. by simplify_eq.
Qed.

Lemma placeTarget_wf (targetData : Target.t) (cells cells' : Grid) :
  SmallBoard.placeTarget targetData cells = Some cells' →
  wfGrid SmallBoard.size cells → wfGrid SmallBoard.size cells'.
Proof.
  unfold SmallBoard.placeTarget. intros Hplace Hwf.
  apply bind_Some in Hplace as (target & Htarget & Hplace).
  apply bind_Some in Hplace as (c0 & _ & Hplace). simplify_eq.
  apply Target_new_Some in Htarget as (-> & Hshape & Hcolor). simpl.
  apply wfGrid_updateCell; [|done].
  intros c (Hx & Hy & Hp & Hg). unfold wfCell. simpl.
  split; [done|]. split; [done|]. split; [done|].
  intros g Hg'. by simplify_eq.
Qed.

Lemma createCells_wf (sb : SmallBoard.t) (faceId : Z) (cells : Grid) :
  SmallBoard.createCells sb faceId = Some cells → wfGrid SmallBoard.size cells.
Proof.
  unfold SmallBoard.createCells. intros Hcreate.
  apply bind_Some in Hcreate as (face & _ & Hcreate).
  apply bind_Some in Hcreate as (cells1 & Hwalls & Hcreate).
  apply bind_Some in Hcreate as (cells2 & Hprisms & Htargets).
  eapply (forEachM_preserves _ (wfGrid SmallBoard.size)); [|exact Htargets|].
  { intros ? ? ? _. apply placeTarget_wf. }
  eapply (forEachM_preserves _ (wfGrid SmallBoard.size)); [|exact Hprisms|].
  { intros ? ? ? _. apply placePrism_wf. }
  eapply (forEachM_preserves _ (wfGrid SmallBoard.size)); [|exact Hwalls|].
  { intros ? ? ? _. apply placeWallData_wf. }
  apply wfGrid_emptyCells.
Qed.

(** ** Rotation of a materialized face *)

Lemma rotatePoint_proper (a x y : Z) :
  properAngle a → 0 ≤ x < 8 → 0 ≤ y < 8 →
  ∃ x' y', Rotator.rotatePoint x y a SmallBoard.size = Some (x', y')
           ∧ 0 ≤ x' < 8 ∧ 0 ≤ y' < 8
           ∧ Rotator.rotatePoint x' y' (360 - a) SmallBoard.size = Some (x, y).
Proof.
  unfold SmallBoard.size, CONSTANTS.SMALL_BOARD_SIZE.
  intros [-> | [-> | ->]] Hx Hy; unfold Rotator.rotatePoint; simpl;
    (eexists _, _; split; [reflexivity|]);
    (split; [lia|]; split; [lia|]); f_equal; f_equal; lia.
Qed.

Lemma rotatePoint_coordinates (a x y x' y' : Z) :
  properAngle a →
  Rotator.rotatePoint x y a SmallBoard.size = Some (x', y') →
  Rotator.rotatePoint x' y' (360 - a) SmallBoard.size = Some (x, y).
Proof.
  unfold SmallBoard.size, CONSTANTS.SMALL_BOARD_SIZE.
  intros [-> | [-> | ->]]; unfold Rotator.rotatePoint; simpl;
    intros; simplify_eq; f_equal; f_equal; lia.
Qed.

Lemma properAngle_opposite (a : Z) : properAngle a → properAngle (360 - a).
Proof. unfold properAngle. lia. Qed.

Lemma rotateWalls_new (a x' y' : Z) (c : Cell.t) :
  properAngle a →
  forEachM (SmallBoard.rotateWall c a) Rotator.sides (Cell.new x' y')
  = Some (Cell.mk x' y' (rotatedWalls a (Cell.walls c)) None None).
Proof.
  intros [-> | [-> | ->]]; destruct c as [? ? [[] [] [] []] ? ?]; reflexivity.
Qed.

Lemma rotateCellInto_new (a x y x' y' : Z) (c : Cell.t) :
  properAngle a → wfCell x y c →
  Rotator.rotatePoint x y a SmallBoard.size = Some (x', y') →
  SmallBoard.rotateCellInto c a (Cell.new x' y') = Some (rotatedCell a x' y' c).
Proof.
  intros Ha (Hx & Hy & Hp & Hg) Hrot. unfold SmallBoard.rotateCellInto.
  rewrite rotateWalls_new by done. cbn [mbind option_bind].
  unfold SmallBoard.rotatePrismInto, SmallBoard.rotateTargetInto, rotatedCell.
  cbn [Cell.prism Cell.target].
  destruct (Cell.prism c) as [p|] eqn:Hprism.
  - destruct (Hp p eq_refl) as (Hpx & Hpy & Hcolor).
    unfold Prism.rotate. rewrite Hpx, Hpy, Hrot. cbn [mbind option_bind fst snd].
    unfold Prism.new. rewrite decide_True by done. cbn [mbind option_bind].
    destruct (Cell.target c) as [g|] eqn:Htarget; [|done].
    destruct (Hg g eq_refl) as (Hgx & Hgy & Hshape & Hgcolor).
    unfold Target.rotate. rewrite Hgx, Hgy, Hrot. cbn [mbind option_bind fst snd].
    unfold Target.new. by rewrite !decide_True by done.
  - cbn [mbind option_bind].
    destruct (Cell.target c) as [g|] eqn:Htarget; [|done].
    destruct (Hg g eq_refl) as (Hgx & Hgy & Hshape & Hgcolor).
    unfold Target.rotate. rewrite Hgx, Hgy, Hrot. cbn [mbind option_bind fst snd].
    unfold Target.new. by rewrite !decide_True by done.
Qed.

Lemma wfCell_rotatedCell (a x y x' y' : Z) (c : Cell.t) :
  wfCell x y c → wfCell x' y' (rotatedCell a x' y' c).
Proof.
  intros (Hx & Hy & Hp & Hg). unfold wfCell, rotatedCell. simpl.
  split; [done|]. split; [done|]. split.
  - intros q Hq. apply fmap_Some in Hq as (q0 & Hq0 & ->). simpl.
    destruct (Hp q0 Hq0) as (_ & _ & ?). done.
  - intros q Hq. apply fmap_Some in Hq as (q0 & Hq0 & ->). simpl.
    destruct (Hg q0 Hq0) as (_ & _ & ? & ?). done.
Qed.

Lemma rotatedCell_round_trip (a x y x' y' : Z) (c : Cell.t) :
  properAngle a → wfCell x y c →
  rotatedCell (360 - a) x y (rotatedCell a x' y' c) = c.
Proof.
  intros Ha (Hx & Hy & Hp & Hg).
  destruct c as [cx cy [wt wr wb wl] pr tg]. simpl in *. subst cx cy.
  unfold rotatedCell. simpl. f_equal.
  - by destruct Ha as [-> | [-> | ->]].
  - destruct pr as [[px py pd pc]|]; [|done]. simpl.
    destruct (Hp _ eq_refl) as (Hpx & Hpy & _). simpl in *. subst.
    do 2 f_equal.
    by destruct Ha as [-> | [-> | ->]], pd.
  - destruct tg as [[gx gy gs gc gi]|]; [|done]. simpl.
    destruct (Hg _ eq_refl) as (Hgx & Hgy & _). simpl in *. by subst.
Qed.

Lemma NoDup_coords_small : NoDup (coords SmallBoard.size).
Proof. apply (bool_decide_unpack _). by vm_compute. Qed.

(** The grid that [rotateGrid] builds: the cell found at [(x, y)] lands,
    rotated, on the rotated position, and the result is again a
    well-formed module grid. *)
Lemma rotateGrid_spec (a : Z) (cells : Grid) :
  properAngle a → wfGrid SmallBoard.size cells →
  ∃ rotated,
    SmallBoard.rotateGrid cells a = Some rotated
    ∧ wfGrid SmallBoard.size rotated
    ∧ ∀ x y c x' y',
        cells !! (x, y) = Some c →
        Rotator.rotatePoint x y a SmallBoard.size = Some (x', y') →
        rotated !! (x', y') = Some (rotatedCell a x' y' c).
Proof.
  intros Ha [Hin Hout]. unfold SmallBoard.rotateGrid.
  destruct (forEachM_progress (SmallBoard.rotateStep cells a)
              (λ done r,
                 (∀ p c x' y', p ∈ done → cells !! p = Some c →
                    Rotator.rotatePoint p.1 p.2 a SmallBoard.size = Some (x', y') →
                    r !! (x', y') = Some (rotatedCell a x' y' c))
                 ∧ (∀ k, (∀ p, p ∈ done →
                            Rotator.rotatePoint p.1 p.2 a SmallBoard.size ≠ Some k) →
                      r !! k = emptyCells SmallBoard.size !! k))
              (coords SmallBoard.size) (emptyCells SmallBoard.size))
    as (rotated & Hrun & Himg & Hrest).
  - split; [|done]. intros p c x' y' Hp. by apply not_elem_of_nil in Hp.
  - intros pre [x y] post r Hsplit [Himg Hrest].
    assert (Hxy : (x, y) ∈ coords SmallBoard.size)
      by (rewrite Hsplit; apply elem_of_app; right; left).
    apply elem_of_coords in Hxy as [Hx Hy].
    assert (Hfresh : ∀ q, q ∈ pre → q ≠ (x, y)).
    { pose proof NoDup_coords_small as Hnd. rewrite Hsplit in Hnd.
      apply NoDup_app in Hnd as (_ & Hnd & _).
      intros q Hq ->. apply (Hnd _ Hq). left. }
    destruct (Hin x y Hx Hy) as (c & Hc & Hwf).
    destruct (rotatePoint_proper a x y Ha Hx Hy) as (x' & y' & Hrot & Hx' & Hy' & Hback).
    assert (Hinj : ∀ q, q ∈ pre →
              Rotator.rotatePoint q.1 q.2 a SmallBoard.size ≠ Some (x', y')).
    { intros [qx qy] Hq Hq'. apply (Hfresh _ Hq).
      apply (rotatePoint_coordinates a _ _ _ _ Ha) in Hq'. simpl in Hq'. congruence. }
    exists (<[(x', y') := rotatedCell a x' y' c]> r). split.
    + unfold SmallBoard.rotateStep. rewrite Hc. cbn [mbind option_bind fst snd].
      rewrite Hrot. cbn [mbind option_bind].
      rewrite (Hrest (x', y') Hinj), lookup_emptyCells, decide_True by done.
      cbn [mbind option_bind].
      rewrite (rotateCellInto_new a x y x' y' c Ha Hwf Hrot). done.
    + split.
      * intros q cq qx' qy' Hq Hcq Hrotq.
        apply elem_of_app in Hq as [Hq | Hq].
        -- rewrite lookup_insert_ne; [by eapply Himg|].
           intros Heq. apply (Hinj q Hq). by rewrite Hrotq, Heq.
        -- apply list_elem_of_singleton in Hq. subst q. simpl in Hrotq.
           simplify_eq. by rewrite lookup_insert_eq.
      * intros k Hk. rewrite lookup_insert_ne.
        -- apply Hrest. intros q Hq. apply Hk. apply elem_of_app. by left.
        -- intros <-. apply (Hk (x, y)); [|done].
           apply elem_of_app. right. by apply list_elem_of_singleton.
  - exists rotated. split; [done|]. split; [split|].
    + intros x' y' Hx' Hy'.
      destruct (rotatePoint_proper (360 - a) x' y' (properAngle_opposite a Ha) Hx' Hy')
        as (x & y & Hback & Hx & Hy & Hrot).
      replace (360 - (360 - a)) with a in Hrot by lia.
      destruct (Hin x y Hx Hy) as (c & Hc & Hwf).
      exists (rotatedCell a x' y' c). split.
      * apply (Himg (x, y)); [by apply elem_of_coords | done | done].
      * by eapply wfCell_rotatedCell.
    + intros x' y' Hxy. rewrite Hrest.
      * by rewrite lookup_emptyCells, decide_False.
      * intros [x y] Hp Hrot. apply elem_of_coords in Hp as [Hx Hy].
        destruct (rotatePoint_proper a x y Ha Hx Hy) as (x2 & y2 & Hrot2 & Hx2 & Hy2 & _).
        simpl in Hrot. rewrite Hrot2 in Hrot. simplify_eq. by apply Hxy.
    + intros x y c x' y' Hc Hrot.
      apply (Himg (x, y)); [|done|done].
      apply elem_of_coords.
      destruct (decide (0 ≤ x < SmallBoard.size ∧ 0 ≤ y < SmallBoard.size)) as [|Hno];
        [done|].
      by rewrite (Hout x y Hno) in Hc.
Qed.

(** C9. For every face of a module that materializes, rotating the
    materialized 8×8 grid by 90, 180 or 270 degrees and then by 360 minus
    that angle gives back the original grid exactly (every cell with its
    coordinates, wall flags, refractor with its diagonal and color, and
    goal with its attributes); and [rotateCells] with angle 0 returns the
    materialized grid unchanged. *)
Theorem rotation_round_trip (sb : SmallBoard.t) (faceId : Z) (cells : Grid) :
  SmallBoard.createCells sb faceId = Some cells →
  SmallBoard.rotateCells sb faceId 0 = Some cells
  ∧ ∀ a, a = 90 ∨ a = 180 ∨ a = 270 →
      ∃ rotated,
        SmallBoard.rotateCells sb faceId a = Some rotated
        ∧ SmallBoard.rotateGrid rotated (360 - a) = Some cells.
Proof.
  intros Hcreate. split.
  - unfold SmallBoard.rotateCells. by rewrite decide_True.
  - intros a Ha.
    pose proof (createCells_wf sb faceId cells Hcreate) as Hwf.
    destruct (rotateGrid_spec a cells Ha Hwf) as (rotated & Hrot & Hwfr & Himg).
    destruct (rotateGrid_spec (360 - a) rotated (properAngle_opposite a Ha) Hwfr)
      as (back & Hback & Hwfb & Himg').
    exists rotated. split.
    + unfold SmallBoard.rotateCells. rewrite decide_False by (unfold properAngle in Ha; lia).
      rewrite Hcreate. done.
    + rewrite Hback. f_equal. apply map_eq. intros [x y].
      destruct (decide (0 ≤ x < SmallBoard.size ∧ 0 ≤ y < SmallBoard.size))
        as [[Hx Hy]|Hno].
      * destruct Hwf as [Hin _]. destruct (Hin x y Hx Hy) as (c & Hc & Hwfc).
        destruct (rotatePoint_proper a x y Ha Hx Hy)
          as (x' & y' & Hxy' & Hx' & Hy' & Hxy).
        rewrite Hc.
        rewrite (Himg' x' y' _ x y (Himg x y c x' y' Hc Hxy') Hxy).
        f_equal. by apply rotatedCell_round_trip.
      * destruct Hwf as [_ Hout], Hwfb as [_ Houtb].
        by rewrite (Hout x y Hno), (Houtb x y Hno).
Qed.

Lemma cellsOf_created (sb : SmallBoard.t) (faceId : Z) :
  bool_decide (is_Some (SmallBoard.createCells sb faceId)) = true →
  SmallBoard.createCells sb faceId = Some (cellsOf sb faceId).
Proof.
  intros Hsome. apply bool_decide_eq_true in Hsome as [cells Hcells].
  unfold cellsOf. by rewrite Hcells.
Qed.

Lemma rotation_round_trip_witness :
  SmallBoard.rotateCells sampleModule 0 0 = Some (cellsOf sampleModule 0)
  ∧ ∃ rotated,
      SmallBoard.rotateCells sampleModule 0 90 = Some rotated
      ∧ SmallBoard.rotateGrid rotated 270 = Some (cellsOf sampleModule 0).
Proof.
  assert (Hcreate : SmallBoard.createCells sampleModule 0 = Some (cellsOf sampleModule 0))
    by (apply cellsOf_created; vm_compute; reflexivity).
  destruct (rotation_round_trip sampleModule 0 (cellsOf sampleModule 0) Hcreate)
    as [Hzero Hround].
  split; [exact Hzero|].
  exact (Hround 90 (or_introl eq_refl)).
Defined.

(** ** Straight slides *)

Section MoveInDirection.
Context (b : Board.t) (startX startY : Z) (direction : Direction)
  (allRobots : list PathFinder.RobotState).

(** What a run of the loop returns: a position [n] cells further along
    the direction; [moved] is set as soon as [n] is positive, and the
    position is then on the board. *)
Lemma moveLoop_sound (fuel : nat) (x y : Z) (m : bool) (r : PathFinder.MoveResult) :
  PathFinder.moveLoop fuel b startX startY direction allRobots x y m = Some r →
  ∃ n : Z,
    0 ≤ n
    ∧ PathFinder.mv_x r = x + n * PathFinder.dx direction
    ∧ PathFinder.mv_y r = y + n * PathFinder.dy direction
    ∧ (n = 0 → PathFinder.mv_moved r = m)
    ∧ (0 < n → PathFinder.mv_moved r = true
               ∧ insideBoard b (PathFinder.mv_x r) (PathFinder.mv_y r)).
Proof.
  revert x y m r. induction fuel as [|fuel IH]; intros x y m r Hrun; [done|].
  cbn [PathFinder.moveLoop] in Hrun.
  destruct ((x + PathFinder.dx direction <? 0)
            || (Board.size b <=? x + PathFinder.dx direction)
            || (y + PathFinder.dy direction <? 0)
            || (Board.size b <=? y + PathFinder.dy direction)) eqn:Hbounds.
  { simplify_eq. exists 0. simpl. repeat split; lia. }
  destruct (Board.isInCentralArea _ _).
  { simplify_eq. exists 0. simpl. repeat split; lia. }
  destruct (PathFinder.hasWallInDirection _ _).
  { simplify_eq. exists 0. simpl. repeat split; lia. }
  destruct (PathFinder.hasOtherRobot _ _ _ _ _).
  { simplify_eq. exists 0. simpl. repeat split; lia. }
  repeat (apply orb_false_iff in Hbounds as [Hbounds ?]).
  destruct (PathFinder.cellHasPrism _).
  { simplify_eq. exists 1. simpl. unfold insideBoard. repeat split; lia. }
  apply IH in Hrun as (n & Hn & Hx & Hy & Hzero & Hpos).
  exists (n + 1). split; [lia|]. split; [lia|]. split; [lia|]. split; [lia|].
  intros _. destruct (decide (n = 0)) as [->|Hne].
  - split; [by apply Hzero|]. unfold insideBoard. lia.
  - apply Hpos. lia.
Qed.

Lemma moveLoop_total (fuel : nat) (x y : Z) (m : bool) :
  (0 < fuel)%nat →
  (insideBoard b x y → cellsAhead b direction x y < Z.of_nat fuel) →
  is_Some (PathFinder.moveLoop fuel b startX startY direction allRobots x y m).
Proof.
  revert x y m. induction fuel as [|fuel IH]; intros x y m Hfuel Hahead; [lia|].
  cbn [PathFinder.moveLoop].
  destruct ((x + PathFinder.dx direction <? 0)
            || (Board.size b <=? x + PathFinder.dx direction)
            || (y + PathFinder.dy direction <? 0)
            || (Board.size b <=? y + PathFinder.dy direction)) eqn:Hbounds;
    [by eexists|].
  destruct (Board.isInCentralArea _ _); [by eexists|].
  destruct (PathFinder.hasWallInDirection _ _) eqn:Hwall; [by eexists|].
  destruct (PathFinder.hasOtherRobot _ _ _ _ _); [by eexists|].
  destruct (PathFinder.cellHasPrism _); [by eexists|].
  repeat (apply orb_false_iff in Hbounds as [Hbounds ?]).
  assert (Hinside : insideBoard b x y).
  { unfold PathFinder.hasWallInDirection in Hwall.
    destruct (Board.getCell b x y) as [c|] eqn:Hc; [|done].
    apply getCell_Some in Hc. unfold insideBoard. lia. }
  specialize (Hahead Hinside). unfold insideBoard in Hinside.
  apply IH.
  - unfold cellsAhead in Hahead. destruct direction; simpl in *; lia.
  - intros _. unfold cellsAhead in *. destruct direction; simpl in *; lia.
Qed.

Lemma moveInDirection_total :
  is_Some (PathFinder.moveInDirection b startX startY direction allRobots).
Proof.
  unfold PathFinder.moveInDirection, PathFinder.moveFuel.
  apply moveLoop_total; [lia|].
  unfold insideBoard, cellsAhead. intros [Hx Hy]. destruct direction; lia.
Qed.

End MoveInDirection.

(** ** Slides with refraction *)

Lemma simulateLoop_spec (b : Board.t) (robot : PathFinder.RobotState)
  (allRobots : list PathFinder.RobotState) (remaining : nat) (x y : Z)
  (currentDir : Direction) (segments : list PathFinder.Segment)
  (visited : list (Z * Z * Direction)) :
  ∃ fx fy new,
    PathFinder.simulateLoop remaining b robot allRobots x y currentDir segments visited
    = Some (fx, fy, segments ++ new)
    ∧ (length new ≤ remaining)%nat
    ∧ Forall (advancingSegment b) new.
Proof.
  revert x y currentDir segments visited.
  induction remaining as [|remaining IH]; intros x y currentDir segments visited.
  { exists x, y, []. rewrite app_nil_r. simpl. by repeat split. }
  cbn [PathFinder.simulateLoop].
  destruct (moveInDirection_total b x y currentDir allRobots) as [mr Hmr].
  rewrite Hmr. cbn [mbind option_bind].
  destruct (PathFinder.mv_moved mr) eqn:Hmoved; cbn [negb].
  2:{ exists x, y, []. rewrite app_nil_r. simpl. split; [done|]. split; [lia|done]. }
  assert (Hseg : advancingSegment b
            (PathFinder.mkSegment (x, y, currentDir)
               (PathFinder.mv_x mr, PathFinder.mv_y mr) currentDir)).
  { apply moveLoop_sound in Hmr as (n & Hn & Hx & Hy & Hzero & Hpos).
    destruct (decide (n = 0)) as [->|Hne]; [rewrite Hzero in Hmoved; done|].
    exists n. simpl. destruct Hpos as [_ Hin]; [lia|].
    split; [lia|]. split; [by rewrite Hx, Hy|]. done. }
  set (seg := PathFinder.mkSegment _ _ _) in *.
  assert (Hstop : ∃ fx fy new,
            Some (PathFinder.mv_x mr, PathFinder.mv_y mr, segments ++ [seg])
            = Some (fx, fy, segments ++ new)
            ∧ (length new ≤ S remaining)%nat ∧ Forall (advancingSegment b) new).
  { exists (PathFinder.mv_x mr), (PathFinder.mv_y mr), [seg].
    split; [done|]. split; [simpl; lia|]. by constructor. }
  destruct (Board.getCell b _ _) as [cell|]; [|done].
  destruct (Cell.prism cell) as [prism|]; [|done].
  destruct (decide (_ = currentDir)); [done|].
  destruct (decide (_ ∈ visited)); [done|].
  destruct (IH (PathFinder.mv_x mr) (PathFinder.mv_y mr)
              (Prism.refract prism currentDir (PathFinder.color robot))
              (segments ++ [seg])
              ((PathFinder.mv_x mr, PathFinder.mv_y mr,
                Prism.refract prism currentDir (PathFinder.color robot)) :: visited))
    as (fx & fy & new & Hrun & Hlen & Hall).
  exists fx, fy, (seg :: new). split.
  - rewrite Hrun. by rewrite <- app_assoc.
  - split; [simpl; lia|]. by constructor.
Qed.

Lemma simulateMove_returns (b : Board.t) (robot : PathFinder.RobotState)
  (direction : Direction) (allRobots : list PathFinder.RobotState) :
  ∃ r,
    PathFinder.simulateMove b robot direction allRobots = Some r
    ∧ (length (PathFinder.segments r) ≤ 100)%nat
    ∧ Forall (advancingSegment b) (PathFinder.segments r).
Proof.
  unfold PathFinder.simulateMove.
  destruct (simulateLoop_spec b robot allRobots PathFinder.maxSteps
              (PathFinder.x robot) (PathFinder.y robot) direction [] [])
    as (fx & fy & new & Hrun & Hlen & Hall).
  rewrite Hrun. cbn [mbind option_bind app].
  eexists. split; [reflexivity|]. simpl. split; [exact Hlen | exact Hall].
Qed.

(** C10. For every board, token, direction and list of token positions,
    [simulateMove] returns a result (the loops never run out of steps);
    the slide has at most 100 straight segments, hence at most 100
    refractions, whatever the cycle check does; and every segment ends
    at least one cell further along its direction than it starts, on a
    position of the board. *)
Theorem simulateMove_terminates (b : Board.t) (robot : PathFinder.RobotState)
  (direction : Direction) (allRobots : list PathFinder.RobotState) :
  ∃ r,
    PathFinder.simulateMove b robot direction allRobots = Some r
    ∧ (length (PathFinder.segments r) ≤ 100)%nat
    ∧ Forall (advancingSegment b) (PathFinder.segments r).
Proof. apply simulateMove_returns. Qed.

(** ** Behaviour on concrete boards *)

Lemma prismBoard_built :
  Board.init plainConfig
    (modulesWith (SmallBoard.mkFace 0 [] [Prism.mk 3 3 Backslash "yellow"] []) emptyFace)
  = Some prismBoard.
Proof. apply boardOf_built. by vm_compute. Qed.

Lemma loopBoard_built :
  Board.init plainConfig
    (modulesWith
       (SmallBoard.mkFace 0 []
          [Prism.mk 4 2 Backslash "yellow"; Prism.mk 4 4 Slash "yellow";
           Prism.mk 0 4 Backslash "yellow"; Prism.mk 0 2 Slash "yellow"] [])
       emptyFace)
  = Some loopBoard.
Proof. apply boardOf_built. by vm_compute. Qed.

Lemma detourBoard_built :
  Board.init plainConfig
    (modulesWith
       (SmallBoard.mkFace 0 [SmallBoard.mkWallData 6 5 [side_right]] [] [])
       (SmallBoard.mkFace 0 [SmallBoard.mkWallData 7 5 [side_top]] [] []))
  = Some detourBoard.
Proof. apply boardOf_built. by vm_compute. Qed.

(** C1. On the board with a yellow refractor at (3, 3), a yellow token
    that slides right from (0, 3) ends its move on the refractor: the
    result is (3, 3) with the single segment (0, 3) - (3, 3), although
    nothing obstructs the row beyond it (a slide to the right that
    starts on (3, 3) reaches (15, 3)).  The token does not pass through. *)
Theorem same_color_refractor_stops_token :
  let robot := PathFinder.mkRobot "yellow" 0 3 in
  (∃ c p, Board.getCell prismBoard 3 3 = Some c ∧ Cell.prism c = Some p
          ∧ Prism.color p = PathFinder.color robot)
  ∧ PathFinder.simulateMove prismBoard robot dir_right [robot]
    = Some (PathFinder.mkSim true 3 3
              [PathFinder.mkSegment (0, 3, dir_right) (3, 3) dir_right])
  ∧ PathFinder.moveInDirection prismBoard 3 3 dir_right [robot]
    = Some (PathFinder.mkMove true 15 3).
Proof.
  cbv zeta. split; [|split].
  - eexists _, _. split; [by vm_compute|]. split; reflexivity.
  - by vm_compute.
  - by vm_compute.
Qed.

(** C4. On the board with four yellow refractors round the rectangle
    (0, 2) - (4, 2) - (4, 4) - (0, 4), a red token, alone on the board,
    slides right from (2, 2), goes round the rectangle and is stopped at
    (1, 2) in front of the cell (2, 2) that it left: the step from (1, 2)
    to (2, 2) is refused although (2, 2) is on the board and outside the
    dead zone, (1, 2) has no wall on its right side, and no other token
    exists. *)
Theorem token_blocked_by_own_start :
  let robot := PathFinder.mkRobot "red" 2 2 in
  PathFinder.simulateMove loopBoard robot dir_right [robot]
  = Some (PathFinder.mkSim true 1 2
            [PathFinder.mkSegment (2, 2, dir_right) (4, 2) dir_right;
             PathFinder.mkSegment (4, 2, dir_down) (4, 4) dir_down;
             PathFinder.mkSegment (4, 4, dir_left) (0, 4) dir_left;
             PathFinder.mkSegment (0, 4, dir_up) (0, 2) dir_up;
             PathFinder.mkSegment (0, 2, dir_right) (1, 2) dir_right])
  ∧ PathFinder.moveInDirection loopBoard 0 2 dir_right [robot]
    = Some (PathFinder.mkMove true 1 2)
  ∧ Board.isValidPosition loopBoard 2 2 = true
  ∧ PathFinder.hasWallInDirection (Board.getCell loopBoard 1 2) dir_right = false
  ∧ PathFinder.cellHasPrism (Board.getCell loopBoard 1 2) = false.
Proof.
  cbv zeta. repeat split; by vm_compute.
Qed.

(** C3. On the board with the two extra walls, with a single red token
    at (0, 0) and the goal (15, 0), the search returns a solution of 6
    actions, while 3 valid actions put the token on the goal: down to
    (0, 15), up to (0, 0), right to (15, 0). *)
Theorem search_misses_shorter_solution :
  let pf := PathFinder.new detourBoard [PathFinder.mkRobot "red" 0 0] in
  (∃ r, PathFinder.findPath pf "red" (15, 0) 0 0 = Some (PathFinder.Normal r)
        ∧ PathFinder.success r = true ∧ PathFinder.steps r = Some 6)
  ∧ (∃ s1, PathFinder.simulateMove detourBoard (PathFinder.mkRobot "red" 0 0) dir_down
             [PathFinder.mkRobot "red" 0 0]
           = Some (PathFinder.mkSim true 0 15 s1))
  ∧ (∃ s2, PathFinder.simulateMove detourBoard (PathFinder.mkRobot "red" 0 15) dir_up
             [PathFinder.mkRobot "red" 0 15]
           = Some (PathFinder.mkSim true 0 0 s2))
  ∧ (∃ s3, PathFinder.simulateMove detourBoard (PathFinder.mkRobot "red" 0 0) dir_right
             [PathFinder.mkRobot "red" 0 0]
           = Some (PathFinder.mkSim true 15 0 s3)).
Proof.
  cbv zeta. split; [|split; [|split]].
  - eexists. split; [by vm_compute|]. split; reflexivity.
  - eexists. by vm_compute.
  - eexists. by vm_compute.
  - eexists. by vm_compute.
Qed.

(** ** The search loop *)

Section Search.
Context (b : Board.t) (targetColor : string) (targetPos : Z * Z) (startTime now : Z).

Lemma tryMove_found (statesExplored : Z) (current : PathFinder.SearchState)
  (i : nat) (robot : PathFinder.RobotState) (direction : Direction)
  (queue : list PathFinder.SearchState) (visited : gset string)
  (r : PathFinder.SearchResult) :
  PathFinder.tryMove b targetColor targetPos startTime now statesExplored current
    i robot direction queue visited = Some (PathFinder.Found r) →
  searchSuccess startTime now r.
Proof.
  unfold PathFinder.tryMove. intros Htry.
  apply bind_Some in Htry as (moveResult & _ & Htry).
  destruct (negb (PathFinder.moved moveResult)); [done|].
  destruct (List.find _ _) as [movedRobot|]; [|done].
  destruct ((PathFinder.x movedRobot =? targetPos.1)
            && (PathFinder.y movedRobot =? targetPos.2)).
  - destruct (PathFinder.st_steps current + 1 <? 2) eqn:Hsteps; [done|].
    simplify_eq. unfold searchSuccess. simpl.
    split; [done|]. split; [eexists; split; [done|lia]|].
    split; [by eexists|]. split; [done|]. split; [by eexists|]. done.
  - by destruct (decide (_ ∈ visited)).
Qed.

Lemma expandMoves_found (statesExplored : Z) (current : PathFinder.SearchState)
  (moves : list (nat * PathFinder.RobotState * Direction))
  (queue : list PathFinder.SearchState) (visited : gset string)
  (r : PathFinder.SearchResult) :
  PathFinder.expandMoves b targetColor targetPos startTime now statesExplored current
    moves queue visited = Some (PathFinder.Found r) →
  searchSuccess startTime now r.
Proof.
  revert queue visited. induction moves as [|[[i robot] direction] moves IH];
    intros queue visited Hexp; [done|].
  cbn [PathFinder.expandMoves] in Hexp.
  apply bind_Some in Hexp as (st & Htry & Hexp).
  destruct st as [r'| |queue' visited'].
  - simplify_eq. by eapply tryMove_found.
  - done.
  - by eapply IH.
Qed.

End Search.

Lemma bfsLoop_outcome (fuel : nat) (pf : PathFinder.t) (targetColor : string)
  (targetPos : Z * Z) (startTime now : Z) (queue : list PathFinder.SearchState)
  (visited : gset string) (statesExplored : Z) (r : PathFinder.SearchResult) :
  PathFinder.bfsLoop fuel pf targetColor targetPos startTime now queue visited
    statesExplored = Some (PathFinder.Normal r) →
  searchOutcome startTime now r.
Proof.
  revert queue visited statesExplored.
  induction fuel as [|fuel IH]; intros queue visited statesExplored Hrun; [done|].
  cbn [PathFinder.bfsLoop] in Hrun.
  destruct queue as [|current queue].
  { simplify_eq. right. right. by eexists. }
  destruct (PathFinder.maxIterations pf <? statesExplored).
  { simplify_eq. right. left. by eexists. }
  apply bind_Some in Hrun as (st & Hexp & Hrun).
  destruct st as [r'| |queue' visited'].
  - simplify_eq. left. by eapply expandMoves_found.
  - done.
  - by eapply IH.
Qed.

(** C2. When a simulated move displaces a token and leaves the target
    token on the goal cell, the transition is dropped (the queue and the
    visited set stay as they are and the search goes on) if it would be
    the first action, and it ends the search with a success of
    [steps + 1] actions otherwise; hence every success that [bfsSearch]
    returns has at least two actions. *)
Theorem goal_needs_two_actions :
  (∀ b targetColor targetPos startTime now statesExplored current i robot direction
     queue visited moveResult movedRobot,
     PathFinder.simulateMove b robot direction (PathFinder.st_robots current)
     = Some moveResult →
     PathFinder.moved moveResult = true →
     List.find (λ r, bool_decide (PathFinder.color r = targetColor))
       (PathFinder.moveRobot (PathFinder.st_robots current) i
          (PathFinder.finalX moveResult) (PathFinder.finalY moveResult))
     = Some movedRobot →
     (PathFinder.x movedRobot, PathFinder.y movedRobot) = targetPos →
     (PathFinder.st_steps current + 1 < 2 →
        PathFinder.tryMove b targetColor targetPos startTime now statesExplored current
          i robot direction queue visited
        = Some (PathFinder.Continue queue visited))
     ∧ (2 ≤ PathFinder.st_steps current + 1 →
          ∃ r, PathFinder.tryMove b targetColor targetPos startTime now statesExplored
                 current i robot direction queue visited
               = Some (PathFinder.Found r)
               ∧ PathFinder.success r = true
               ∧ PathFinder.steps r = Some (PathFinder.st_steps current + 1)))
  ∧ (∀ pf targetRobot targetPos startTime now r,
       PathFinder.bfsSearch pf targetRobot targetPos startTime now
       = Some (PathFinder.Normal r) →
       PathFinder.success r = true →
       ∃ k, PathFinder.steps r = Some k ∧ 2 ≤ k).
Proof.
  split.
  - intros b targetColor targetPos startTime now statesExplored current i robot
      direction queue visited moveResult movedRobot Hsim Hmoved Hfind Hpos.
    unfold PathFinder.tryMove. rewrite Hsim. cbn [mbind option_bind].
    rewrite Hmoved. cbn [negb]. rewrite Hfind.
    destruct targetPos as [tx ty]. simplify_eq. cbn [fst snd].
    rewrite !Z.eqb_refl. cbn [andb].
    split; intros Hsteps.
    + by replace (PathFinder.st_steps current + 1 <? 2) with true by lia.
    + replace (PathFinder.st_steps current + 1 <? 2) with false by lia.
      eexists. split; [reflexivity|]. done.
  - intros pf targetRobot targetPos startTime now r Hrun Hsuccess.
    apply bfsLoop_outcome in Hrun as [Hok | [[e ->] | [e ->]]]; [|done|done].
    by destruct Hok as (_ & Hsteps & _).
Qed.

Lemma resultOf_returned (c : option PathFinder.Completion) :
  match c with Some (PathFinder.Normal _) => True | _ => False end →
  c = Some (PathFinder.Normal (resultOf c)).
Proof. by destruct c as [[r|]|]. Qed.

Lemma goal_needs_two_actions_witness :
  PathFinder.tryMove plainBoard "red" (15, 0) 0 0 1
    (PathFinder.mkState [PathFinder.mkRobot "red" 0 0] [] 0)
    0 (PathFinder.mkRobot "red" 0 0) dir_right [] ∅
  = Some (PathFinder.Continue [] ∅)
  ∧ ∃ k, PathFinder.steps
           (resultOf (PathFinder.bfsSearch
                        (PathFinder.new detourBoard [PathFinder.mkRobot "red" 0 0])
                        (PathFinder.mkRobot "red" 0 0) (15, 0) 0 0))
         = Some k ∧ 2 ≤ k.
Proof.
  destruct goal_needs_two_actions as [Hstep Hsearch]. split.
  - apply (Hstep plainBoard "red"%string (15, 0) 0 0 1
             (PathFinder.mkState [PathFinder.mkRobot "red" 0 0] [] 0)
             0%nat (PathFinder.mkRobot "red" 0 0) dir_right [] ∅
             (PathFinder.mkSim true 15 0
                [PathFinder.mkSegment (0, 0, dir_right) (15, 0) dir_right])
             (PathFinder.mkRobot "red" 15 0)).
    + by vm_compute.
    + reflexivity.
    + reflexivity.
    + reflexivity.
    + simpl. lia.
  - apply (Hsearch (PathFinder.new detourBoard [PathFinder.mkRobot "red" 0 0])
             (PathFinder.mkRobot "red" 0 0) (15, 0) 0 0).
    + apply resultOf_returned. by vm_compute.
    + by vm_compute.
Defined.

(** ** The search never throws and always returns *)




Section SearchProgress.
Context (b : Board.t) (targetColor : string) (targetPos : Z * Z) (startTime now : Z).



End SearchProgress.



(** ** The outcomes of [findPath] *)





(** * Further properties *)

(** ** Rotation angles of the quadrants *)

Lemma getCorner_Some (pos : Z * Z) (k : Z) :
  Rotator.getCorner pos = Some k →
  (k = 0 ∧ pos = (0, 0)) ∨ (k = 1 ∧ pos = (7, 0))
  ∨ (k = 2 ∧ pos = (7, 7)) ∨ (k = 3 ∧ pos = (0, 7)).
Proof.
  unfold Rotator.getCorner. destruct pos as [x y]. cbn [fst snd].
  change (CONSTANTS.SMALL_BOARD_SIZE - 1) with 7.
  repeat case_decide; intros; simplify_eq; destruct_and?; subst; tauto.
Qed.

(** The angle computed from the corner at which a module was authored
    and the corner that its quadrant requires is one of 0, 90, 180, 270,
    and [rotatePoint] with that angle maps the first corner onto the
    second.  The computation throws exactly when one of the two positions
    is not a corner of the 8×8 square. *)
Theorem calculateRotationAngle_moves_gap (originalGap targetGap : Z * Z) :
  (∀ angle,
     Rotator.calculateRotationAngle originalGap targetGap = Some angle →
     angle ∈ CONSTANTS.ROTATIONS
     ∧ Rotator.rotatePoint originalGap.1 originalGap.2 angle CONSTANTS.SMALL_BOARD_SIZE
       = Some targetGap)
  ∧ (Rotator.calculateRotationAngle originalGap targetGap = None
     ↔ Rotator.getCorner originalGap = None ∨ Rotator.getCorner targetGap = None).
Proof.
  split.
  - intros angle Hangle. unfold Rotator.calculateRotationAngle in Hangle.
    apply bind_Some in Hangle as (o & Ho & Hangle).
    apply bind_Some in Hangle as (t & Ht & Hangle). simplify_eq.
    apply getCorner_Some in Ho as [[-> ->]|[[-> ->]|[[-> ->]| [-> ->]]]];
      apply getCorner_Some in Ht as [[-> ->]|[[-> ->]|[[-> ->]| [-> ->]]]];
      (split; [by vm_compute; set_solver | reflexivity]).
  - unfold Rotator.calculateRotationAngle.
    destruct (Rotator.getCorner originalGap), (Rotator.getCorner targetGap); simpl.
    + split; [done | intros [?|?]; done].
    + split; [intros _; by right | done].
    + split; [intros _; by left | done].
    + split; [intros _; by left | done].
Qed.

Lemma calculateRotationAngle_moves_gap_witness :
  270 ∈ CONSTANTS.ROTATIONS
  ∧ Rotator.rotatePoint 0 7 270 CONSTANTS.SMALL_BOARD_SIZE = Some (7, 7).
Proof.
  destruct (calculateRotationAngle_moves_gap (0, 7) (7, 7)) as [Hangle _].
  apply (Hangle 270). reflexivity.
Defined.

(** ** Refraction geometry *)

(** A refractor deflects a token of another color by a quarter turn:
    the new direction is perpendicular to the incoming one, and entering
    the same refractor again along the new direction gives back the
    incoming direction. *)
Theorem refraction_is_quarter_turn (p : Prism.t) (d : Direction) (robotColor : string) :
  robotColor ≠ Prism.color p →
  let d' := Prism.refract p d robotColor in
  PathFinder.dx d * PathFinder.dx d' + PathFinder.dy d * PathFinder.dy d' = 0
  ∧ d' ≠ d
  ∧ Prism.refract p d' robotColor = d.
Proof.
  intros Hne. unfold Prism.refract. rewrite !decide_False by done.
  unfold Prism.calculateRefraction. destruct (Prism.direction p), d; simpl; done.
Qed.

Lemma refraction_is_quarter_turn_witness :
  let d' := Prism.refract (Prism.mk 3 3 Slash "blue") dir_up "red" in
  PathFinder.dx dir_up * PathFinder.dx d' + PathFinder.dy dir_up * PathFinder.dy d' = 0
  ∧ d' ≠ dir_up
  ∧ Prism.refract (Prism.mk 3 3 Slash "blue") d' "red" = dir_up.
Proof.
  apply (refraction_is_quarter_turn (Prism.mk 3 3 Slash "blue") dir_up "red").
  discriminate.
Defined.

(** ** The outer boundary *)

Lemma createEmptyCells_boundary :
  forallb (λ p, forallb (λ s, implb (Board.isRealOuterBoundary s p.1 p.2)
                                (wallAt Board.createEmptyCells p.1 p.2 s))
                  Rotator.sides)
    (coords Board.boardSize) = true.
Proof. by vm_compute. Qed.

(** Wall flags that are set stay set when the modules are copied in. *)
Lemma copyCell_keeps_walls (rotatedCells : Grid) (offset p : Z * Z)
  (cells cells' : Grid) (x y : Z) (s : Side) :
  Board.copyCell rotatedCells offset p cells = Some cells' →
  fullGrid Board.boardSize cells ∧ wallAt cells x y s = true →
  fullGrid Board.boardSize cells' ∧ wallAt cells' x y s = true.
Proof.
  unfold Board.copyCell. intros Hcopy Hinv.
  apply bind_Some in Hcopy as (sourceCell & _ & Hcopy).
  apply bind_Some in Hcopy as (targetCell & Htarget & Hcopy).
  apply bind_Some in Hcopy as (cells1 & Hprism & Htargetcopy).
  assert (Hwalls : ∀ side g,
            fullGrid Board.boardSize g ∧ wallAt g x y s = true →
            fullGrid Board.boardSize
              (Board.copyWall sourceCell (offset.1 + p.1) (offset.2 + p.2) side g)
            ∧ wallAt (Board.copyWall sourceCell (offset.1 + p.1) (offset.2 + p.2) side g)
                x y s = true).
  { intros side g [Hfull Hw]. unfold Board.copyWall.
    destruct (Cell.hasWall sourceCell side); [|done].
    destruct (Board.isRealOuterBoundary _ _ _); [done|].
    assert (Hfirst : fullGrid Board.boardSize
                       (updateCell (Cell.setWall side true) (offset.1 + p.1) (offset.2 + p.2) g)
                     ∧ wallAt (updateCell (Cell.setWall side true) (offset.1 + p.1)
                                 (offset.2 + p.2) g) x y s = true).
    { split; [by apply fullGrid_updateCell|].
      unfold wallAt in *. rewrite lookup_updateCell. case_decide; [|done].
      simplify_eq. destruct (g !! _) as [c|]; [|done]. simpl.
      rewrite hasWall_setWall, Hw. apply orb_true_r. }
    destruct Hfirst as [Hfull1 Hw1].
    destruct (inRange _ _ && inRange _ _); [|done].
    split; [by apply fullGrid_updateCell|].
    unfold wallAt in *. rewrite lookup_updateCell. case_decide; [|done].
    simplify_eq. destruct (updateCell _ _ _ g !! _) as [c|]; [|done]. simpl.
    rewrite hasWall_setWall, Hw1. apply orb_true_r. }
  assert (Hafter : fullGrid Board.boardSize cells1 ∧ wallAt cells1 x y s = true).
  { unfold Board.copyPrism in Hprism.
    cbn [fold_left Rotator.sides] in Hprism.
    match type of Hprism with
    | context [Board.copyWall _ _ _ side_left ?g] =>
        assert (Hg : fullGrid Board.boardSize
                       (Board.copyWall sourceCell (offset.1 + p.1) (offset.2 + p.2)
                          side_left g)
                     ∧ wallAt (Board.copyWall sourceCell (offset.1 + p.1) (offset.2 + p.2)
                                 side_left g) x y s = true)
          by (repeat apply Hwalls; done)
    end.
    destruct Hg as [Hfull Hw].
    destruct (Cell.prism sourceCell) as [q|]; [|by simplify_eq].
    apply bind_Some in Hprism as (q' & _ & Hprism). simplify_eq.
    split; [by apply fullGrid_updateCell|]. by rewrite wallAt_same_walls. }
  destruct Hafter as [Hfull Hw]. unfold Board.copyTarget in Htargetcopy.
  destruct (Cell.target sourceCell) as [q|]; [|by simplify_eq].
  apply bind_Some in Htargetcopy as (q' & _ & Htargetcopy). simplify_eq.
  split; [by apply fullGrid_updateCell|]. by rewrite wallAt_same_walls.
Qed.

Lemma placeSmallBoards_keeps_walls (config : list Board.BoardConfig)
  (smallBoards : list SmallBoard.t) (cells cells' : Grid) (x y : Z) (s : Side) :
  Board.placeSmallBoards config smallBoards cells = Some cells' →
  fullGrid Board.boardSize cells → wallAt cells x y s = true →
  wallAt cells' x y s = true.
Proof.
  intros Hplace Hfull Hw.
  enough (fullGrid Board.boardSize cells' ∧ wallAt cells' x y s = true) as [_ ?]; [done|].
  unfold Board.placeSmallBoards in Hplace.
  eapply (forEachM_preserves _
            (λ g, fullGrid Board.boardSize g ∧ wallAt g x y s = true));
    [|exact Hplace|done].
  intros position t t' _ Hquad Ht. unfold Board.placeSmallBoard in Hquad.
  apply bind_Some in Hquad as (boardConfig & _ & Hquad).
  apply bind_Some in Hquad as (smallBoard & _ & Hquad).
  apply bind_Some in Hquad as (angle & _ & Hquad).
  apply bind_Some in Hquad as (rotatedCells & _ & Hquad).
  eapply (forEachM_preserves _
            (λ g, fullGrid Board.boardSize g ∧ wallAt g x y s = true));
    [|exact Hquad|done].
  intros p u u' _. apply copyCell_keeps_walls.
Qed.

(** On every board that the constructor builds, every cell on an edge of
    the 16×16 grid has the wall flag set on the side that faces outside. *)
Theorem outer_boundary_walled (config : list Board.BoardConfig)
  (smallBoards : list SmallBoard.t) (b : Board.t) :
  Board.init config smallBoards = Some b →
  ∀ x y s c,
    Board.getCell b x y = Some c →
    Board.isRealOuterBoundary s x y = true →
    Cell.hasWall c s = true.
Proof.
  intros Hinit x y s c Hc Hedge.
  apply init_inv in Hinit as (cells & Hplace & ->).
  apply getCell_Some in Hc as (Hx & Hy & Hc). cbn [Board.size Board.cells] in *.
  pose proof (wallAt_setCentralBlockedArea cells x y s) as Hw.
  unfold wallAt in Hw at 1. rewrite Hc in Hw. rewrite Hw.
  2:{ eapply placeSmallBoards_invariant; [done|].
      split; [apply createEmptyCells_full | apply createEmptyCells_symmetric]. }
  rewrite (placeSmallBoards_keeps_walls _ _ _ _ x y s Hplace);
    [apply orb_true_r | apply createEmptyCells_full |].
  pose proof createEmptyCells_boundary as Hall.
  rewrite forallb_forall in Hall.
  specialize (Hall (x, y)). rewrite forallb_forall in Hall.
  assert (Hin : In (x, y) (coords Board.boardSize))
    by (apply list_elem_of_In, elem_of_coords; done).
  specialize (Hall Hin s). cbn [fst snd] in Hall.
  rewrite Hedge in Hall. apply Hall. destruct s; simpl; tauto.
Qed.

Lemma outer_boundary_walled_witness :
  ∃ c, Board.getCell plainBoard 15 4 = Some c ∧ Cell.hasWall c side_right = true.
Proof.
  destruct (Board.getCell plainBoard 15 4) as [c|] eqn:Hc;
    [|vm_compute in Hc; discriminate Hc].
  exists c. split; [done|].
  apply (outer_boundary_walled plainConfig openModules plainBoard plainBoard_built
           15 4 side_right c Hc).
  reflexivity.
Defined.

(** ** Where a straight slide stops *)

Section SlideShape.
Context (b : Board.t) (startX startY : Z) (direction : Direction)
  (allRobots : list PathFinder.RobotState).

Lemma moveLoop_shape (fuel : nat) (x y : Z) (m : bool) (r : PathFinder.MoveResult) :
  PathFinder.moveLoop fuel b startX startY direction allRobots x y m = Some r →
  ∃ n : Z,
    0 ≤ n
    ∧ PathFinder.mv_x r = x + n * PathFinder.dx direction
    ∧ PathFinder.mv_y r = y + n * PathFinder.dy direction
    ∧ PathFinder.mv_moved r = (if decide (n = 0) then m else true)
    ∧ (∀ k, 0 ≤ k < n →
         stepBlocked b allRobots startX startY direction
           (x + k * PathFinder.dx direction) (y + k * PathFinder.dy direction) = false)
    ∧ (∀ k, 0 < k < n →
         PathFinder.cellHasPrism
           (Board.getCell b (x + k * PathFinder.dx direction)
              (y + k * PathFinder.dy direction)) = false)
    ∧ (stepBlocked b allRobots startX startY direction
         (PathFinder.mv_x r) (PathFinder.mv_y r) = true
       ∨ (0 < n ∧ PathFinder.cellHasPrism
                    (Board.getCell b (PathFinder.mv_x r) (PathFinder.mv_y r)) = true)).
Proof.
  revert x y m r. induction fuel as [|fuel IH]; intros x y m r Hrun; [done|].
  cbn [PathFinder.moveLoop] in Hrun.
  destruct (stepBlocked b allRobots startX startY direction x y) eqn:Hblocked.
  - assert (r = PathFinder.mkMove m x y) as ->.
    { unfold stepBlocked in Hblocked. cbv zeta in Hblocked.
      destruct ((x + PathFinder.dx direction <? 0)
                || (Board.size b <=? x + PathFinder.dx direction)
                || (y + PathFinder.dy direction <? 0)
                || (Board.size b <=? y + PathFinder.dy direction)); [by simplify_eq|].
      destruct (Board.isInCentralArea _ _); [by simplify_eq|].
      destruct (PathFinder.hasWallInDirection _ _); [by simplify_eq|].
      destruct (PathFinder.hasOtherRobot _ _ _ _ _); [by simplify_eq|].
      done. }
    exists 0. cbn [PathFinder.mv_x PathFinder.mv_y PathFinder.mv_moved].
    split; [lia|]. split; [lia|]. split; [lia|]. split; [done|].
    split; [intros; lia|]. split; [intros; lia|]. by left.
  - pose proof Hblocked as Hfree.
    unfold stepBlocked in Hblocked. cbv zeta in Hblocked.
    repeat (apply orb_false_iff in Hblocked as [Hblocked ?]).
    replace ((x + PathFinder.dx direction <? 0)
             || (Board.size b <=? x + PathFinder.dx direction)
             || (y + PathFinder.dy direction <? 0)
             || (Board.size b <=? y + PathFinder.dy direction)) with false in Hrun
      by (symmetry; repeat (apply orb_false_iff; split); done).
    repeat match goal with
           | H : ?t = false |- _ => rewrite H in Hrun
           end.
    destruct (PathFinder.cellHasPrism _) eqn:Hprism.
    + simplify_eq. exists 1.
      cbn [PathFinder.mv_x PathFinder.mv_y PathFinder.mv_moved].
      split; [lia|]. split; [lia|]. split; [lia|]. split; [done|].
      split.
      { intros k Hk. replace k with 0 by lia.
        by rewrite !Z.mul_0_l, !Z.add_0_r. }
      split; [intros; lia|]. right. split; [lia|]. done.
    + apply IH in Hrun as (n & Hn & Hx & Hy & Hm & Hsteps & Hprisms & Hend).
      exists (n + 1). split; [lia|]. split; [lia|]. split; [lia|].
      split.
      { rewrite decide_False by lia. rewrite Hm. by case_decide. }
      split.
      { intros k Hk. destruct (decide (k = 0)) as [->|Hk0].
        - by rewrite !Z.mul_0_l, !Z.add_0_r.
        - rewrite <- (Hsteps (k - 1)) by lia. f_equal; lia. }
      split.
      { intros k Hk. destruct (decide (k = 1)) as [->|Hk1].
        - by rewrite !Z.mul_1_l.
        - rewrite <- (Hprisms (k - 1)) by lia. do 2 f_equal; lia. }
      destruct Hend as [Hend | [Hpos Hend]]; [by left|].
      right. split; [lia | done].
Qed.

End SlideShape.

Lemma moveInDirection_shape (b : Board.t) (startX startY : Z)
  (direction : Direction) (allRobots : list PathFinder.RobotState)
  (r : PathFinder.MoveResult) :
  PathFinder.moveInDirection b startX startY direction allRobots = Some r →
  ∃ n : Z,
    0 ≤ n
    ∧ PathFinder.mv_x r = startX + n * PathFinder.dx direction
    ∧ PathFinder.mv_y r = startY + n * PathFinder.dy direction
    ∧ PathFinder.mv_moved r = bool_decide (0 < n)
    ∧ (∀ k, 0 ≤ k < n →
         stepBlocked b allRobots startX startY direction
           (startX + k * PathFinder.dx direction)
           (startY + k * PathFinder.dy direction) = false)
    ∧ (∀ k, 0 < k < n →
         PathFinder.cellHasPrism
           (Board.getCell b (startX + k * PathFinder.dx direction)
              (startY + k * PathFinder.dy direction)) = false)
    ∧ (stepBlocked b allRobots startX startY direction
         (PathFinder.mv_x r) (PathFinder.mv_y r) = true
       ∨ (0 < n ∧ PathFinder.cellHasPrism
                    (Board.getCell b (PathFinder.mv_x r) (PathFinder.mv_y r)) = true)).
Proof.
  intros Hrun. unfold PathFinder.moveInDirection in Hrun.
  apply moveLoop_shape in Hrun as (n & Hn & Hx & Hy & Hm & Hrest).
  exists n. split; [done|]. split; [done|]. split; [done|]. split; [|done].
  rewrite Hm. case_decide.
  - subst. by rewrite bool_decide_eq_false_2 by lia.
  - by rewrite bool_decide_eq_true_2 by lia.
Qed.

(** A straight slide ends [n] cells along its direction, where [n] is
    the number of steps that the loop allows: no step before the [n]-th is
    refused, none of the cells passed holds a refractor, and the slide
    ends because the next step is refused or because the cell reached
    holds a refractor.  The slide counts as a move exactly when [n] is
    positive. *)
Theorem moveInDirection_stops_at_first_obstruction (b : Board.t) (startX startY : Z)
  (direction : Direction) (allRobots : list PathFinder.RobotState)
  (r : PathFinder.MoveResult) :
  PathFinder.moveInDirection b startX startY direction allRobots = Some r →
  ∃ n : Z,
    0 ≤ n
    ∧ PathFinder.mv_x r = startX + n * PathFinder.dx direction
    ∧ PathFinder.mv_y r = startY + n * PathFinder.dy direction
    ∧ PathFinder.mv_moved r = bool_decide (0 < n)
    ∧ (∀ k, 0 ≤ k < n →
         stepBlocked b allRobots startX startY direction
           (startX + k * PathFinder.dx direction)
           (startY + k * PathFinder.dy direction) = false)
    ∧ (∀ k, 0 < k < n →
         PathFinder.cellHasPrism
           (Board.getCell b (startX + k * PathFinder.dx direction)
              (startY + k * PathFinder.dy direction)) = false)
    ∧ (stepBlocked b allRobots startX startY direction
         (PathFinder.mv_x r) (PathFinder.mv_y r) = true
       ∨ (0 < n ∧ PathFinder.cellHasPrism
                    (Board.getCell b (PathFinder.mv_x r) (PathFinder.mv_y r)) = true)).
Proof. apply moveInDirection_shape. Qed.

Lemma moveInDirection_stops_at_first_obstruction_witness :
  ∃ n : Z,
    0 ≤ n ∧ 4 = 0 + n * PathFinder.dx dir_right ∧ 0 = 0 + n * PathFinder.dy dir_right
    ∧ true = bool_decide (0 < n).
Proof.
  destruct (moveInDirection_stops_at_first_obstruction plainBoard 0 0 dir_right
              [PathFinder.mkRobot "red" 0 0; PathFinder.mkRobot "blue" 5 0]
              (PathFinder.mkMove true 4 0))
    as (n & Hn & Hx & Hy & Hm & _).
  - by vm_compute.
  - exists n. done.
Defined.

(** ** Where a move ends *)

Lemma hasOtherRobot_false (allRobots : list PathFinder.RobotState)
  (startX startY nextX nextY : Z) :
  PathFinder.hasOtherRobot allRobots startX startY nextX nextY = false →
  (nextX, nextY) ≠ (startX, startY) →
  ∀ q, q ∈ allRobots → positionOf q ≠ (nextX, nextY).
Proof.
  intros Hfree Hne q Hq Hpos. unfold positionOf in Hpos. simplify_eq.
  unfold PathFinder.hasOtherRobot in Hfree.
  assert (Hex : existsb
                  (λ r, (PathFinder.x r =? PathFinder.x q) && (PathFinder.y r =? PathFinder.y q)
                        && negb ((PathFinder.x r =? startX) && (PathFinder.y r =? startY)))
                  allRobots = true).
  { apply existsb_exists. exists q. split; [by apply list_elem_of_In|].
    rewrite !Z.eqb_refl. cbn [andb].
    apply negb_true_iff, andb_false_iff.
    destruct (decide (PathFinder.x q = startX)) as [Hx|Hx]; [|left; lia].
    destruct (decide (PathFinder.y q = startY)) as [Hy|Hy]; [|right; lia].
    exfalso. apply Hne. by rewrite Hx, Hy. }
  by rewrite Hex in Hfree.
Qed.

(** A straight slide that moves ends on a position of the board outside
    the dead zone on which none of the listed tokens stands. *)
Lemma moveInDirection_lands_free (b : Board.t) (startX startY : Z)
  (direction : Direction) (allRobots : list PathFinder.RobotState)
  (r : PathFinder.MoveResult) :
  PathFinder.moveInDirection b startX startY direction allRobots = Some r →
  PathFinder.mv_moved r = true →
  Board.isValidPosition b (PathFinder.mv_x r) (PathFinder.mv_y r) = true
  ∧ ∀ q, q ∈ allRobots → positionOf q ≠ (PathFinder.mv_x r, PathFinder.mv_y r).
Proof.
  intros Hrun Hmoved.
  apply moveInDirection_shape in Hrun as (n & Hn & Hx & Hy & Hm & Hsteps & _).
  rewrite Hm in Hmoved. apply bool_decide_eq_true in Hmoved.
  specialize (Hsteps (n - 1) ltac:(lia)).
  unfold stepBlocked in Hsteps. cbv zeta in Hsteps.
  repeat (apply orb_false_iff in Hsteps as [Hsteps ?]).
  replace (startX + (n - 1) * PathFinder.dx direction + PathFinder.dx direction)
    with (PathFinder.mv_x r) in * by lia.
  replace (startY + (n - 1) * PathFinder.dy direction + PathFinder.dy direction)
    with (PathFinder.mv_y r) in * by lia.
  split.
  - unfold Board.isValidPosition.
    replace ((PathFinder.mv_x r <? 0) || (Board.size b <=? PathFinder.mv_x r)
             || (PathFinder.mv_y r <? 0) || (Board.size b <=? PathFinder.mv_y r))
      with false by (symmetry; repeat (apply orb_false_iff; split); done).
    by apply negb_true_iff.
  - eapply hasOtherRobot_false; [done|].
    rewrite Hx, Hy. intros Heq. simplify_eq. destruct direction; simpl in *; lia.
Qed.

Lemma simulateLoop_final (b : Board.t) (robot : PathFinder.RobotState)
  (allRobots : list PathFinder.RobotState) (remaining : nat) (x y : Z)
  (currentDir : Direction) (segments : list PathFinder.Segment)
  (visited : list (Z * Z * Direction)) (fx fy : Z) (segments' : list PathFinder.Segment) :
  PathFinder.simulateLoop remaining b robot allRobots x y currentDir segments visited
  = Some (fx, fy, segments') →
  (fx, fy) = (x, y)
  ∨ (Board.isValidPosition b fx fy = true
     ∧ ∀ q, q ∈ allRobots → positionOf q ≠ (fx, fy)).
Proof.
  revert x y currentDir segments visited.
  induction remaining as [|remaining IH]; intros x y currentDir segments visited Hrun.
  { cbn in Hrun. simplify_eq. by left. }
  cbn [PathFinder.simulateLoop] in Hrun.
  apply bind_Some in Hrun as (mr & Hmr & Hrun).
  destruct (PathFinder.mv_moved mr) eqn:Hmoved; cbn [negb] in Hrun;
    [|simplify_eq; by left].
  pose proof (moveInDirection_lands_free _ _ _ _ _ _ Hmr Hmoved) as Hland.
  destruct (Board.getCell b _ _) as [cell|]; [|simplify_eq; by right].
  destruct (Cell.prism cell) as [prism|]; [|simplify_eq; by right].
  destruct (decide (_ = currentDir)); [simplify_eq; by right|].
  destruct (decide (_ ∈ visited)); [simplify_eq; by right|].
  apply IH in Hrun as [Heq | Hfree]; [|by right].
  simplify_eq. by right.
Qed.

Lemma simulateMove_lands_free (b : Board.t) (robot : PathFinder.RobotState)
  (direction : Direction) (allRobots : list PathFinder.RobotState)
  (r : PathFinder.SimResult) :
  PathFinder.simulateMove b robot direction allRobots = Some r →
  PathFinder.moved r = true →
  Board.isValidPosition b (PathFinder.finalX r) (PathFinder.finalY r) = true
  ∧ ∀ q, q ∈ allRobots → positionOf q ≠ (PathFinder.finalX r, PathFinder.finalY r).
Proof.
  unfold PathFinder.simulateMove. intros Hrun Hmoved.
  apply bind_Some in Hrun as ([[fx fy] segments] & Hloop & Hrun). simplify_eq.
  cbn [PathFinder.moved PathFinder.finalX PathFinder.finalY] in *.
  apply simulateLoop_final in Hloop as [Heq | Hfree]; [|done].
  simplify_eq. rewrite !Z.eqb_refl in Hmoved. done.
Qed.

(** A move that displaces its token ends on a position of the board
    outside the dead zone, on which none of the listed tokens stands: a
    token never leaves the grid, never enters the dead zone and never
    lands on another token. *)
Theorem move_ends_on_free_valid_cell (b : Board.t) (robot : PathFinder.RobotState)
  (direction : Direction) (allRobots : list PathFinder.RobotState)
  (r : PathFinder.SimResult) :
  PathFinder.simulateMove b robot direction allRobots = Some r →
  PathFinder.moved r = true →
  Board.isValidPosition b (PathFinder.finalX r) (PathFinder.finalY r) = true
  ∧ ∀ q, q ∈ allRobots → positionOf q ≠ (PathFinder.finalX r, PathFinder.finalY r).
Proof. apply simulateMove_lands_free. Qed.

Lemma move_ends_on_free_valid_cell_witness :
  Board.isValidPosition plainBoard 4 0 = true
  ∧ ∀ q, q ∈ [PathFinder.mkRobot "red" 0 0; PathFinder.mkRobot "blue" 5 0] →
         positionOf q ≠ (4, 0).
Proof.
  apply (move_ends_on_free_valid_cell plainBoard (PathFinder.mkRobot "red" 0 0) dir_right
           [PathFinder.mkRobot "red" 0 0; PathFinder.mkRobot "blue" 5 0]
           (PathFinder.mkSim true 4 0
              [PathFinder.mkSegment (0, 0, dir_right) (4, 0) dir_right])).
  - by vm_compute.
  - reflexivity.
Defined.

(** Applying a simulated move to the token that made it keeps the
    positions of the tokens pairwise distinct. *)
Theorem move_keeps_positions_distinct (b : Board.t) (robots : list PathFinder.RobotState)
  (i : nat) (robot : PathFinder.RobotState) (direction : Direction)
  (r : PathFinder.SimResult) :
  robots !! i = Some robot →
  NoDup (positionOf <$> robots) →
  PathFinder.simulateMove b robot direction robots = Some r →
  NoDup (positionOf <$> PathFinder.moveRobot robots i (PathFinder.finalX r)
                          (PathFinder.finalY r)).
Proof.
  intros Hi Hnd Hrun.
  assert (Hfinal : (PathFinder.finalX r, PathFinder.finalY r) = positionOf robot
                   ∨ ∀ q, q ∈ robots →
                       positionOf q ≠ (PathFinder.finalX r, PathFinder.finalY r)).
  { destruct (PathFinder.moved r) eqn:Hmoved.
    - right. by eapply simulateMove_lands_free.
    - left. unfold PathFinder.simulateMove in Hrun.
      apply bind_Some in Hrun as ([[fx fy] segments] & _ & Hrun). simplify_eq.
      cbn in *. apply negb_false_iff, andb_true_iff in Hmoved as [Hx Hy].
      unfold positionOf. f_equal; lia. }
  assert (Hlookup : ∀ j p,
            (positionOf <$> PathFinder.moveRobot robots i (PathFinder.finalX r)
                              (PathFinder.finalY r)) !! j = Some p →
            (j = i ∧ p = (PathFinder.finalX r, PathFinder.finalY r))
            ∨ (j ≠ i ∧ (positionOf <$> robots) !! j = Some p)).
  { intros j p Hj. rewrite list_lookup_fmap in Hj. unfold PathFinder.moveRobot in Hj.
    rewrite list_lookup_imap in Hj.
    destruct (robots !! j) as [q|] eqn:Hq; [|done]. simpl in Hj.
    case_decide; simplify_eq.
    - by left.
    - right. split; [done|]. by rewrite list_lookup_fmap, Hq. }
  apply NoDup_alt. intros j1 j2 p H1 H2.
  apply Hlookup in H1 as [[-> ->] | [Hne1 H1]], H2 as [[-> Hp] | [Hne2 H2]].
  - done.
  - exfalso. rewrite list_lookup_fmap in H2.
    destruct (robots !! j2) as [q|] eqn:Hq; [|done]. simpl in H2. simplify_eq.
    destruct Hfinal as [Hsame | Hfree].
    + apply Hne2. eapply (NoDup_lookup _ j2 i); [exact Hnd | |].
      * by rewrite list_lookup_fmap, Hq.
      * rewrite list_lookup_fmap, Hi. simpl. by rewrite <- Hsame, H2.
    + eapply Hfree; [|done]. by eapply list_elem_of_lookup_2.
  - exfalso. subst p. rewrite list_lookup_fmap in H1.
    destruct (robots !! j1) as [q|] eqn:Hq; [|done]. simpl in H1. simplify_eq.
    destruct Hfinal as [Hsame | Hfree].
    + apply Hne1. eapply (NoDup_lookup _ j1 i); [exact Hnd | |].
      * by rewrite list_lookup_fmap, Hq.
      * rewrite list_lookup_fmap, Hi. simpl. by rewrite <- Hsame, H1.
    + eapply Hfree; [|done]. by eapply list_elem_of_lookup_2.
  - by eapply NoDup_lookup.
Qed.

Lemma move_keeps_positions_distinct_witness :
  NoDup (positionOf <$> PathFinder.moveRobot
           [PathFinder.mkRobot "red" 0 0; PathFinder.mkRobot "blue" 5 0] 0 4 0).
Proof.
  apply (move_keeps_positions_distinct plainBoard
           [PathFinder.mkRobot "red" 0 0; PathFinder.mkRobot "blue" 5 0] 0
           (PathFinder.mkRobot "red" 0 0) dir_right
           (PathFinder.mkSim true 4 0
              [PathFinder.mkSegment (0, 0, dir_right) (4, 0) dir_right])).
  - reflexivity.
  - apply (bool_decide_unpack _). by vm_compute.
  - by vm_compute.
Defined.

(** ** The returned path *)

Lemma elem_of_movesOf (current : PathFinder.SearchState) (i : nat)
  (robot : PathFinder.RobotState) (d : Direction) :
  (i, robot, d) ∈ PathFinder.movesOf current →
  PathFinder.st_robots current !! i = Some robot.
Proof.
  unfold PathFinder.movesOf. intros Hin.
  apply list_elem_of_bind in Hin as ([j q] & Hin & Hjq).
  apply list_elem_of_bind in Hin as (d' & Hin & _).
  apply list_elem_of_singleton in Hin. simplify_eq.
  apply elem_of_lookup_imap_1 in Hjq as (k & q' & Heq & Hk). by simplify_eq.
Qed.

Section SearchPath.
Context (b : Board.t) (initial : list PathFinder.RobotState)
  (targetColor : string) (targetPos : Z * Z) (startTime now : Z).

Lemma tryMove_path (statesExplored : Z) (current : PathFinder.SearchState)
  (i : nat) (robot : PathFinder.RobotState) (direction : Direction)
  (queue : list PathFinder.SearchState) (visited : gset string) (st : PathFinder.Step) :
  PathFinder.st_robots current !! i = Some robot →
  stateOk b initial current →
  Forall (stateOk b initial) queue →
  PathFinder.tryMove b targetColor targetPos startTime now statesExplored current
    i robot direction queue visited = Some st →
  match st with
  | PathFinder.Found r =>
      pathReaches b initial targetColor targetPos r
      ∧ PathFinder.statesExplored r = Some statesExplored
  | PathFinder.Raise => True
  | PathFinder.Continue queue' _ => Forall (stateOk b initial) queue'
  end.
Proof.
  intros Hi [Hpath Hsteps] Hqueue Htry. unfold PathFinder.tryMove in Htry.
  apply bind_Some in Htry as (mr & Hsim & Htry).
  destruct (PathFinder.moved mr) eqn:Hmoved; cbn [negb] in Htry; [|by simplify_eq].
  set (action := PathFinder.mkAction _ _ _ _ _) in *.
  set (newRobots := PathFinder.moveRobot _ _ _ _) in *.
  assert (Hnew : validPath b initial (PathFinder.st_path current ++ [action]) newRobots).
  { eapply validPath_snoc; [exact Hpath|].
    exists i, robot, mr. by repeat split. }
  assert (Hlen : PathFinder.st_steps current + 1
                 = Z.of_nat (length (PathFinder.st_path current ++ [action]))).
  { rewrite length_app. simpl. lia. }
  destruct (List.find _ newRobots) as [movedRobot|] eqn:Hfind; [|by simplify_eq].
  destruct ((PathFinder.x movedRobot =? targetPos.1)
            && (PathFinder.y movedRobot =? targetPos.2)) eqn:Hat.
  - destruct (PathFinder.st_steps current + 1 <? 2); simplify_eq; [done|].
    split; [|done].
    exists (PathFinder.st_path current ++ [action]), newRobots, movedRobot.
    cbn [PathFinder.path PathFinder.steps].
    split; [done|]. split; [by rewrite Hlen|]. split; [done|]. split; [done|].
    apply andb_true_iff in Hat as [Hx Hy]. destruct targetPos as [tx ty].
    cbn [fst snd] in *. f_equal; lia.
  - destruct (decide (_ ∈ visited)); simplify_eq; [done|].
    apply Forall_app. split; [done|]. constructor; [|done]. by split.
Qed.

Lemma expandMoves_path (statesExplored : Z) (current : PathFinder.SearchState)
  (moves : list (nat * PathFinder.RobotState * Direction))
  (queue : list PathFinder.SearchState) (visited : gset string) (st : PathFinder.Step) :
  (∀ i robot d, (i, robot, d) ∈ moves → PathFinder.st_robots current !! i = Some robot) →
  stateOk b initial current →
  Forall (stateOk b initial) queue →
  PathFinder.expandMoves b targetColor targetPos startTime now statesExplored current
    moves queue visited = Some st →
  match st with
  | PathFinder.Found r =>
      pathReaches b initial targetColor targetPos r
      ∧ PathFinder.statesExplored r = Some statesExplored
  | PathFinder.Raise => True
  | PathFinder.Continue queue' _ => Forall (stateOk b initial) queue'
  end.
Proof.
  intros Hmoves Hcurrent. revert queue visited.
  induction moves as [|[[i robot] d] moves IH]; intros queue visited Hqueue Hexp.
  { cbn in Hexp. by simplify_eq. }
  cbn [PathFinder.expandMoves] in Hexp.
  apply bind_Some in Hexp as (st1 & Htry & Hexp).
  eapply tryMove_path in Htry; [| apply (Hmoves i robot d); left | done | done].
  destruct st1 as [r| |queue' visited'].
  - by simplify_eq.
  - by simplify_eq.
  - eapply IH; [|exact Htry|exact Hexp].
    intros i' robot' d' Hin. apply (Hmoves i' robot' d'). by right.
Qed.

End SearchPath.

Lemma bfsLoop_path (fuel : nat) (pf : PathFinder.t) (initial : list PathFinder.RobotState)
  (targetColor : string) (targetPos : Z * Z) (startTime now : Z)
  (queue : list PathFinder.SearchState) (visited : gset string) (statesExplored : Z)
  (r : PathFinder.SearchResult) :
  Forall (stateOk (PathFinder.board pf) initial) queue →
  0 ≤ statesExplored ≤ PathFinder.maxIterations pf + 1 →
  PathFinder.bfsLoop fuel pf targetColor targetPos startTime now queue visited
    statesExplored = Some (PathFinder.Normal r) →
  (PathFinder.success r = true →
     pathReaches (PathFinder.board pf) initial targetColor targetPos r)
  ∧ ∃ e, PathFinder.statesExplored r = Some e
         ∧ 0 ≤ e ≤ PathFinder.maxIterations pf + 1.
Proof.
  revert queue visited statesExplored.
  induction fuel as [|fuel IH]; intros queue visited statesExplored Hqueue Hexplored Hrun;
    [done|].
  cbn [PathFinder.bfsLoop] in Hrun.
  destruct queue as [|current queue].
  { simplify_eq. split; [done|]. by eexists. }
  destruct (PathFinder.maxIterations pf <? statesExplored) eqn:Hmax.
  { simplify_eq. split; [done|]. by eexists. }
  apply bind_Some in Hrun as (st & Hexp & Hrun).
  apply Forall_cons in Hqueue as [Hcurrent Hqueue].
  eapply expandMoves_path in Hexp;
    [| intros i robot d; apply elem_of_movesOf | exact Hcurrent | exact Hqueue].
  destruct st as [r'| |queue' visited'].
  - simplify_eq. destruct Hexp as [Hreach He]. split; [done|].
    eexists. split; [done|]. lia.
  - done.
  - eapply IH; [exact Hexp | | exact Hrun]. lia.
Qed.

Lemma initialState_robots (robots : list PathFinder.RobotState) :
  map (λ r, PathFinder.mkRobot (PathFinder.color r) (PathFinder.x r) (PathFinder.y r))
    robots = robots.
Proof. induction robots as [|[c x y] robots IH]; [done|]. simpl. by rewrite IH. Qed.

Lemma bfsSearch_path (pf : PathFinder.t) (targetRobot : PathFinder.RobotState)
  (targetPos : Z * Z) (startTime now : Z) (r : PathFinder.SearchResult) :
  0 ≤ PathFinder.maxIterations pf →
  PathFinder.bfsSearch pf targetRobot targetPos startTime now
  = Some (PathFinder.Normal r) →
  (PathFinder.success r = true →
     pathReaches (PathFinder.board pf) (PathFinder.robots pf)
       (PathFinder.color targetRobot) targetPos r)
  ∧ ∃ e, PathFinder.statesExplored r = Some e
         ∧ 0 ≤ e ≤ PathFinder.maxIterations pf + 1.
Proof.
  intros Hmax Hrun. unfold PathFinder.bfsSearch in Hrun.
  rewrite initialState_robots in Hrun.
  eapply bfsLoop_path; [| |exact Hrun]; [|lia].
  constructor; [|done]. split; [constructor | done].
Qed.

(** The path of a successful search is executable: replayed action by
    action with [simulateMove] from the tokens given to the search, each
    action displaces the token it names from the recorded start to the
    recorded end, and the last configuration has the target token on the
    goal; the reported number of steps is the length of the path. *)
Theorem search_path_is_executable (pf : PathFinder.t) (targetRobot : PathFinder.RobotState)
  (targetPos : Z * Z) (startTime now : Z) (r : PathFinder.SearchResult) :
  0 ≤ PathFinder.maxIterations pf →
  PathFinder.bfsSearch pf targetRobot targetPos startTime now
  = Some (PathFinder.Normal r) →
  PathFinder.success r = true →
  pathReaches (PathFinder.board pf) (PathFinder.robots pf)
    (PathFinder.color targetRobot) targetPos r.
Proof.
  intros Hmax Hrun.
  by destruct (bfsSearch_path pf targetRobot targetPos startTime now r Hmax Hrun).
Qed.

Lemma search_path_is_executable_witness :
  pathReaches detourBoard [PathFinder.mkRobot "red" 0 0] "red" (15, 0)
    (resultOf (PathFinder.bfsSearch
                 (PathFinder.new detourBoard [PathFinder.mkRobot "red" 0 0])
                 (PathFinder.mkRobot "red" 0 0) (15, 0) 0 0)).
Proof.
  apply (search_path_is_executable
           (PathFinder.new detourBoard [PathFinder.mkRobot "red" 0 0])
           (PathFinder.mkRobot "red" 0 0) (15, 0) 0 0).
  - simpl. lia.
  - apply resultOf_returned. by vm_compute.
  - by vm_compute.
Defined.

(** Every result of the search reports a number of explored states
    between 0 and [maxIterations + 1]: the loop takes at most
    [maxIterations + 1] states from the queue. *)
Theorem explored_states_bounded (pf : PathFinder.t) (targetRobot : PathFinder.RobotState)
  (targetPos : Z * Z) (startTime now : Z) (r : PathFinder.SearchResult) :
  0 ≤ PathFinder.maxIterations pf →
  PathFinder.bfsSearch pf targetRobot targetPos startTime now
  = Some (PathFinder.Normal r) →
  ∃ e, PathFinder.statesExplored r = Some e
       ∧ 0 ≤ e ≤ PathFinder.maxIterations pf + 1.
Proof.
  intros Hmax Hrun.
  by destruct (bfsSearch_path pf targetRobot targetPos startTime now r Hmax Hrun).
Qed.

Lemma explored_states_bounded_witness :
  ∃ e, PathFinder.statesExplored
         (resultOf (PathFinder.bfsSearch
                      (PathFinder.new detourBoard [PathFinder.mkRobot "red" 0 0])
                      (PathFinder.mkRobot "red" 0 0) (15, 0) 0 0)) = Some e
       ∧ 0 ≤ e ≤ 1000000 + 1.
Proof.
  apply (explored_states_bounded
           (PathFinder.new detourBoard [PathFinder.mkRobot "red" 0 0])
           (PathFinder.mkRobot "red" 0 0) (15, 0) 0 0).
  - simpl. lia.
  - apply resultOf_returned. by vm_compute.
Defined.

(** ** The key of a joint state *)

Lemma ascii_compare_N (a c : Ascii.ascii) :
  Ascii.compare a c = N.compare (Ascii.N_of_ascii a) (Ascii.N_of_ascii c).
Proof. reflexivity. Qed.

Lemma string_compare_trans_Lt (s1 s2 s3 : string) :
  String.compare s1 s2 = Lt → String.compare s2 s3 = Lt → String.compare s1 s3 = Lt.
Proof.
  revert s2 s3. induction s1 as [|a1 s1 IH]; intros [|a2 s2] [|a3 s3]; simpl; try done.
  rewrite !ascii_compare_N.
  destruct (N.compare_spec (Ascii.N_of_ascii a1) (Ascii.N_of_ascii a2)) as [H12|H12|H12];
    destruct (N.compare_spec (Ascii.N_of_ascii a2) (Ascii.N_of_ascii a3)) as [H23|H23|H23];
    try done; intros Hc1 Hc2.
  - rewrite H12, H23, N.compare_refl. by eapply IH.
  - rewrite H12. by apply N.compare_lt_iff in H23 as ->.
  - rewrite <- H23. by apply N.compare_lt_iff in H12 as ->.
  - assert (Hlt : (Ascii.N_of_ascii a1 < Ascii.N_of_ascii a3)%N) by lia.
    by apply N.compare_lt_iff in Hlt as ->.
Qed.

Lemma string_leb_trans (s1 s2 s3 : string) :
  String.leb s1 s2 = true → String.leb s2 s3 = true → String.leb s1 s3 = true.
Proof.
  unfold String.leb.
  destruct (String.compare s1 s2) eqn:H12; [| |done].
  - apply String.compare_eq_iff in H12. by subst.
  - destruct (String.compare s2 s3) eqn:H23; [| |done]; intros _ _.
    + apply String.compare_eq_iff in H23. subst. by rewrite H12.
    + by rewrite (string_compare_trans_Lt _ _ _ H12 H23).
Qed.

Lemma insertSorted_perm (s : string) (l : list string) :
  PathFinder.insertSorted s l ≡ₚ s :: l.
Proof.
  induction l as [|h t IH]; [done|]. simpl.
  destruct (String.leb s h); [done|].
  rewrite IH. apply Permutation_swap.
Qed.

Lemma sortStrings_perm (l : list string) : PathFinder.sortStrings l ≡ₚ l.
Proof.
  induction l as [|s l IH]; [done|]. unfold PathFinder.sortStrings in *. simpl.
  by rewrite insertSorted_perm, IH.
Qed.

Lemma insertSorted_sorted (s : string) (l : list string) :
  Sorted (λ a c, String.leb a c = true) l →
  Sorted (λ a c, String.leb a c = true) (PathFinder.insertSorted s l).
Proof.
  induction l as [|h t IH]; intros Hl; simpl.
  { by repeat constructor. }
  destruct (String.leb s h) eqn:Hsh.
  { constructor; [done|]. by constructor. }
  apply Sorted_inv in Hl as [Ht Hh].
  constructor; [by apply IH|].
  destruct t as [|h' t]; simpl.
  - constructor. by destruct (String.leb_total s h) as [H|H]; [rewrite H in Hsh|].
  - destruct (String.leb s h') eqn:Hsh'.
    + constructor. by destruct (String.leb_total s h) as [H|H]; [rewrite H in Hsh|].
    + constructor. by apply HdRel_inv in Hh.
Qed.

Lemma sortStrings_sorted (l : list string) :
  Sorted (λ a c, String.leb a c = true) (PathFinder.sortStrings l).
Proof.
  induction l as [|s l IH]; [constructor|].
  unfold PathFinder.sortStrings in *. simpl. by apply insertSorted_sorted.
Qed.

(** The key of a joint state does not depend on the order in which the
    tokens are listed. *)
Theorem stateToString_order_independent (robots1 robots2 : list PathFinder.RobotState) :
  robots1 ≡ₚ robots2 →
  PathFinder.stateToString robots1 = PathFinder.stateToString robots2.
Proof.
  intros Hperm. unfold PathFinder.stateToString. f_equal.
  assert (Htrans : Transitive (λ a c, String.leb a c = true))
    by (intros s1 s2 s3; apply string_leb_trans).
  assert (Hanti : AntiSymm eq (λ a c, String.leb a c = true))
    by (intros s1 s2; apply String.leb_antisym).
  apply (Sorted_unique (λ a c, String.leb a c = true)).
  - apply sortStrings_sorted.
  - apply sortStrings_sorted.
  - by rewrite !sortStrings_perm, Hperm.
Qed.

Lemma stateToString_order_independent_witness :
  PathFinder.stateToString [PathFinder.mkRobot "red" 0 0; PathFinder.mkRobot "blue" 5 0]
  = PathFinder.stateToString [PathFinder.mkRobot "blue" 5 0; PathFinder.mkRobot "red" 0 0].
Proof.
  apply stateToString_order_independent. apply Permutation_swap.
Defined.

(** ** The configuration of a board *)

Lemma validateSteps_inv (smallBoards : list SmallBoard.t)
  (config : list Board.BoardConfig) (acc colors : list string) :
  forEachM (Board.validateStep smallBoards) config acc = Some colors →
  ∃ modules,
    Forall2 (λ c m, jsIndex smallBoards (Board.boardId c) = Some m) config modules
    ∧ colors = acc ++ (SmallBoard.color <$> modules)
    ∧ (NoDup acc → NoDup colors).
Proof.
  revert acc. induction config as [|c config IH]; intros acc Hrun.
  { cbn in Hrun. simplify_eq. exists []. by rewrite app_nil_r. }
  cbn [forEachM] in Hrun.
  destruct (Board.validateStep smallBoards c acc) as [acc'|] eqn:Hstep; [|done].
  unfold Board.validateStep in Hstep.
  apply bind_Some in Hstep as (m & Hm & Hstep).
  case_decide as Hfresh; [done|]. simplify_eq.
  apply IH in Hrun as (modules & Hall & -> & Hnd).
  exists (m :: modules). split; [by constructor|]. split.
  - by rewrite <- app_assoc.
  - intros Hacc. apply Hnd. apply NoDup_app. split; [done|]. split.
    + intros x Hx Hx'. apply list_elem_of_singleton in Hx'. by subst.
    + apply NoDup_singleton.
Qed.

(** A board is only built from a configuration of exactly four
    entries that name existing modules of four pairwise distinct colors. *)
Theorem built_board_has_four_colors (config : list Board.BoardConfig)
  (smallBoards : list SmallBoard.t) (b : Board.t) :
  Board.init config smallBoards = Some b →
  ∃ modules,
    length config = 4%nat
    ∧ Forall2 (λ c m, jsIndex smallBoards (Board.boardId c) = Some m) config modules
    ∧ NoDup (SmallBoard.color <$> modules).
Proof.
  unfold Board.init. intros Hinit.
  apply bind_Some in Hinit as ([] & Hvalid & _).
  unfold Board.validateConfig in Hvalid.
  apply bind_Some in Hvalid as (colors & Hcolors & Hfour).
  case_decide as Hlen; [|done].
  apply validateSteps_inv in Hcolors as (modules & Hall & -> & Hnd).
  exists modules. rewrite app_nil_l in *. split; [|split; [done|]].
  - rewrite length_fmap in Hlen. by rewrite (Forall2_length _ _ _ Hall).
  - apply Hnd. constructor.
Qed.

Lemma built_board_has_four_colors_witness :
  ∃ modules,
    length plainConfig = 4%nat
    ∧ Forall2 (λ c m, jsIndex openModules (Board.boardId c) = Some m) plainConfig modules
    ∧ NoDup (SmallBoard.color <$> modules).
Proof.
  exact (built_board_has_four_colors plainConfig openModules plainBoard plainBoard_built).
Defined.

(** ** A refractor of the token's color *)

Lemma simulateLoop_S (remaining : nat) (b : Board.t) (robot : PathFinder.RobotState)
  (allRobots : list PathFinder.RobotState) (x y : Z) (currentDir : Direction)
  (segments : list PathFinder.Segment) (visited : list (Z * Z * Direction)) :
  PathFinder.simulateLoop (S remaining) b robot allRobots x y currentDir segments visited
  = (moveResult ← PathFinder.moveInDirection b x y currentDir allRobots;
     if negb (PathFinder.mv_moved moveResult) then Some (x, y, segments)
     else
       let segments' :=
         segments ++ [PathFinder.mkSegment (x, y, currentDir)
                        (PathFinder.mv_x moveResult, PathFinder.mv_y moveResult) currentDir] in
       match Board.getCell b (PathFinder.mv_x moveResult) (PathFinder.mv_y moveResult) with
       | Some cell =>
           match Cell.prism cell with
           | Some prism =>
               let newDir := Prism.refract prism currentDir (PathFinder.color robot) in
               if decide (newDir = currentDir)
               then Some (PathFinder.mv_x moveResult, PathFinder.mv_y moveResult, segments')
               else if decide ((PathFinder.mv_x moveResult, PathFinder.mv_y moveResult, newDir)
                               ∈ visited)
               then Some (PathFinder.mv_x moveResult, PathFinder.mv_y moveResult, segments')
               else PathFinder.simulateLoop remaining b robot allRobots
                      (PathFinder.mv_x moveResult) (PathFinder.mv_y moveResult) newDir
                      segments'
                      ((PathFinder.mv_x moveResult, PathFinder.mv_y moveResult, newDir)
                       :: visited)
           | None => Some (PathFinder.mv_x moveResult, PathFinder.mv_y moveResult, segments')
           end
       | None => Some (PathFinder.mv_x moveResult, PathFinder.mv_y moveResult, segments')
       end).
Proof. reflexivity. Qed.

(** When the first slide of a move lands on a refractor of the color of
    the moving token, the move ends there: the result is that cell, with
    the single segment that leads to it. *)
Lemma move_ends_on_same_color_refractor (b : Board.t) (robot : PathFinder.RobotState)
  (direction : Direction) (allRobots : list PathFinder.RobotState)
  (mr : PathFinder.MoveResult) (cell : Cell.t) (prism : Prism.t) :
  PathFinder.moveInDirection b (PathFinder.x robot) (PathFinder.y robot) direction allRobots
  = Some mr →
  PathFinder.mv_moved mr = true →
  Board.getCell b (PathFinder.mv_x mr) (PathFinder.mv_y mr) = Some cell →
  Cell.prism cell = Some prism →
  Prism.color prism = PathFinder.color robot →
  PathFinder.simulateMove b robot direction allRobots
  = Some (PathFinder.mkSim true (PathFinder.mv_x mr) (PathFinder.mv_y mr)
            [PathFinder.mkSegment (PathFinder.x robot, PathFinder.y robot, direction)
               (PathFinder.mv_x mr, PathFinder.mv_y mr) direction]).
Proof.
  intros Hmr Hmoved Hcell Hprism Hcolor.
  assert (Hdiff : negb ((PathFinder.mv_x mr =? PathFinder.x robot)
                        && (PathFinder.mv_y mr =? PathFinder.y robot)) = true).
  { pose proof Hmr as Hshape.
    apply moveInDirection_shape in Hshape as (n & Hn & Hx & Hy & Hm & _).
    rewrite Hm in Hmoved. apply bool_decide_eq_true in Hmoved.
    apply negb_true_iff, andb_false_iff.
    destruct direction; simpl in *; (left; lia) || (right; lia). }
  unfold PathFinder.simulateMove.
  change PathFinder.maxSteps with (S 99). rewrite simulateLoop_S.
  rewrite Hmr. cbn [mbind option_bind].
  rewrite Hmoved. cbn [negb]. cbv zeta. rewrite Hcell, Hprism.
  assert (Hsame : Prism.refract prism direction (PathFinder.color robot) = direction)
    by (unfold Prism.refract; by rewrite decide_True).
  rewrite Hsame. rewrite decide_True by done.
  cbn [mbind option_bind app]. by rewrite Hdiff.
Qed.

Lemma move_ends_on_same_color_refractor_example :
  PathFinder.simulateMove prismBoard (PathFinder.mkRobot "yellow" 0 3) dir_right
    [PathFinder.mkRobot "yellow" 0 3]
  = Some (PathFinder.mkSim true 3 3
            [PathFinder.mkSegment (0, 3, dir_right) (3, 3) dir_right]).
Proof.
  destruct (Board.getCell prismBoard 3 3) as [cell|] eqn:Hcell;
    [|vm_compute in Hcell; discriminate Hcell].
  destruct (Cell.prism cell) as [prism|] eqn:Hprism;
    [|vm_compute in Hcell; simplify_eq; discriminate Hprism].
  apply (move_ends_on_same_color_refractor prismBoard (PathFinder.mkRobot "yellow" 0 3)
           dir_right [PathFinder.mkRobot "yellow" 0 3]
           (PathFinder.mkMove true 3 3) cell prism).
  - by vm_compute.
  - reflexivity.
  - exact Hcell.
  - exact Hprism.
  - vm_compute in Hcell. simplify_eq. by vm_compute in Hprism; simplify_eq.
Defined.

(** ** Codes of configurations *)

Lemma smallBoard_codes_checked :
  forallb (λ boardId,
    forallb (λ faceId,
      match Encoder.encodeSmallBoard boardId faceId with
      | Some (String c EmptyString) =>
          bool_decide (Encoder.decodeSmallBoard c = Some (boardId, faceId))
      | _ => false
      end) [0; 1]) (seqZ 0 8) = true.
Proof. by vm_compute. Qed.

Lemma encodeSmallBoard_decodeSmallBoard (boardId faceId : Z) :
  0 ≤ boardId ≤ 7 → faceId = 0 ∨ faceId = 1 →
  ∃ c, Encoder.encodeSmallBoard boardId faceId = Some (String c EmptyString)
       ∧ Encoder.decodeSmallBoard c = Some (boardId, faceId).
Proof.
  intros Hb Hf.
  pose proof smallBoard_codes_checked as Hall.
  rewrite forallb_forall in Hall.
  assert (Hin : In boardId (seqZ 0 8)) by (apply list_elem_of_In, elem_of_seqZ; lia).
  specialize (Hall boardId Hin). rewrite forallb_forall in Hall.
  assert (Hinf : In faceId [0; 1]) by (simpl; lia).
  specialize (Hall faceId Hinf).
  destruct (Encoder.encodeSmallBoard boardId faceId) as [[|c [|]]|]; try done.
  exists c. split; [done|]. by apply bool_decide_eq_true in Hall.
Qed.

(** A module number from 0 to 7 and a face number 0 or 1 are encoded as
    one character, from which [decodeSmallBoard] gives both back; any
    other pair of numbers is refused. *)
Theorem smallBoard_code_round_trip (boardId faceId : Z) :
  (0 ≤ boardId ≤ 7 → faceId = 0 ∨ faceId = 1 →
     ∃ c, Encoder.encodeSmallBoard boardId faceId = Some (String c EmptyString)
          ∧ Encoder.decodeSmallBoard c = Some (boardId, faceId))
  ∧ (¬ (0 ≤ boardId ≤ 7 ∧ (faceId = 0 ∨ faceId = 1)) →
       Encoder.encodeSmallBoard boardId faceId = None).
Proof.
  split; [apply encodeSmallBoard_decodeSmallBoard|].
  intros Hbad. unfold Encoder.encodeSmallBoard.
  destruct ((boardId <? 0) || (7 <? boardId)) eqn:Hrange; [done|].
  destruct (negb (faceId =? 0) && negb (faceId =? 1)) eqn:Hface; [done|].
  exfalso. apply Hbad. apply orb_false_iff in Hrange as [? ?].
  split; [lia|]. apply andb_false_iff in Hface as [Hf|Hf];
    apply negb_false_iff in Hf; lia.
Qed.

Lemma smallBoard_code_round_trip_witness :
  ∃ c, Encoder.encodeSmallBoard 5 1 = Some (String c EmptyString)
       ∧ Encoder.decodeSmallBoard c = Some (5, 1).
Proof.
  destruct (smallBoard_code_round_trip 5 1) as [Hround _].
  apply Hround; [lia | by right].
Defined.

Lemma position_codes_checked :
  forallb (λ p,
    match Encoder.encodePosition p.1 p.2 with
    | Some code =>
        bool_decide (String.length code = 2%nat)
        && bool_decide (Encoder.decodePosition code = Some p)
    | None => false
    end) (coords 16) = true.
Proof. by vm_compute. Qed.

Lemma encodePosition_decodePosition (x y : Z) :
  0 ≤ x ≤ 15 → 0 ≤ y ≤ 15 →
  ∃ code, Encoder.encodePosition x y = Some code
          ∧ String.length code = 2%nat
          ∧ Encoder.decodePosition code = Some (x, y).
Proof.
  intros Hx Hy.
  pose proof position_codes_checked as Hall. rewrite forallb_forall in Hall.
  assert (Hin : In (x, y) (coords 16)) by (apply list_elem_of_In, elem_of_coords; lia).
  specialize (Hall (x, y) Hin). cbn [fst snd] in Hall.
  destruct (Encoder.encodePosition x y) as [code|]; [|done].
  apply andb_true_iff in Hall as [Hlen Hdec].
  apply bool_decide_eq_true in Hlen, Hdec. by exists code.
Qed.

(** A position with both coordinates from 0 to 15 is encoded as two
    characters, from which [decodePosition] gives the position back; any
    other position is refused. *)
Theorem position_code_round_trip (x y : Z) :
  (0 ≤ x ≤ 15 → 0 ≤ y ≤ 15 →
     ∃ code, Encoder.encodePosition x y = Some code
             ∧ String.length code = 2%nat
             ∧ Encoder.decodePosition code = Some (x, y))
  ∧ (¬ (0 ≤ x ≤ 15 ∧ 0 ≤ y ≤ 15) → Encoder.encodePosition x y = None).
Proof.
  split; [apply encodePosition_decodePosition|].
  intros Hbad. unfold Encoder.encodePosition.
  destruct ((x <? 0) || (15 <? x) || (y <? 0) || (15 <? y)) eqn:Hrange; [done|].
  exfalso. apply Hbad. repeat (apply orb_false_iff in Hrange as [Hrange ?]). lia.
Qed.

Lemma position_code_round_trip_witness :
  ∃ code, Encoder.encodePosition 10 3 = Some code
          ∧ String.length code = 2%nat
          ∧ Encoder.decodePosition code = Some (10, 3).
Proof.
  destruct (position_code_round_trip 10 3) as [Hround _].
  apply Hround; lia.
Defined.

Lemma decodeSmallBoard_hex (c : Ascii.ascii) (p : Z * Z) :
  Encoder.decodeSmallBoard c = Some p → is_Some (Encoder.hexValue c).
Proof. unfold Encoder.decodeSmallBoard. destruct (Encoder.hexValue c); [by eexists | done]. Qed.

(** A configuration of four valid (module, face) pairs is encoded as a
    code from which [decodeBoardConfig] gives the four pairs back, in
    order, each with the name of its quadrant; a list of another length
    is refused. *)
Theorem boardConfig_code_round_trip (boards : list (Z * Z)) :
  (length boards = 4%nat →
   Forall (λ p, 0 ≤ p.1 ≤ 7 ∧ (p.2 = 0 ∨ p.2 = 1)) boards →
   ∃ code,
     Encoder.encodeBoardConfig boards = Some code
     ∧ Encoder.decodeBoardConfig code
       = Some (imap (λ i p, Encoder.mkDecoded p.1 p.2 (Board.positions !! i)) boards))
  ∧ (length boards ≠ 4%nat → Encoder.encodeBoardConfig boards = None).
Proof.
  split.
  - intros Hlen Hall.
    destruct boards as [|[b0 f0] [|[b1 f1] [|[b2 f2] [|[b3 f3] [|]]]]]; try done.
    repeat (apply Forall_cons in Hall as [[? ?] Hall]). cbn [fst snd] in *.
    destruct (encodeSmallBoard_decodeSmallBoard b0 f0) as (c0 & He0 & Hd0); [done..|].
    destruct (encodeSmallBoard_decodeSmallBoard b1 f1) as (c1 & He1 & Hd1); [done..|].
    destruct (encodeSmallBoard_decodeSmallBoard b2 f2) as (c2 & He2 & Hd2); [done..|].
    destruct (encodeSmallBoard_decodeSmallBoard b3 f3) as (c3 & He3 & Hd3); [done..|].
    exists (String c0 (String c1 (String c2 (String c3 EmptyString)))).
    split.
    + unfold Encoder.encodeBoardConfig. rewrite decide_True by done.
      cbn [mapM fst snd]. rewrite He0, He1, He2, He3. reflexivity.
    + unfold Encoder.decodeBoardConfig, Encoder.isHexCode.
      cbn [String.length String.list_ascii_of_string forallb].
      rewrite bool_decide_eq_true_2 by done.
      rewrite !bool_decide_eq_true_2 by (by eapply decodeSmallBoard_hex).
      cbn [andb imap mapM fst snd]. rewrite Hd0. cbn [mbind option_bind].
      unfold compose. cbn [mapM fst snd]. rewrite Hd1, Hd2, Hd3. reflexivity.
  - intros Hlen. unfold Encoder.encodeBoardConfig. by rewrite decide_False.
Qed.

Lemma boardConfig_code_round_trip_witness :
  ∃ code,
    Encoder.encodeBoardConfig [(0, 0); (3, 1); (5, 0); (7, 1)] = Some code
    ∧ Encoder.decodeBoardConfig code
      = Some (imap (λ i p, Encoder.mkDecoded p.1 p.2 (Board.positions !! i))
                [(0, 0); (3, 1); (5, 0); (7, 1)]).
Proof.
  destruct (boardConfig_code_round_trip [(0, 0); (3, 1); (5, 0); (7, 1)]) as [Hround _].
  apply Hround; [reflexivity|].
  repeat constructor; simpl; lia.
Defined.

Lemma isHexCode_4 (code : string) :
  Encoder.isHexCode 4 code = true →
  ∃ c0 c1 c2 c3,
    code = String c0 (String c1 (String c2 (String c3 EmptyString)))
    ∧ is_Some (Encoder.hexValue c0) ∧ is_Some (Encoder.hexValue c1)
    ∧ is_Some (Encoder.hexValue c2) ∧ is_Some (Encoder.hexValue c3).
Proof.
  unfold Encoder.isHexCode. intros Hcode.
  apply andb_true_iff in Hcode as [Hlen Hall]. apply bool_decide_eq_true in Hlen.
  destruct code as [|c0 [|c1 [|c2 [|c3 [|]]]]]; try done.
  cbn [String.list_ascii_of_string forallb] in Hall.
  repeat (apply andb_true_iff in Hall as [?%bool_decide_eq_true Hall]).
  by exists c0, c1, c2, c3.
Qed.

Lemma decodePosition_hex (c d : Ascii.ascii) (p : Z * Z) :
  Encoder.decodePosition (String c (String d EmptyString)) = Some p →
  is_Some (Encoder.hexValue c) ∧ is_Some (Encoder.hexValue d).
Proof.
  unfold Encoder.decodePosition, Encoder.isHexCode.
  cbn [String.length String.list_ascii_of_string forallb].
  destruct (bool_decide (is_Some (Encoder.hexValue c))) eqn:Hc;
    [|by rewrite andb_false_r].
  destruct (bool_decide (is_Some (Encoder.hexValue d))) eqn:Hd;
    [|by rewrite !andb_false_r].
  apply bool_decide_eq_true in Hc, Hd. done.
Qed.

Lemma hexValue_range (c : Ascii.ascii) (v : Z) :
  Encoder.hexValue c = Some v → 0 ≤ v ≤ 15.
Proof.
  unfold Encoder.hexValue.
  destruct ((48 <=? _) && (_ <=? 57)) eqn:H1.
  { intros. simplify_eq. apply andb_true_iff in H1 as [? ?]. lia. }
  destruct ((65 <=? _) && (_ <=? 70)) eqn:H2.
  { intros. simplify_eq. apply andb_true_iff in H2 as [? ?]. lia. }
  destruct ((97 <=? _) && (_ <=? 102)) eqn:H3; [|done].
  intros. simplify_eq. apply andb_true_iff in H3 as [? ?]. lia.
Qed.

Lemma decodeSmallBoard_total (c : Ascii.ascii) :
  is_Some (Encoder.hexValue c) → is_Some (Encoder.decodeSmallBoard c).
Proof.
  intros [v Hv]. unfold Encoder.decodeSmallBoard. rewrite Hv.
  apply hexValue_range in Hv.
  replace ((v <? 0) || (15 <? v)) with false by lia. by eexists.
Qed.

(** Every code of four hexadecimal digits, of either case, is decoded
    into four entries, one per quadrant in the fixed order; any other
    string is refused. *)
Lemma decodeBoardConfig_total (code : string) :
  Encoder.isHexCode 4 code = true → is_Some (Encoder.decodeBoardConfig code).
Proof.
  intros Hcode. unfold Encoder.decodeBoardConfig. rewrite Hcode.
  apply isHexCode_4 in Hcode as (c0 & c1 & c2 & c3 & -> & H0 & H1 & H2 & H3).
  cbn [String.list_ascii_of_string imap mapM fst snd]. unfold compose. cbn [fst snd].
  destruct (decodeSmallBoard_total c0 H0) as [[? ?] ->].
  destruct (decodeSmallBoard_total c1 H1) as [[? ?] ->].
  destruct (decodeSmallBoard_total c2 H2) as [[? ?] ->].
  destruct (decodeSmallBoard_total c3 H3) as [[? ?] ->].
  by eexists.
Qed.

Lemma string_length_2 (code : string) :
  String.length code = 2%nat → ∃ c d, code = String c (String d EmptyString).
Proof. destruct code as [|c [|d [|]]]; try done. by exists c, d. Qed.

(** A game code made of a board code of four hexadecimal digits and of
    the positions of the four tokens, each with coordinates from 0 to 15,
    is decoded by [decodeGame] into the configuration that the board code
    denotes and into the same four positions, and nothing else. *)
Theorem game_code_round_trip (boardCode : string) (positions : gmap string (Z * Z))
  (red yellow blue green : Z * Z) :
  Encoder.isHexCode 4 boardCode = true →
  positions !! "red"%string = Some red →
  positions !! "yellow"%string = Some yellow →
  positions !! "blue"%string = Some blue →
  positions !! "green"%string = Some green →
  Forall (λ p, 0 ≤ p.1 ≤ 15 ∧ 0 ≤ p.2 ≤ 15) [red; yellow; blue; green] →
  ∃ code,
    Encoder.encodeGame boardCode positions = Some code
    ∧ ∃ boardConfig,
        Encoder.decodeBoardConfig boardCode = Some boardConfig
        ∧ Encoder.decodeGame code
          = Some (boardConfig,
                  <["green"%string := green]>
                    (<["blue"%string := blue]>
                       (<["yellow"%string := yellow]>
                          (<["red"%string := red]> ∅)))).
Proof.
  intros Hboard Hred Hyellow Hblue Hgreen Hall.
  repeat (apply Forall_cons in Hall as [[? ?] Hall]).
  destruct (encodePosition_decodePosition red.1 red.2) as (cr & Her & Hlr & Hdr); [done..|].
  destruct (encodePosition_decodePosition yellow.1 yellow.2) as (cy & Hey & Hly & Hdy);
    [done..|].
  destruct (encodePosition_decodePosition blue.1 blue.2) as (cb & Heb & Hlb & Hdb);
    [done..|].
  destruct (encodePosition_decodePosition green.1 green.2) as (cg & Heg & Hlg & Hdg);
    [done..|].
  apply string_length_2 in Hlr as (r0 & r1 & ->), Hly as (y0 & y1 & ->),
    Hlb as (b0 & b1 & ->), Hlg as (g0 & g1 & ->).
  rewrite <- !surjective_pairing in *.
  pose proof (decodePosition_hex _ _ _ Hdr) as [Hr0 Hr1].
  pose proof (decodePosition_hex _ _ _ Hdy) as [Hy0 Hy1].
  pose proof (decodePosition_hex _ _ _ Hdb) as [Hb0 Hb1].
  pose proof (decodePosition_hex _ _ _ Hdg) as [Hg0 Hg1].
  pose proof Hboard as Hchars.
  apply isHexCode_4 in Hchars as (c0 & c1 & c2 & c3 & -> & Hc0 & Hc1 & Hc2 & Hc3).
  exists (String c0 (String c1 (String c2 (String c3 (String r0 (String r1
            (String y0 (String y1 (String b0 (String b1 (String g0 (String g1
               EmptyString)))))))))))).
  split.
  - unfold Encoder.encodeGame, Encoder.encodeRobotPositions, CONSTANTS.COLOR_ORDER.
    cbn [mapM]. rewrite Hred, Hyellow, Hblue, Hgreen. cbn [mbind option_bind].
    rewrite Her, Hey, Heb, Heg. reflexivity.
  - destruct (decodeBoardConfig_total _ Hboard) as [boardConfig Hconfig].
    exists boardConfig. split; [done|].
    unfold Encoder.decodeGame, Encoder.isHexCode.
    cbn [String.append String.concat String.length String.list_ascii_of_string forallb].
    rewrite bool_decide_eq_true_2 by done.
    rewrite !bool_decide_eq_true_2 by done.
    cbn [andb String.substring]. rewrite Hconfig. cbn [mbind option_bind].
    unfold Encoder.decodeRobotPositions, Encoder.isHexCode.
    cbn [String.length String.list_ascii_of_string forallb].
    rewrite bool_decide_eq_true_2 by done.
    rewrite !bool_decide_eq_true_2 by done.
    unfold CONSTANTS.COLOR_ORDER.
    cbn [andb imap foldl fst snd Nat.mul Nat.add String.substring mbind option_bind].
    unfold compose.
    cbn [andb imap foldl fst snd Nat.mul Nat.add String.substring mbind option_bind].
    rewrite Hdr. cbn [mbind option_bind Nat.add]. rewrite Hdy.
    cbn [mbind option_bind Nat.add]. rewrite Hdb. cbn [mbind option_bind Nat.add].
    rewrite Hdg. reflexivity.
Qed.

Lemma game_code_round_trip_witness :
  ∃ code,
    Encoder.encodeGame "0A5f"
      (<["green"%string := (0, 15)]> (<["blue"%string := (9, 9)]>
         (<["yellow"%string := (15, 0)]> (<["red"%string := (1, 2)]> ∅)))) = Some code
    ∧ ∃ boardConfig,
        Encoder.decodeBoardConfig "0A5f" = Some boardConfig
        ∧ Encoder.decodeGame code
          = Some (boardConfig,
                  <["green"%string := (0, 15)]> (<["blue"%string := (9, 9)]>
                    (<["yellow"%string := (15, 0)]> (<["red"%string := (1, 2)]> ∅)))).
Proof.
  apply (game_code_round_trip "0A5f" _ (1, 2) (15, 0) (9, 9) (0, 15)).
  - by vm_compute.
  - by vm_compute.
  - by vm_compute.
  - by vm_compute.
  - by vm_compute.
  - repeat constructor; simpl; lia.
Defined.
(** ** Rotations of directions, wall sides and refractors *)

(** For each of the four rotation angles, the rotation of slide
    directions and the rotation of wall sides agree with the rotation of
    points: the neighbour of a cell in a direction (on a side) is mapped
    onto the neighbour of the rotated cell in the rotated direction (on
    the rotated side). *)
Theorem rotateDirection_follows_rotatePoint (x y angle size : Z) (d : Direction) (s : Side) :
  angle ∈ CONSTANTS.ROTATIONS →
  ∃ p d' s',
    Rotator.rotatePoint x y angle size = Some p
    ∧ Rotator.rotateDirection d angle = Some d'
    ∧ Rotator.rotateWallSide s angle = Some s'
    ∧ Rotator.rotatePoint (x + PathFinder.dx d) (y + PathFinder.dy d) angle size
      = Some (p.1 + PathFinder.dx d', p.2 + PathFinder.dy d')
    ∧ Rotator.rotatePoint (x + sideDx s) (y + sideDy s) angle size
      = Some (p.1 + sideDx s', p.2 + sideDy s').
Proof.
  intros Hangle.
  assert (Hcases : angle = 0 ∨ angle = 90 ∨ angle = 180 ∨ angle = 270).
  { unfold CONSTANTS.ROTATIONS in Hangle. set_unfold in Hangle. lia. }
  destruct Hcases as [-> | [-> | [-> | ->]]]; destruct d, s;
    (do 3 eexists; split_and!; [reflexivity..| |]);
    unfold Rotator.rotatePoint; cbn; f_equal; f_equal; lia.
Qed.

Lemma rotateDirection_follows_rotatePoint_witness :
  ∃ p d' s',
    Rotator.rotatePoint 2 5 90 8 = Some p
    ∧ Rotator.rotateDirection dir_up 90 = Some d'
    ∧ Rotator.rotateWallSide side_left 90 = Some s'
    ∧ Rotator.rotatePoint (2 + PathFinder.dx dir_up) (5 + PathFinder.dy dir_up) 90 8
      = Some (p.1 + PathFinder.dx d', p.2 + PathFinder.dy d')
    ∧ Rotator.rotatePoint (2 + sideDx side_left) (5 + sideDy side_left) 90 8
      = Some (p.1 + sideDx s', p.2 + sideDy s').
Proof.
  apply (rotateDirection_follows_rotatePoint 2 5 90 8 dir_up side_left).
  unfold CONSTANTS.ROTATIONS. set_solver.
Defined.

(** Refraction commutes with the rotation of a module: the refractor
    obtained by rotating a refractor deflects the rotated incoming
    direction into the rotated outgoing direction. *)
Theorem refraction_commutes_with_rotation (p p' : Prism.t) (angle size : Z)
  (d : Direction) (robotColor : string) :
  Prism.rotate p angle size = Some p' →
  ∃ d',
    Rotator.rotateDirection d angle = Some d'
    ∧ Rotator.rotateDirection (Prism.refract p d robotColor) angle
      = Some (Prism.refract p' d' robotColor).
Proof.
  unfold Prism.rotate. intros Hrot.
  apply bind_Some in Hrot as (newPos & Hpos & Hnew).
  unfold Prism.new in Hnew. case_decide; [|done]. simplify_eq.
  unfold Rotator.rotatePoint in Hpos.
  unfold Prism.refract, Prism.calculateRefraction. cbn [Prism.color Prism.direction].
  repeat case_decide; simplify_eq;
    destruct (Prism.direction p), d; (eexists; split; [reflexivity|]); reflexivity.
Qed.

Lemma refraction_commutes_with_rotation_witness :
  ∃ d',
    Rotator.rotateDirection dir_right 90 = Some d'
    ∧ Rotator.rotateDirection
        (Prism.refract (Prism.mk 1 2 Backslash "red") dir_right "blue") 90
      = Some (Prism.refract (Prism.mk 5 1 Slash "red") d' "blue").
Proof.
  apply (refraction_commutes_with_rotation (Prism.mk 1 2 Backslash "red")
           (Prism.mk 5 1 Slash "red") 90 8 dir_right "blue").
  reflexivity.
Defined.
(** ** Cells of a built board and the index of goals *)

Lemma wfCell_clear (x y : Z) (c : Cell.t) : wfCell x y c → wfCell x y (Cell.clear c).
Proof. intros (Hx & Hy & _ & _). by repeat split. Qed.

Lemma createEmptyCells_wf : wfGrid Board.boardSize Board.createEmptyCells.
Proof.
  unfold Board.createEmptyCells.
  apply (fold_left_preserves _ (wfGrid Board.boardSize)); [|apply wfGrid_emptyCells].
  intros i g _ Hg. unfold Board.boundaryStep.
  repeat (apply wfGrid_updateCell; [intros c; apply wfCell_setWall|]). done.
Qed.

Lemma copyCell_wf (rotatedCells : Grid) (offset p : Z * Z) (cells cells' : Grid) :
  Board.copyCell rotatedCells offset p cells = Some cells' →
  wfGrid Board.boardSize cells → wfGrid Board.boardSize cells'.
Proof.
  unfold Board.copyCell. intros Hcopy Hwf.
  apply bind_Some in Hcopy as (sourceCell & _ & Hcopy).
  apply bind_Some in Hcopy as (targetCell & _ & Hcopy).
  apply bind_Some in Hcopy as (cells1 & Hprism & Htarget).
  assert (Hwalls : ∀ side g,
            wfGrid Board.boardSize g →
            wfGrid Board.boardSize
              (Board.copyWall sourceCell (offset.1 + p.1) (offset.2 + p.2) side g)).
  { intros side g Hg. unfold Board.copyWall. repeat case_match; try done;
      repeat (apply wfGrid_updateCell; [intros c; apply wfCell_setWall|]); done. }
  assert (Hwf1 : wfGrid Board.boardSize cells1).
  { unfold Board.copyPrism in Hprism. cbn [fold_left Rotator.sides] in Hprism.
    destruct (Cell.prism sourceCell) as [q|];
      [|simplify_eq; by repeat apply Hwalls].
    apply bind_Some in Hprism as (q' & Hq' & Hprism). simplify_eq.
    apply Prism_new_Some in Hq' as [-> Hcolor].
    apply wfGrid_updateCell; [|by repeat apply Hwalls].
    intros c (Hx & Hy & Hp & Hg). unfold wfCell. simpl.
    split; [done|]. split; [done|]. split; [|done].
    intros q' Hq'. by simplify_eq. }
  unfold Board.copyTarget in Htarget.
  destruct (Cell.target sourceCell) as [g|]; [|by simplify_eq].
  apply bind_Some in Htarget as (g' & Hg' & Htarget). simplify_eq.
  apply Target_new_Some in Hg' as (-> & Hshape & Hcolor).
  apply wfGrid_updateCell; [|done].
  intros c (Hx & Hy & Hp & Hg). unfold wfCell. simpl.
  split; [done|]. split; [done|]. split; [done|].
  intros g' Hg'. by simplify_eq.
Qed.

Lemma placeSmallBoards_wf (config : list Board.BoardConfig)
  (smallBoards : list SmallBoard.t) (cells cells' : Grid) :
  Board.placeSmallBoards config smallBoards cells = Some cells' →
  wfGrid Board.boardSize cells → wfGrid Board.boardSize cells'.
Proof.
  unfold Board.placeSmallBoards.
  apply (forEachM_preserves _ (wfGrid Board.boardSize)).
  intros position t t' _ Hquad Ht. unfold Board.placeSmallBoard in Hquad.
  apply bind_Some in Hquad as (boardConfig & _ & Hquad).
  apply bind_Some in Hquad as (smallBoard & _ & Hquad).
  apply bind_Some in Hquad as (angle & _ & Hquad).
  apply bind_Some in Hquad as (rotatedCells & _ & Hquad).
  eapply (forEachM_preserves _ (wfGrid Board.boardSize)); [|exact Hquad|done].
  intros p u u' _. apply copyCell_wf.
Qed.

Lemma setCentralBlockedArea_wf (cells : Grid) :
  wfGrid Board.boardSize cells →
  wfGrid Board.boardSize (Board.setCentralBlockedArea cells).
Proof.
  intros Hwf. unfold Board.setCentralBlockedArea, Board.blockCell.
  repeat (apply (fold_left_preserves _ (wfGrid Board.boardSize)); [intros ? ? _ ?|]);
    repeat case_match;
    repeat (apply wfGrid_updateCell;
            [intros c; first [apply wfCell_setWall | apply wfCell_clear]|]);
    done.
Qed.

Lemma init_wf (config : list Board.BoardConfig) (smallBoards : list SmallBoard.t)
  (b : Board.t) :
  Board.init config smallBoards = Some b →
  Board.size b = Board.boardSize
  ∧ wfGrid Board.boardSize (Board.cells b)
  ∧ Board.targets b = Board.collectTargets (Board.cells b)
  ∧ ∀ x y c, Board.isInCentralArea x y = true →
             Board.cells b !! (x, y) = Some c →
             Cell.prism c = None ∧ Cell.target c = None.
Proof.
  intros Hinit. apply init_inv in Hinit as (cells & Hplace & ->).
  cbn [Board.size Board.cells Board.targets].
  assert (Hwf : wfGrid Board.boardSize cells).
  { eapply placeSmallBoards_wf; [done|]. apply createEmptyCells_wf. }
  split; [done|]. split; [by apply setCentralBlockedArea_wf|]. split; [done|].
  intros x y c Hxy Hc.
  destruct (setCentralBlockedArea_content cells x y) as (c' & Hc' & Hp & Hg); [|done|].
  { intros x' y' Hx' Hy'. destruct Hwf as [Hin _].
    destruct (Hin x' y' Hx' Hy') as (? & -> & _). done. }
  by simplify_eq.
Qed.

(** On every board that the constructor builds, each cell records its
    own coordinates, and so do the refractor and the goal that it holds;
    the tags of the refractor and of the goal are among those that their
    constructors accept. *)
Theorem built_cells_record_their_position (config : list Board.BoardConfig)
  (smallBoards : list SmallBoard.t) (b : Board.t) :
  Board.init config smallBoards = Some b →
  ∀ x y c, Board.getCell b x y = Some c → wfCell x y c.
Proof.
  intros Hinit x y c Hc.
  destruct (init_wf _ _ _ Hinit) as (Hsize & [Hin _] & _ & _).
  apply getCell_Some in Hc as (Hx & Hy & Hc). rewrite Hsize in Hx, Hy.
  destruct (Hin x y Hx Hy) as (c' & Hc' & Hwf). by simplify_eq.
Qed.

Lemma sampleBoard_built :
  Board.init plainConfig (modulesWith sampleFace emptyFace) = Some sampleBoard.
Proof. apply boardOf_built. by vm_compute. Qed.

Lemma built_cells_record_their_position_witness :
  ∃ c, Board.getCell sampleBoard 5 1 = Some c ∧ wfCell 5 1 c.
Proof.
  destruct (Board.getCell sampleBoard 5 1) as [c|] eqn:Hc;
    [|vm_compute in Hc; discriminate Hc].
  exists c. split; [done|].
  exact (built_cells_record_their_position plainConfig (modulesWith sampleFace emptyFace)
           sampleBoard sampleBoard_built 5 1 c Hc).
Defined.

Lemma NoDup_coords_board : NoDup (coords Board.boardSize).
Proof. apply (bool_decide_unpack _). by vm_compute. Qed.

Lemma elem_of_collectTargets (cells : Grid) (g : Target.t) :
  g ∈ Board.collectTargets cells
  ↔ ∃ p c, p ∈ coords Board.boardSize ∧ cells !! p = Some c ∧ Cell.target c = Some g.
Proof.
  unfold Board.collectTargets. rewrite list_elem_of_bind. split.
  - intros (p & Hg & Hp). destruct (cells !! p) as [c|] eqn:Hc; [|set_solver].
    destruct (Cell.target c) as [g'|] eqn:Hg'; [|set_solver].
    apply list_elem_of_singleton in Hg as ->. eauto.
  - intros (p & c & Hp & Hc & Hg). exists p. split; [|done].
    rewrite Hc, Hg. by apply list_elem_of_singleton.
Qed.

Lemma collectTargets_positions_NoDup (cells : Grid) (l : list (Z * Z)) :
  (∀ p c g, cells !! p = Some c → Cell.target c = Some g → targetPosition g = p) →
  NoDup l →
  NoDup (targetPosition <$>
           (p ← l;
            match cells !! p with
            | Some cell => match Cell.target cell with Some g => [g] | None => [] end
            | None => []
            end)).
Proof.
  intros Hown. induction 1 as [|p l Hp Hl IH]; [constructor|].
  cbn [mbind list_bind]. rewrite fmap_app. apply NoDup_app. split_and!.
  - destruct (cells !! p) as [c|]; [|constructor].
    destruct (Cell.target c); [apply NoDup_singleton | constructor].
  - intros q Hq Hq'. apply list_elem_of_fmap in Hq' as (g & -> & Hg).
    apply list_elem_of_bind in Hg as (p' & Hg & Hp').
    destruct (cells !! p') as [c'|] eqn:Hc'; [|set_solver].
    destruct (Cell.target c') as [g'|] eqn:Hg'; [|set_solver].
    apply list_elem_of_singleton in Hg as ->.
    destruct (cells !! p) as [c|] eqn:Hc; [|set_solver].
    destruct (Cell.target c) as [g0|] eqn:Hg0; [|set_solver].
    apply list_elem_of_fmap in Hq as (g1 & Hq & Hg1).
    apply list_elem_of_singleton in Hg1 as ->.
    rewrite (Hown p' c' g' Hc' Hg'), (Hown p c g0 Hc Hg0) in Hq.
    by simplify_eq.
  - exact IH.
Qed.

Lemma targets_of_built_board (config : list Board.BoardConfig)
  (smallBoards : list SmallBoard.t) (b : Board.t) :
  Board.init config smallBoards = Some b →
  (∀ g, g ∈ Board.targets b
        ↔ ∃ c, Board.getCell b (Target.x g) (Target.y g) = Some c
               ∧ Cell.target c = Some g)
  ∧ (∀ g, g ∈ Board.targets b →
          Board.isValidPosition b (Target.x g) (Target.y g) = true)
  ∧ NoDup (targetPosition <$> Board.targets b).
Proof.
  intros Hinit.
  destruct (init_wf _ _ _ Hinit) as (Hsize & [Hin Hout] & Htargets & Hcentre).
  assert (Hown : ∀ p c g, Board.cells b !! p = Some c → Cell.target c = Some g →
                          targetPosition g = p ∧ p ∈ coords Board.boardSize).
  { intros [x y] c g Hc Hg.
    destruct (decide (0 ≤ x < Board.boardSize ∧ 0 ≤ y < Board.boardSize)) as [[Hx Hy]|Hno].
    - destruct (Hin x y Hx Hy) as (c' & Hc' & _ & _ & _ & Hwf). simplify_eq.
      destruct (Hwf g Hg) as (<- & <- & _). split; [done|]. by apply elem_of_coords.
    - rewrite (Hout x y Hno) in Hc. done. }
  assert (Hindex : ∀ g, g ∈ Board.targets b
            ↔ ∃ c, Board.getCell b (Target.x g) (Target.y g) = Some c
                   ∧ Cell.target c = Some g).
  { intros g. rewrite Htargets, elem_of_collectTargets. split.
    - intros (p & c & Hp & Hc & Hg). exists c. split; [|done].
      destruct (Hown p c g Hc Hg) as [Hpos _]. destruct p as [x y].
      unfold targetPosition in Hpos. simplify_eq.
      apply elem_of_coords in Hp as [Hx Hy].
      rewrite getCell_inside by (rewrite Hsize; done). done.
    - intros (c & Hc & Hg). apply getCell_Some in Hc as (Hx & Hy & Hc).
      exists (Target.x g, Target.y g), c. split; [|done].
      apply elem_of_coords. by rewrite <- Hsize. }
  split; [exact Hindex|]. split.
  - intros g Hg. apply Hindex in Hg as (c & Hc & Hg).
    apply getCell_Some in Hc as (Hx & Hy & Hc).
    unfold Board.isValidPosition.
    replace (Target.x g <? 0) with false by lia.
    replace (Board.size b <=? Target.x g) with false by lia.
    replace (Target.y g <? 0) with false by lia.
    replace (Board.size b <=? Target.y g) with false by lia.
    cbn [orb].
    destruct (Board.isInCentralArea (Target.x g) (Target.y g)) eqn:Hxy; [|done].
    destruct (Hcentre _ _ c Hxy Hc) as [_ Hnone]. congruence.
  - rewrite Htargets. unfold Board.collectTargets.
    apply collectTargets_positions_NoDup.
    + intros p c g Hc Hg. by destruct (Hown p c g Hc Hg).
    + apply NoDup_coords_board.
Qed.

(** On every board that the constructor builds, the index of goals
    holds exactly the goals of the cells: a goal is indexed exactly when
    the cell at the position it records holds it.  Every indexed goal lies
    on the board outside the dead zone, and no two indexed goals record
    the same position. *)
Theorem goal_index_matches_cells (config : list Board.BoardConfig)
  (smallBoards : list SmallBoard.t) (b : Board.t) :
  Board.init config smallBoards = Some b →
  (∀ g, g ∈ Board.targets b
        ↔ ∃ c, Board.getCell b (Target.x g) (Target.y g) = Some c
               ∧ Cell.target c = Some g)
  ∧ (∀ g, g ∈ Board.targets b →
          Board.isValidPosition b (Target.x g) (Target.y g) = true)
  ∧ NoDup (targetPosition <$> Board.targets b).
Proof. apply targets_of_built_board. Qed.

Lemma goal_index_matches_cells_witness :
  (∀ g, g ∈ Board.targets sampleBoard
        ↔ ∃ c, Board.getCell sampleBoard (Target.x g) (Target.y g) = Some c
               ∧ Cell.target c = Some g)
  ∧ (∀ g, g ∈ Board.targets sampleBoard →
          Board.isValidPosition sampleBoard (Target.x g) (Target.y g) = true)
  ∧ NoDup (targetPosition <$> Board.targets sampleBoard).
Proof.
  exact (goal_index_matches_cells plainConfig (modulesWith sampleFace emptyFace)
           sampleBoard sampleBoard_built).
Defined.
(** ** Decoding and validating a game code *)

Lemma land_15_range (v : Z) : 0 ≤ Z.land v 15 ≤ 15.
Proof.
  assert (Hmod : Z.land v 15 = v `mod` 16).
  { change 15 with (Z.ones 4). rewrite Z.land_ones by lia. reflexivity. }
  rewrite Hmod. pose proof (Z.mod_pos_bound v 16). lia.
Qed.

Lemma decodePosition_total (c d : Ascii.ascii) :
  is_Some (Encoder.hexValue c) → is_Some (Encoder.hexValue d) →
  ∃ p, Encoder.decodePosition (String c (String d EmptyString)) = Some p
       ∧ 0 ≤ p.1 ≤ 15 ∧ 0 ≤ p.2 ≤ 15.
Proof.
  intros [v Hv] [w Hw]. unfold Encoder.decodePosition, Encoder.isHexCode.
  cbn [String.length String.list_ascii_of_string forallb].
  rewrite bool_decide_eq_true_2 by done.
  rewrite !bool_decide_eq_true_2 by (by eexists).
  cbn [andb]. unfold Encoder.parseHex.
  cbn [String.list_ascii_of_string foldl mbind option_bind].
  rewrite Hv. cbn [mbind option_bind]. rewrite Hw. cbn [mbind option_bind].
  eexists. split; [reflexivity|]. cbn [fst snd]. split; apply land_15_range.
Qed.

Lemma isHexCode_12 (code : string) :
  Encoder.isHexCode 12 code = true →
  ∃ c0 c1 c2 c3 r0 r1 y0 y1 b0 b1 g0 g1,
    code = String c0 (String c1 (String c2 (String c3 (String r0 (String r1
             (String y0 (String y1 (String b0 (String b1 (String g0 (String g1
                EmptyString)))))))))))
    ∧ Forall (λ c, is_Some (Encoder.hexValue c))
        [c0; c1; c2; c3; r0; r1; y0; y1; b0; b1; g0; g1].
Proof.
  unfold Encoder.isHexCode. intros Hcode.
  apply andb_true_iff in Hcode as [Hlen Hall]. apply bool_decide_eq_true in Hlen.
  destruct code as [|c0 [|c1 [|c2 [|c3 [|r0 [|r1 [|y0 [|y1 [|b0 [|b1 [|g0 [|g1 [|]]]]]]]]]]]]];
    try done.
  cbn [String.list_ascii_of_string forallb] in Hall.
  repeat (apply andb_true_iff in Hall as [?%bool_decide_eq_true Hall]).
  exists c0, c1, c2, c3, r0, r1, y0, y1, b0, b1, g0, g1. split; [done|].
  repeat constructor; done.
Qed.

Lemma decodeGame_hex (code : string) :
  Encoder.isHexCode 12 code = true →
  ∃ boardConfig red yellow blue green,
    Encoder.decodeGame code
    = Some (boardConfig, fourPositions red yellow blue green)
    ∧ length boardConfig = 4%nat
    ∧ Forall (λ p, 0 ≤ p.1 ≤ 15 ∧ 0 ≤ p.2 ≤ 15) [red; yellow; blue; green].
Proof.
  intros Hcode. unfold Encoder.decodeGame. rewrite Hcode.
  apply isHexCode_12 in Hcode
    as (c0 & c1 & c2 & c3 & r0 & r1 & y0 & y1 & b0 & b1 & g0 & g1 & -> & Hall).
  repeat (apply Forall_cons in Hall as [? Hall]).
  destruct (decodePosition_total r0 r1) as (red & Hred & ? & ?); [done..|].
  destruct (decodePosition_total y0 y1) as (yellow & Hyellow & ? & ?); [done..|].
  destruct (decodePosition_total b0 b1) as (blue & Hblue & ? & ?); [done..|].
  destruct (decodePosition_total g0 g1) as (green & Hgreen & ? & ?); [done..|].
  cbn [String.substring].
  assert (Hboard : ∃ boardConfig,
            Encoder.decodeBoardConfig
              (String c0 (String c1 (String c2 (String c3 EmptyString))))
            = Some boardConfig ∧ length boardConfig = 4%nat).
  { unfold Encoder.decodeBoardConfig, Encoder.isHexCode.
    cbn [String.length String.list_ascii_of_string forallb].
    rewrite bool_decide_eq_true_2 by done.
    rewrite !bool_decide_eq_true_2 by done.
    cbn [andb imap mapM fst snd]. unfold compose. cbn [fst snd].
    destruct (decodeSmallBoard_total c0) as [[? ?] ->]; [done|].
    destruct (decodeSmallBoard_total c1) as [[? ?] ->]; [done|].
    destruct (decodeSmallBoard_total c2) as [[? ?] ->]; [done|].
    destruct (decodeSmallBoard_total c3) as [[? ?] ->]; [done|].
    eexists. split; reflexivity. }
  destruct Hboard as (boardConfig & -> & Hlen). cbn [mbind option_bind].
  exists boardConfig, red, yellow, blue, green. split; [|split; [done|]].
  - unfold Encoder.decodeRobotPositions, Encoder.isHexCode.
    cbn [String.length String.list_ascii_of_string forallb].
    rewrite bool_decide_eq_true_2 by done.
    rewrite !bool_decide_eq_true_2 by done.
    unfold CONSTANTS.COLOR_ORDER.
    cbn [andb imap foldl fst snd Nat.mul Nat.add String.substring mbind option_bind].
    unfold compose.
    cbn [andb imap foldl fst snd Nat.mul Nat.add String.substring mbind option_bind].
    rewrite Hred. cbn [mbind option_bind Nat.add]. rewrite Hyellow.
    cbn [mbind option_bind Nat.add]. rewrite Hblue. cbn [mbind option_bind Nat.add].
    rewrite Hgreen. reflexivity.
  - repeat (apply Forall_cons; split; [done|]). by apply Forall_nil.
Qed.

Lemma positionKey_checked :
  let keyed := map (λ p, (p, Encoder.positionKey p.1 p.2)) (coords 16) in
  forallb (λ pk : Z * Z * string,
    forallb (λ qk : Z * Z * string,
      implb (String.eqb pk.2 qk.2) (bool_decide (pk.1 = qk.1))) keyed) keyed = true.
Proof. by vm_compute. Qed.

Lemma positionKey_inj (p q : Z * Z) :
  0 ≤ p.1 ≤ 15 → 0 ≤ p.2 ≤ 15 → 0 ≤ q.1 ≤ 15 → 0 ≤ q.2 ≤ 15 →
  Encoder.positionKey p.1 p.2 = Encoder.positionKey q.1 q.2 → p = q.
Proof.
  intros Hp1 Hp2 Hq1 Hq2 Hkey.
  pose proof positionKey_checked as Hall. cbv zeta in Hall.
  rewrite forallb_forall in Hall.
  assert (Hp : In p (coords 16)).
  { apply list_elem_of_In. destruct p. apply elem_of_coords. simpl in *. lia. }
  assert (Hq : In q (coords 16)).
  { apply list_elem_of_In. destruct q. apply elem_of_coords. simpl in *. lia. }
  specialize (Hall _ (in_map (λ p, (p, Encoder.positionKey p.1 p.2)) _ _ Hp)).
  rewrite forallb_forall in Hall.
  specialize (Hall _ (in_map (λ p, (p, Encoder.positionKey p.1 p.2)) _ _ Hq)).
  cbn [fst snd] in Hall.
  rewrite Hkey, String.eqb_refl in Hall. by apply bool_decide_eq_true in Hall.
Qed.

Lemma centralStep_fold (es : list (string * (Z * Z))) (errors : list Encoder.ValidationError) :
  foldl Encoder.centralStep errors es = []
  ↔ errors = [] ∧ Forall (λ e, Encoder.isInCentralGap e.2.1 e.2.2 = false) es.
Proof.
  revert errors. induction es as [|e es IH]; intros errors; cbn [foldl].
  - split; [intros ->; by split | by intros [-> _]].
  - rewrite IH, Forall_cons. unfold Encoder.centralStep.
    destruct (Encoder.isInCentralGap e.2.1 e.2.2).
    + split; [intros [Herr _]; by destruct errors | by intros [_ [? _]]].
    + tauto.
Qed.

Lemma duplicateStep_fold (es : list (string * (Z * Z)))
  (errors : list Encoder.ValidationError) (posSet : gset string) :
  (foldl Encoder.duplicateStep (errors, posSet) es).1 = []
  ↔ errors = []
    ∧ NoDup ((λ e, Encoder.positionKey e.2.1 e.2.2) <$> es)
    ∧ ∀ e, e ∈ es → Encoder.positionKey e.2.1 e.2.2 ∉ posSet.
Proof.
  revert errors posSet. induction es as [|e es IH]; intros errors posSet; cbn [foldl].
  - cbn [fst]. split; [intros ->|by intros [-> _]].
    split; [done|]. split; [constructor|]. intros e He. by apply elem_of_nil in He.
  - unfold Encoder.duplicateStep at 2. cbn [fst snd]. rewrite IH, fmap_cons, NoDup_cons.
    case_decide as Hin.
    + split.
      * intros [Herr _]. by destruct errors.
      * intros (_ & _ & Hnot). exfalso. apply (Hnot e); [left | done].
    + split.
      * intros (-> & Hnd & Hnot). split; [done|]. split; [split; [|done]|].
        -- intros Hdup. apply list_elem_of_fmap in Hdup as (e' & Hkey & He').
           apply (Hnot e' He'). rewrite <- Hkey. apply elem_of_union_l.
           by apply elem_of_singleton.
        -- intros e' He'. apply elem_of_cons in He' as [-> | He']; [done|].
           intros Hin'. apply (Hnot e' He'). by apply elem_of_union_r.
      * intros (-> & [Hfresh Hnd] & Hnot). split; [done|]. split; [done|].
        intros e' He' Hin'. apply elem_of_union in Hin' as [Hin'|Hin'].
        -- apply elem_of_singleton in Hin'. apply Hfresh.
           apply list_elem_of_fmap. exists e'. by split.
        -- apply (Hnot e'); [by right | done].
Qed.

Lemma entries_fourPositions (red yellow blue green : Z * Z) :
  Encoder.entries (fourPositions red yellow blue green)
  = [("red"%string, red); ("yellow"%string, yellow); ("blue"%string, blue);
     ("green"%string, green)].
Proof. reflexivity. Qed.

Lemma lookup_fourPositions (red yellow blue green : Z * Z) (color : string) (pos : Z * Z) :
  fourPositions red yellow blue green !! color = Some pos
  ↔ (color, pos) ∈ [("red"%string, red); ("yellow"%string, yellow); ("blue"%string, blue);
                    ("green"%string, green)].
Proof.
  unfold fourPositions. rewrite !lookup_insert_Some, lookup_empty.
  rewrite !elem_of_cons, elem_of_nil. split.
  - intros [[<- <-]|[? [[<- <-]|[? [[<- <-]|[? [[<- <-]|[? ?]]]]]]]]; try done; tauto.
  - intros [?|[?|[?|[?|[]]]]]; simplify_eq.
    + right. split; [done|]. right. split; [done|]. right. split; [done|]. by left.
    + right. split; [done|]. right. split; [done|]. by left.
    + right. split; [done|]. by left.
    + by left.
Qed.

(** [decodeGame] returns exactly on the strings of twelve hexadecimal
    digits, of either case.  What it returns holds four entries of
    configuration and a position for each of the four colors and for
    nothing else, with coordinates from 0 to 15. *)
Theorem decodeGame_defined_on_hex_codes (code : string) :
  (is_Some (Encoder.decodeGame code) ↔ Encoder.isHexCode 12 code = true)
  ∧ ∀ boardConfig robotPositions,
      Encoder.decodeGame code = Some (boardConfig, robotPositions) →
      length boardConfig = 4%nat
      ∧ (∀ color, is_Some (robotPositions !! color) ↔ color ∈ CONSTANTS.COLOR_ORDER)
      ∧ ∀ color pos, robotPositions !! color = Some pos →
                     0 ≤ pos.1 ≤ 15 ∧ 0 ≤ pos.2 ≤ 15.
Proof.
  split.
  - split.
    + intros [r Hr]. unfold Encoder.decodeGame in Hr.
      by destruct (Encoder.isHexCode 12 code).
    + intros Hcode. destruct (decodeGame_hex code Hcode) as (bc & r & y & b & g & -> & _).
      by eexists.
  - intros boardConfig robotPositions Hdecode.
    assert (Hcode : Encoder.isHexCode 12 code = true).
    { unfold Encoder.decodeGame in Hdecode. by destruct (Encoder.isHexCode 12 code). }
    destruct (decodeGame_hex code Hcode) as (bc & r & y & b & g & Heq & Hlen & Hall).
    rewrite Heq in Hdecode. simplify_eq.
    repeat (apply Forall_cons in Hall as [[? ?] Hall]).
    split; [done|]. split.
    + intros color. unfold CONSTANTS.COLOR_ORDER. split.
      * intros [pos Hpos]. apply lookup_fourPositions in Hpos.
        rewrite !elem_of_cons, elem_of_nil in Hpos. rewrite !elem_of_cons, elem_of_nil.
        destruct Hpos as [?|[?|[?|[?|[]]]]]; simplify_eq; tauto.
      * rewrite !elem_of_cons, elem_of_nil.
        intros [->|[->|[->|[->|[]]]]]; by eexists.
    + intros color pos Hpos. apply lookup_fourPositions in Hpos.
      rewrite !elem_of_cons, elem_of_nil in Hpos.
      destruct Hpos as [?|[?|[?|[?|[]]]]]; by simplify_eq.
Qed.

Lemma decodeGame_defined_on_hex_codes_witness :
  ∃ boardConfig robotPositions,
    Encoder.decodeGame "0A5f12F0990F" = Some (boardConfig, robotPositions)
    ∧ length boardConfig = 4%nat
    ∧ is_Some (robotPositions !! "blue"%string).
Proof.
  destruct (decodeGame_defined_on_hex_codes "0A5f12F0990F") as [[_ Hsome] Hshape].
  destruct Hsome as [[boardConfig robotPositions] Hdecode]; [reflexivity|].
  exists boardConfig, robotPositions. split; [exact Hdecode|].
  destruct (Hshape boardConfig robotPositions Hdecode) as (Hlen & Hcolors & _).
  split; [exact Hlen|]. apply Hcolors. right. right. left.
Defined.

(** [validateGameCode] accepts a code exactly when [decodeGame] decodes
    it, no decoded position lies in the central area, and no two colors
    have the same decoded position. *)
Theorem validateGameCode_accepts_iff (code : string) :
  Encoder.valid (Encoder.validateGameCode code) = true
  ↔ ∃ boardConfig robotPositions,
      Encoder.decodeGame code = Some (boardConfig, robotPositions)
      ∧ (∀ color pos, robotPositions !! color = Some pos →
                      Encoder.isInCentralGap pos.1 pos.2 = false)
      ∧ (∀ color1 color2 pos,
           robotPositions !! color1 = Some pos → robotPositions !! color2 = Some pos →
           color1 = color2).
Proof.
  unfold Encoder.validateGameCode.
  destruct (Encoder.isHexCode 12 code) eqn:Hcode; cbn [negb Encoder.valid].
  2:{ split; [done|]. intros (bc & rp & Hdecode & _).
      unfold Encoder.decodeGame in Hdecode. by rewrite Hcode in Hdecode. }
  destruct (decodeGame_hex code Hcode) as (bc & r & y & b & g & Hdecode & _ & Hall).
  rewrite Hdecode. rewrite bool_decide_eq_true, length_zero_iff_nil.
  rewrite duplicateStep_fold, centralStep_fold, entries_fourPositions.
  repeat (apply Forall_cons in Hall as [[? ?] Hall]).
  split.
  - intros ((_ & Hcentral) & Hnd & _). exists bc, (fourPositions r y b g).
    split; [done|]. split.
    + intros color pos Hpos. apply lookup_fourPositions in Hpos.
      rewrite Forall_forall in Hcentral. by apply (Hcentral (color, pos)).
    + intros color1 color2 pos Hpos1 Hpos2. apply lookup_fourPositions in Hpos1, Hpos2.
      cbn [fmap list_fmap fst snd] in Hnd.
      rewrite !elem_of_cons, elem_of_nil in Hpos1, Hpos2.
      rewrite !NoDup_cons, !not_elem_of_cons in Hnd.
      destruct Hpos1 as [?|[?|[?|[?|[]]]]], Hpos2 as [?|[?|[?|[?|[]]]]]; simplify_eq;
        try done; exfalso; destruct_and!; congruence.
  - intros (bc' & rp & Hdecode' & Hcentral & Hinj). simplify_eq.
    split; [split; [done|]|split].
    + apply Forall_forall. intros [color pos] Hin.
      apply (Hcentral color pos). by apply lookup_fourPositions.
    + cbn [fmap list_fmap fst snd].
      assert (Hne : ∀ color1 color2 p q,
                color1 ≠ color2 →
                fourPositions r y b g !! color1 = Some p →
                fourPositions r y b g !! color2 = Some q →
                0 ≤ p.1 ≤ 15 → 0 ≤ p.2 ≤ 15 → 0 ≤ q.1 ≤ 15 → 0 ≤ q.2 ≤ 15 →
                Encoder.positionKey p.1 p.2 ≠ Encoder.positionKey q.1 q.2).
      { intros color1 color2 p q Hne Hp Hq ? ? ? ? Hkey.
        apply positionKey_inj in Hkey; [|done..]. subst q.
        by apply Hne, (Hinj color1 color2 p). }
      rewrite !NoDup_cons, !not_elem_of_cons. split_and!;
        try apply not_elem_of_nil; try apply NoDup_nil_2;
        match goal with
        | |- Encoder.positionKey ?p.1 _ ≠ Encoder.positionKey ?q.1 _ =>
            first
              [ by apply (Hne "red"%string "yellow"%string)
              | by apply (Hne "red"%string "blue"%string)
              | by apply (Hne "red"%string "green"%string)
              | by apply (Hne "yellow"%string "blue"%string)
              | by apply (Hne "yellow"%string "green"%string)
              | by apply (Hne "blue"%string "green"%string) ]
        | _ => idtac
        end.
    + intros e _. apply not_elem_of_empty.
Qed.

Lemma validateGameCode_accepts_iff_witness :
  ∃ boardConfig robotPositions,
    Encoder.decodeGame "0A5f12F0990F" = Some (boardConfig, robotPositions)
    ∧ (∀ color pos, robotPositions !! color = Some pos →
                    Encoder.isInCentralGap pos.1 pos.2 = false).
Proof.
  destruct (validateGameCode_accepts_iff "0A5f12F0990F") as [Hvalid _].
  destruct Hvalid as (boardConfig & robotPositions & Hdecode & Hcentral & _);
    [by vm_compute|].
  by exists boardConfig, robotPositions.
Defined.
(** ** Starting a game *)

Lemma validatePosition_fold (b : Board.t) (robots : list Robot.t) :
  is_Some (forEachM (Game.validatePosition b) robots tt)
  ↔ Forall (λ r, Board.isValidPosition b (Robot.x r) (Robot.y r) = true
                 ∧ ∀ c, Board.getCell b (Robot.x r) (Robot.y r) = Some c →
                        Cell.hasPrism c = false) robots.
Proof.
  induction robots as [|r robots IH]; cbn [forEachM].
  - split; [constructor | by eexists].
  - rewrite Forall_cons, <- IH. unfold Game.validatePosition at 1.
    destruct (Board.isValidPosition b (Robot.x r) (Robot.y r)); cbn [negb].
    2:{ split; [by intros [? ?] | by intros [[? _] _]]. }
    destruct (Board.getCell b (Robot.x r) (Robot.y r)) as [cell|].
    + destruct (Cell.hasPrism cell) eqn:Hprism.
      * split; [by intros [? ?]|]. intros [[_ Hno] _].
        specialize (Hno cell eq_refl). congruence.
      * split; [|tauto]. intros Hrest. split; [|done]. split; [done|].
        intros c Hc. by simplify_eq.
    + split; [|tauto]. intros Hrest. split; [|done]. by split.
Qed.

Lemma recordPosition_fold (robots : list Robot.t) (positions : gset string) :
  is_Some (forEachM Game.recordPosition robots positions)
  ↔ NoDup ((λ r, Encoder.positionKey (Robot.x r) (Robot.y r)) <$> robots)
    ∧ ∀ r, r ∈ robots → Encoder.positionKey (Robot.x r) (Robot.y r) ∉ positions.
Proof.
  revert positions. induction robots as [|r robots IH]; intros positions; cbn [forEachM].
  - split; [|by eexists]. intros _. split; [constructor|].
    intros r Hr. by apply elem_of_nil in Hr.
  - rewrite fmap_cons, NoDup_cons. unfold Game.recordPosition at 1.
    case_decide as Hin.
    + split; [by intros [? ?]|]. intros [_ Hnot]. exfalso. apply (Hnot r); [left | done].
    + rewrite IH. split.
      * intros [Hnd Hnot]. split; [split; [|done]|].
        -- intros Hdup. apply list_elem_of_fmap in Hdup as (r' & Hkey & Hr').
           apply (Hnot r' Hr'). rewrite <- Hkey. apply elem_of_union_l.
           by apply elem_of_singleton.
        -- intros r' Hr'. apply elem_of_cons in Hr' as [-> | Hr']; [done|].
           intros Hin'. apply (Hnot r' Hr'). by apply elem_of_union_r.
      * intros [[Hfresh Hnd] Hnot]. split; [done|].
        intros r' Hr' Hin'. apply elem_of_union in Hin' as [Hin'|Hin'].
        -- apply elem_of_singleton in Hin'. apply Hfresh.
           apply list_elem_of_fmap. exists r'. by split.
        -- apply (Hnot r'); [by right | done].
Qed.

Lemma NoDup_fmap_inj_on {A B : Type} (f : A → B) (l : list A) :
  (∀ a a', a ∈ l → a' ∈ l → f a = f a' → a = a') →
  NoDup (f <$> l) ↔ NoDup l.
Proof.
  induction l as [|a l IH]; intros Hinj.
  - split; constructor.
  - rewrite fmap_cons, !NoDup_cons, IH.
    2:{ intros a1 a2 H1 H2. apply Hinj; by right. }
    split; intros [Hfresh Hnd]; (split; [|done]).
    + intros Ha. apply Hfresh. apply list_elem_of_fmap. by exists a.
    + intros Ha. apply list_elem_of_fmap in Ha as (a' & Heq & Ha').
      apply Hinj in Heq; [by subst | by left | by right].
Qed.

Lemma isValidPosition_onGrid (b : Board.t) (x y : Z) :
  Board.size b = Board.boardSize →
  Board.isValidPosition b x y = true → onGrid (x, y).
Proof.
  unfold Board.isValidPosition. intros ->.
  destruct ((x <? 0) || (Board.boardSize <=? x) || (y <? 0) || (Board.boardSize <=? y))
    eqn:Hout; [done|].
  intros _. repeat (apply orb_false_iff in Hout as [Hout ?]).
  unfold onGrid, Board.boardSize, CONSTANTS.LARGE_BOARD_SIZE in *. simpl. lia.
Qed.

(** On a board of side 16, [start] succeeds exactly when the game has
    not been started, every token stands on a position of the board
    outside the dead zone whose cell holds no refractor, and no two tokens
    stand on the same position.  It then marks the game as started and
    sets the round to 1, and changes nothing else. *)
Theorem start_succeeds_iff (g : Game.t) :
  Board.size (Game.board g) = Board.boardSize →
  (is_Some (Game.start g)
   ↔ Game.isStarted g = false
     ∧ (∀ r, r ∈ Game.robots g →
          Board.isValidPosition (Game.board g) (Robot.x r) (Robot.y r) = true
          ∧ ∀ c, Board.getCell (Game.board g) (Robot.x r) (Robot.y r) = Some c →
                 Cell.hasPrism c = false)
     ∧ NoDup (Robot.getPosition <$> Game.robots g))
  ∧ ∀ g', Game.start g = Some g' →
          g' = Game.mk (Game.board g) (Game.robots g) (Game.rounds g) 1
                 (Game.totalSteps g) true (Game.isFinished g).
Proof.
  intros Hsize. split.
  2:{ unfold Game.start. intros g' Hstart. destruct (Game.isStarted g); [done|].
      apply bind_Some in Hstart as (_ & _ & Hstart). by simplify_eq. }
  unfold Game.start. destruct (Game.isStarted g).
  { split; [by intros [? ?] | by intros [? _]]. }
  assert (Hstep : is_Some (Game.validateInitialPositions g ≫= λ _,
                    Some (Game.mk (Game.board g) (Game.robots g) (Game.rounds g) 1
                            (Game.totalSteps g) true (Game.isFinished g)))
                  ↔ is_Some (forEachM (Game.validatePosition (Game.board g)) (Game.robots g) tt)
                    ∧ is_Some (forEachM Game.recordPosition (Game.robots g) ∅)).
  { unfold Game.validateInitialPositions.
    destruct (forEachM (Game.validatePosition _) _ _) as [[]|]; cbn [mbind option_bind].
    - destruct (forEachM Game.recordPosition _ _); cbn [mbind option_bind].
      + split; [intros _; split; by eexists | by eexists].
      + split; [by intros [? ?] | by intros [_ [? ?]]].
    - split; [by intros [? ?] | by intros [[? ?] _]]. }
  rewrite Hstep, validatePosition_fold, recordPosition_fold, Forall_forall.
  split.
  - intros (Hvalid & Hnd & _). split; [done|]. split; [done|].
    rewrite <- (NoDup_fmap_inj_on (λ p, Encoder.positionKey p.1 p.2)).
    + by rewrite <- list_fmap_compose.
    + intros p q Hp Hq Hkey.
      apply list_elem_of_fmap in Hp as (r & -> & Hr), Hq as (r' & -> & Hr').
      destruct (Hvalid r Hr) as [Hv _], (Hvalid r' Hr') as [Hv' _].
      apply (isValidPosition_onGrid _ _ _ Hsize) in Hv as [? ?], Hv' as [? ?].
      by apply positionKey_inj.
  - intros (_ & Hvalid & Hnd). split; [done|]. split.
    + rewrite (list_fmap_compose Robot.getPosition (λ p, Encoder.positionKey p.1 p.2)).
      apply NoDup_fmap_inj_on; [|done].
      intros p q Hp Hq Hkey.
      apply list_elem_of_fmap in Hp as (r & -> & Hr), Hq as (r' & -> & Hr').
      destruct (Hvalid r Hr) as [Hv _], (Hvalid r' Hr') as [Hv' _].
      apply (isValidPosition_onGrid _ _ _ Hsize) in Hv as [? ?], Hv' as [? ?].
      by apply positionKey_inj.
    + intros r _. apply not_elem_of_empty.
Qed.

Lemma gameOf_built (gameCode : string) (smallBoards : list SmallBoard.t) :
  bool_decide (is_Some (Game.new gameCode smallBoards)) = true →
  Game.new gameCode smallBoards = Some (gameOf gameCode smallBoards).
Proof.
  intros Hsome. apply bool_decide_eq_true in Hsome as [g Hg].
  unfold gameOf. by rewrite Hg.
Qed.

Lemma sampleGame_built :
  Game.new "024600F0990F" (modulesWith sampleFace emptyFace) = Some sampleGame.
Proof. apply gameOf_built. by vm_compute. Qed.

Lemma start_succeeds_iff_witness :
  NoDup (Robot.getPosition <$> Game.robots sampleGame).
Proof.
  destruct (start_succeeds_iff sampleGame) as [[Hstart _] _]; [by vm_compute|].
  apply Hstart. apply (bool_decide_unpack _). by vm_compute.
Defined.

(** ** Rounds of a game *)

Lemma createRobots_fourPositions (red yellow blue green : Z * Z) :
  Robot.createRobots (fourPositions red yellow blue green)
  = Some [Robot.mk "red" red.1 red.2 red.1 red.2;
          Robot.mk "yellow" yellow.1 yellow.2 yellow.1 yellow.2;
          Robot.mk "blue" blue.1 blue.2 blue.1 blue.2;
          Robot.mk "green" green.1 green.2 green.1 green.2].
Proof. reflexivity. Qed.

Lemma new_gameOk (gameCode : string) (smallBoards : list SmallBoard.t) (g : Game.t) :
  Game.new gameCode smallBoards = Some g → gameOk g ∧ Game.rounds g = [].
Proof.
  unfold Game.new. intros Hnew.
  apply bind_Some in Hnew as ([boardConfig robotPositions] & Hdecode & Hnew).
  apply bind_Some in Hnew as (board & Hboard & Hnew).
  apply bind_Some in Hnew as (robots & Hrobots & Hnew). simplify_eq.
  cbn [fst snd] in *.
  assert (Hcode : Encoder.isHexCode 12 gameCode = true).
  { unfold Encoder.decodeGame in Hdecode. by destruct (Encoder.isHexCode 12 gameCode). }
  destruct (decodeGame_hex gameCode Hcode) as (bc & r & y & b & gr & Heq & _ & Hall).
  rewrite Heq in Hdecode. simplify_eq.
  rewrite createRobots_fourPositions in Hrobots. simplify_eq.
  repeat (apply Forall_cons in Hall as [[? ?] Hall]).
  unfold Game.newBoard in Hboard. apply bind_Some in Hboard as (_ & _ & Hinit).
  destruct (init_wf _ _ _ Hinit) as (Hsize & _).
  destruct (targets_of_built_board _ _ _ Hinit) as (_ & Hvalid & _).
  split; [|done]. unfold gameOk. cbn [Game.board Game.robots Game.rounds Game.totalSteps].
  split; [done|]. split.
  { apply Forall_forall. intros t Ht. unfold targetPosition.
    by apply (isValidPosition_onGrid board), Hvalid. }
  split; [done|]. split; [|split; [done | constructor]].
  repeat (apply Forall_cons; split; [by split|]). by apply Forall_nil.
Qed.

Lemma moveFirst_colors (robotColor : string) (x y : Z) (robots : list Robot.t) :
  Robot.color <$> Game.moveFirst robotColor x y robots = Robot.color <$> robots.
Proof.
  induction robots as [|r robots IH]; [done|]. cbn [Game.moveFirst].
  case_bool_decide; [done|]. by rewrite !fmap_cons, IH.
Qed.

Lemma moveFirst_Forall (P : Robot.t → Prop) (robotColor : string) (x y : Z)
  (robots : list Robot.t) :
  (∀ r, P r → P (Robot.moveTo x y r)) →
  Forall P robots → Forall P (Game.moveFirst robotColor x y robots).
Proof.
  intros Hmove. induction 1 as [|r robots Hr Hrobots IH]; [constructor|].
  cbn [Game.moveFirst]. case_bool_decide; constructor; auto.
Qed.

Lemma roundSteps_snoc (rounds : list Game.Round) (round : Game.Round) :
  roundSteps (rounds ++ [round]) = roundSteps rounds + Game.steps round.
Proof. unfold roundSteps. by rewrite foldl_app. Qed.

Lemma getTargetById_Some (b : Board.t) (targetId : string) (t : Target.t) :
  Game.getTargetById b targetId = Some t → t ∈ Board.targets b ∧ Target.id t = targetId.
Proof.
  unfold Game.getTargetById. intros Hfind. apply find_some in Hfind as [Hin Hid].
  split; [by apply list_elem_of_In | by apply bool_decide_eq_true in Hid].
Qed.

Lemma afterCall_board (g : Game.t) (c : Call) : Game.board (afterCall g c) = Game.board g.
Proof.
  destruct c as [|targetId robotColor path steps| |]; cbn [afterCall]; try done.
  - unfold Game.start. destruct (Game.isStarted g); [done|].
    by destruct (Game.validateInitialPositions g).
  - unfold Game.executeRound.
    destruct (Game.getTargetById _ _); [|done]. cbn [mbind option_bind].
    by destruct (List.find _ _).
Qed.

Lemma afterCall_gameOk (g : Game.t) (c : Call) : gameOk g → gameOk (afterCall g c).
Proof.
  intros (Hsize & Htargets & Hcolors & Hrobots & Hsteps & Hrounds).
  destruct c as [|targetId robotColor path steps| |]; cbn [afterCall].
  - unfold Game.start. destruct (Game.isStarted g); [done|].
    by destruct (Game.validateInitialPositions g).
  - unfold Game.executeRound.
    destruct (Game.getTargetById _ _) as [target|] eqn:Htarget; [|done].
    cbn [mbind option_bind].
    destruct (List.find _ _) as [robot|] eqn:Hrobot; [|done].
    cbn [mbind option_bind fmap option_fmap option_map default fst]. unfold id.
    apply getTargetById_Some in Htarget as [Hin Hid].
    apply find_some in Hrobot as [Hrin Hrcolor].
    apply bool_decide_eq_true in Hrcolor. apply list_elem_of_In in Hrin.
    unfold gameOk.
    cbn [Game.board Game.robots Game.rounds Game.totalSteps].
    split; [done|]. split; [done|]. split; [by rewrite moveFirst_colors|].
    split; [|split].
    + apply moveFirst_Forall; [|done]. intros r [_ Hinit]. split; [|done].
      rewrite Forall_forall in Htargets. apply (Htargets target Hin).
    + rewrite roundSteps_snoc. cbn [Game.steps]. by rewrite Hsteps.
    + apply Forall_app. split; [done|]. constructor; [|constructor].
      unfold roundOk. cbn [Game.targetInfo Game.targetId Game.endPosition Game.robotColor].
      split; [done|]. split; [done|]. split; [done|].
      rewrite <- Hcolors, <- Hrcolor. apply list_elem_of_fmap. by exists robot.
  - done.
  - unfold gameOk. cbn [Game.reset Game.board Game.robots Game.rounds Game.totalSteps].
    split; [done|]. split; [done|]. split.
    { rewrite <- Hcolors, <- list_fmap_compose. by apply list_fmap_ext. }
    split; [|split; [done | constructor]].
    apply Forall_fmap. eapply Forall_impl; [exact Hrobots|].
    intros r [_ Hinit]. by split.
Qed.

Lemma afterCalls_gameOk (calls : list Call) (g : Game.t) :
  gameOk g → gameOk (afterCalls g calls) ∧ Game.board (afterCalls g calls) = Game.board g.
Proof.
  unfold afterCalls. revert g. induction calls as [|c calls IH]; intros g Hok; [done|].
  cbn [foldl]. destruct (IH (afterCall g c)) as [Hok' Hboard]; [by apply afterCall_gameOk|].
  split; [done|]. by rewrite Hboard, afterCall_board.
Qed.

(** After any sequence of calls on a game that the constructor built,
    the board is the one that was built, there is one token per color in
    the order red, yellow, blue, green, every token stands on the grid,
    the total of steps is the sum of the steps of the recorded rounds, and
    every recorded round names a goal of the board by its id, ends on the
    position of that goal and names the color of a token. *)
Theorem rounds_account_for_game_state (gameCode : string)
  (smallBoards : list SmallBoard.t) (g : Game.t) (calls : list Call) :
  Game.new gameCode smallBoards = Some g →
  Game.board (afterCalls g calls) = Game.board g
  ∧ Robot.color <$> Game.robots (afterCalls g calls) = CONSTANTS.COLOR_ORDER
  ∧ (∀ r, r ∈ Game.robots (afterCalls g calls) → onGrid (Robot.getPosition r))
  ∧ Game.totalSteps (afterCalls g calls) = roundSteps (Game.rounds (afterCalls g calls))
  ∧ Forall (roundOk (Game.board g)) (Game.rounds (afterCalls g calls)).
Proof.
  intros Hnew. apply new_gameOk in Hnew as [Hok _].
  destruct (afterCalls_gameOk calls g Hok)
    as [(Hsize & Htargets & Hcolors & Hrobots & Hsteps & Hrounds) Hboard].
  split; [done|]. split; [done|]. split; [|split; [done | by rewrite <- Hboard]].
  intros r Hr. rewrite Forall_forall in Hrobots. by destruct (Hrobots r Hr).
Qed.

Lemma rounds_account_for_game_state_witness :
  Game.totalSteps
    (afterCalls sampleGame [CallStart; CallExecuteRound "t1" "red" [] 3; CallFinish])
  = roundSteps
      (Game.rounds
         (afterCalls sampleGame [CallStart; CallExecuteRound "t1" "red" [] 3; CallFinish])).
Proof.
  destruct (rounds_account_for_game_state "024600F0990F" (modulesWith sampleFace emptyFace)
              sampleGame [CallStart; CallExecuteRound "t1" "red" [] 3; CallFinish]
              sampleGame_built) as (_ & _ & _ & Hsteps & _).
  exact Hsteps.
Defined.

(** ** The goals offered for the next round *)

Lemma insertAvailable_perm (a : Game.Available) (l : list Game.Available) :
  Game.insertAvailable a l ≡ₚ a :: l.
Proof.
  induction l as [|b l IH]; [done|]. cbn [Game.insertAvailable].
  destruct (Game.compareAvailable a b <=? 0); [done|].
  rewrite IH. apply Permutation_swap.
Qed.

Lemma sortAvailable_perm (l : list Game.Available) : Game.sortAvailable l ≡ₚ l.
Proof.
  unfold Game.sortAvailable. induction l as [|a l IH]; [done|].
  cbn [foldr]. by rewrite insertAvailable_perm, IH.
Qed.








Lemma positionKey_occupied (robots : list Robot.t) (p : Z * Z) :
  onGrid p → Forall (λ r, onGrid (Robot.getPosition r)) robots →
  Encoder.positionKey p.1 p.2
    ∈ (list_to_set ((λ robot, Encoder.positionKey (Robot.x robot) (Robot.y robot))
                      <$> robots) : gset string)
  ↔ ∃ r, r ∈ robots ∧ Robot.getPosition r = p.
Proof.
  intros [Hp1 Hp2] Hrobots. rewrite elem_of_list_to_set, list_elem_of_fmap.
  rewrite Forall_forall in Hrobots. split.
  - intros (r & Hkey & Hr). exists r. split; [done|].
    destruct (Hrobots r Hr) as [? ?]. symmetry.
    by apply (positionKey_inj p (Robot.getPosition r)).
  - intros (r & Hr & <-). by exists r.
Qed.

(** After any sequence of calls on a game that the constructor built, a
    goal is offered exactly when it is a goal of the board, no token
    stands on its position, and no recorded round was played for its id. *)
Theorem offered_goals_are_free_and_unplayed (gameCode : string)
  (smallBoards : list SmallBoard.t) (g : Game.t) (calls : list Call) (t : Target.t) :
  Game.new gameCode smallBoards = Some g →
  (∃ a, a ∈ Game.getAvailableTargets (afterCalls g calls) ∧ Game.target a = t)
  ↔ t ∈ Board.targets (Game.board g)
    ∧ (∀ r, r ∈ Game.robots (afterCalls g calls) → Robot.getPosition r ≠ targetPosition t)
    ∧ (∀ round, round ∈ Game.rounds (afterCalls g calls) → Game.targetId round ≠ Target.id t).
Proof.
  intros Hnew. apply new_gameOk in Hnew as [Hok _].
  destruct (afterCalls_gameOk calls g Hok)
    as [(Hsize & Htargets & Hcolors & Hrobots & Hsteps & Hrounds) Hboard].
  rewrite <- Hboard. set (g' := afterCalls g calls) in *.
  assert (Hgrid : Forall (λ r, onGrid (Robot.getPosition r)) (Game.robots g')).
  { eapply Forall_impl; [exact Hrobots|]. by intros r [? _]. }
  assert (Hcond : ∀ t', t' ∈ Board.targets (Game.board g') →
            (if decide (Encoder.positionKey (Target.x t') (Target.y t')
                        ∈ (list_to_set
                             ((λ robot, Encoder.positionKey (Robot.x robot) (Robot.y robot))
                                <$> Game.robots g') : gset string)) then false
             else if decide (Target.id t'
                             ∈ (list_to_set
                                  ((λ round, Target.id (Game.targetInfo round))
                                     <$> Game.rounds g') : gset string)) then false
             else true) = true
            ↔ (∀ r, r ∈ Game.robots g' → Robot.getPosition r ≠ targetPosition t')
              ∧ (∀ round, round ∈ Game.rounds g' → Game.targetId round ≠ Target.id t')).
  { intros t' Ht'. rewrite Forall_forall in Htargets. pose proof (Htargets t' Ht') as Hpos.
    pose proof (positionKey_occupied (Game.robots g') (targetPosition t') Hpos Hgrid)
      as Hocc. cbn [targetPosition fst snd] in Hocc.
    rewrite Forall_forall in Hrounds.
    case_decide as Hkey.
    - split; [done|]. intros [Hfree _]. apply Hocc in Hkey as (r & Hr & Heq).
      by destruct (Hfree r Hr).
    - case_decide as Hused.
      + split; [done|]. intros [_ Hunplayed].
        apply elem_of_list_to_set, list_elem_of_fmap in Hused as (round & Hid & Hround).
        destruct (Hrounds round Hround) as (_ & Hsame & _).
        destruct (Hunplayed round Hround). by rewrite Hsame.
      + split; [|done]. intros _. split.
        * intros r Hr Heq. apply Hkey, Hocc. by exists r.
        * intros round Hround Heq. apply Hused.
          apply elem_of_list_to_set, list_elem_of_fmap. exists round. split; [|done].
          destruct (Hrounds round Hround) as (_ & Hsame & _). by rewrite <- Hsame. }
  unfold Game.getAvailableTargets. split.
  - intros (a & Ha & <-). rewrite sortAvailable_perm in Ha.
    apply list_elem_of_fmap in Ha as (t' & -> & Ht'). cbn [Game.target].
    apply list_elem_of_In, filter_In in Ht' as [Hin Hkeep].
    apply list_elem_of_In in Hin. split; [done|]. by apply Hcond.
  - intros (Hin & Hfree & Hunplayed). eexists. split.
    + rewrite sortAvailable_perm. apply list_elem_of_fmap. exists t. split; [reflexivity|].
      apply list_elem_of_In, filter_In. split; [by apply list_elem_of_In|].
      by apply Hcond.
    + reflexivity.
Qed.

Lemma offered_goals_are_free_and_unplayed_witness :
  ¬ ∃ a, a ∈ Game.getAvailableTargets
               (afterCalls sampleGame [CallStart; CallExecuteRound "t1" "red" [] 3])
         ∧ Game.target a = Target.mk 0 6 "circle" "red" "t1".
Proof.
  intros Hoffered.
  apply (offered_goals_are_free_and_unplayed "024600F0990F"
           (modulesWith sampleFace emptyFace) sampleGame
           [CallStart; CallExecuteRound "t1" "red" [] 3]
           (Target.mk 0 6 "circle" "red" "t1") sampleGame_built) in Hoffered
    as (_ & Hfree & _).
  apply (Hfree (Robot.mk "red" 0 6 0 0)); [|reflexivity].
  assert (Hrobots : Game.robots
                      (afterCalls sampleGame [CallStart; CallExecuteRound "t1" "red" [] 3])
                    = [Robot.mk "red" 0 6 0 0; Robot.mk "yellow" 15 0 15 0;
                       Robot.mk "blue" 9 9 9 9; Robot.mk "green" 0 15 0 15])
    by (by vm_compute).
  rewrite Hrobots. left.
Defined.
